(** * Raptor R10 (velopyraptor/raptor.py): a shallow embedding and its properties

    The development follows the source file top to bottom: exceptions, the
    parameters derived from [k], the triple generator, LT rows and the LT
    encoder, the matrix [A] and the decoding schedule, and the replay of the
    schedule over the received payloads. *)

From Stdlib Require Import ZArith List Lia Bool String.
From stdpp Require Import base tactics option list.

Local Open Scope Z_scope.

(** ** Exceptions and outcomes *)

(** The two exception classes of raptor.py and the interpreter's own
    exceptions that the code can run into. *)
Inductive exn : Type :=
| RaptorR10ParameterException (message : string)
| RaptorR10DecodingScheduleException (specific : string)
| NameError (name : string)
| AttributeError (name : string)
| TypeError
| IndexError
| KeyError
| ValueError
| ZeroDivisionError.

(** Outcome of a call on a store of type [S]: a value, a raised exception
    (the store as it was when the exception left the call), or a loop that
    used up the fuel of the model. *)
Inductive outcome (S A : Type) : Type :=
| Ok (x : A) (s : S)
| Raise (e : exn) (s : S)
| OutOfFuel.
Arguments Ok {S A} x s.
Arguments Raise {S A} e s.
Arguments OutOfFuel {S A}.

Definition M (S A : Type) : Type := S -> outcome S A.

Definition ret {S A} (x : A) : M S A := fun s => Ok x s.
Definition raise {S A} (e : exn) : M S A := fun s => Raise e s.
Definition bind {S A B} (m : M S A) (k : A -> M S B) : M S B :=
  fun s => match m s with
           | Ok x s' => k x s'
           | Raise e s' => Raise e s'
           | OutOfFuel => OutOfFuel
           end.
Definition get {S} : M S S := fun s => Ok s s.
Definition put {S} (s : S) : M S unit := fun _ => Ok tt s.
Definition modify {S} (f : S -> S) : M S unit := fun s => Ok tt (f s).

Declare Scope py_scope.
Delimit Scope py_scope with py.
Notation "'let*' x ':=' m 'in' k" := (bind m (fun x => k))
  (at level 10, x pattern, m at level 100, k at level 200) : py_scope.
Notation "m ';;;' k" := (bind m (fun _ => k))
  (at level 100, k at level 200, right associativity) : py_scope.
Local Open Scope py_scope.

(** A computation that reads no store (it runs on the unit store), used
    inside one that has a store. *)
Definition lift {S A} (m : M unit A) : M S A :=
  fun s => match m tt with
           | Ok x _ => Ok x s
           | Raise e _ => Raise e s
           | OutOfFuel => OutOfFuel
           end.

(** [for x in xs: body(x)] *)
Fixpoint for_each {S X} (xs : list X) (body : X -> M S unit) : M S unit :=
  match xs with
  | [] => ret tt
  | x :: xs' => body x ;;; for_each xs' body
  end.

(** [xrange(lo, hi)] over the naturals. *)
Definition xrange (lo hi : nat) : list nat := seq lo (hi - lo).

(** A value, or the exception that a lookup raises when there is none. *)
Definition lookup_or {S A} (e : exn) (o : option A) : M S A :=
  match o with Some x => ret x | None => raise e end.

(** ** Consumed tables (the [distributions] package) *)

(** The numeric tables of [distributions.*] are not part of raptor.py; the
    code below takes them as parameters. *)
Class Tables : Type := {
  (** [primes.next(x)]: the next prime at or after [x], or [None]. *)
  primes_next : Z -> option Z;
  (** [half.next(x)]: the smallest [H] with [choose(H, ceil(H/2)) >= x], or [None]. *)
  half_next : Z -> option Z;
  (** [systematic_index[k]]. *)
  systematic_index_table : Z -> Z;
  (** [random.R10(Y, i, m)]. *)
  random_R10 : Z -> Z -> Z -> Z;
  (** [degree.R10(v)]. *)
  degree_R10 : Z -> Z;
  (** [gray.SEQUENCE[h_half][j]], [None] outside the table. *)
  gray_SEQUENCE : Z -> Z -> option Z;
  (** [optimal_esi.get_esi(k, id)]. *)
  optimal_esi_get_esi : Z -> Z -> Z
}.

(** Modelled from the spec: the R10 pseudo-random generator of section 6,
    [R10(Y, i, m) = (V0[(Y + i) mod 256] XOR V1[(floor(Y/256) + i) mod 256]) mod m],
    over two tables [V0] and [V1] (distributions/random.py is missing). *)
Definition spec_R10 (V0 V1 : Z -> Z) (Y i m : Z) : Z :=
  Z.lxor (V0 ((Y + i) mod 256)) (V1 ((Y / 256 + i) mod 256)) mod m.

(** ** Parameters *)

Definition MIN_K : Z := 4.
Definition MAX_K : Z := 8192.

(** The attributes that [set_params] stores on the instance. [l_prime] is
    whatever [primes.next] returned. *)
Record Params : Type := {
  p_k : Z;
  p_x : Z;
  p_s : Z;
  p_h : Z;
  p_h_prime : Z;
  p_l : Z;
  p_l_prime : option Z;
  p_systematic_index : Z
}.

(** [int(math.ceil((1 + math.sqrt(1 - 4 * c)) / 2))] for [c = -2 * k] and
    [k > 0]: with [r] the integer square root of [n = 1 + 8k], the real
    [(1 + sqrt n) / 2] is the integer [(1 + r) / 2] when [n] is a square
    ([r] is odd then), and lies strictly between [(1 + r) / 2] and
    [(2 + r) / 2] otherwise; [n <= 65537] is far inside the range where
    double precision keeps these cases apart. *)
Definition quadratic_x (k : Z) : Z :=
  let c := -2 * k in
  let n := 1 - 4 * c in
  let r := Z.sqrt n in
  if r * r =? n then (r + 2) / 2 else (r + 1) / 2 + 1.

(** [math.ceil(0.01 * k)]; equal to the exact ceiling of [k / 100] for every
    [k] of the admitted range. *)
Definition ceil_hundredth (k : Z) : Z := (k + 99) / 100.

(** Python's [not v] for a table result that is an integer or [None]. *)
Definition py_not (v : option Z) : bool :=
  match v with
  | None => true
  | Some z => z =? 0
  end.

(** [v / 2.0] followed by [int(math.ceil(...))]; [None / 2.0] is a [TypeError]. *)
Definition ceil_half {S} (v : option Z) : M S Z :=
  match v with
  | None => raise TypeError
  | Some h => ret ((h + 1) / 2)
  end.

(** [a + b] on integers; [TypeError] when an operand is [None]. *)
Definition py_add {S} (a : Z) (b : option Z) : M S Z :=
  match b with
  | None => raise TypeError
  | Some z => ret (a + z)
  end.

Section SetParams.
Context {T : Tables}.

(** [RaptorR10.set_params]. The branch for a failed [H] search builds the
    exception object and drops it: the source has no [raise] there. *)
Definition set_params (k : Z) : M unit Params :=
  if (k <? MIN_K) || (k >? MAX_K) then
    raise (RaptorR10ParameterException "k must be between MIN_K and MAX_K")
  else
    let x := quadratic_x k in
    let s := primes_next (ceil_hundredth k + x) in
    if py_not s then
      raise (RaptorR10ParameterException "s: -- No s found for k and x")
    else
      let* s := lookup_or TypeError s in
      let h := half_next (k + s) in
      let _ := if py_not h
               then Some (RaptorR10ParameterException "h: Unable to find h for k and s")
               else None in
      let* h_prime := ceil_half h in
      let* ks := ret (k + s) in
      let* l := py_add ks h in
      let l_prime := primes_next l in
      let* h := lookup_or TypeError h in
      ret {| p_k := k; p_x := x; p_s := s; p_h := h; p_h_prime := h_prime;
             p_l := l; p_l_prime := l_prime;
             p_systematic_index := systematic_index_table k |}.

(** [RaptorR10.triple]. *)
Definition triple (p : Params) (id : Z) : M unit (Z * Z * Z) :=
  let Q := 65521 in
  let A := (53591 + p_systematic_index p * 997) mod Q in
  let B := 10267 * (p_systematic_index p + 1) mod Q in
  let Y := (B + id * A) mod Q in
  let v := random_R10 Y 0 1048576 in
  let d := degree_R10 v in
  let* l_prime := lookup_or TypeError (p_l_prime p) in
  let a := 1 + random_R10 Y 1 (l_prime - 1) in
  let b := random_R10 Y 2 l_prime in
  ret (d, a, b).
End SetParams.


(** ** Python containers *)

(** Index normalisation of a Python sequence of length [n]: a negative index
    counts from the end; out of range there is no element. *)
Definition py_index (n : nat) (z : Z) : option nat :=
  if (0 <=? z) && (z <? Z.of_nat n) then Some (Z.to_nat z)
  else if (- Z.of_nat n <=? z) && (z <? 0) then Some (Z.to_nat (Z.of_nat n + z))
  else None.

(** [xs[z]] *)
Definition getitem {St A} (xs : list A) (z : Z) : M St A :=
  match py_index (length xs) z with
  | Some i => lookup_or IndexError (xs !! i)
  | None => raise IndexError
  end.

(** [xs[z] = v] *)
Definition setitem {St A} (xs : list A) (z : Z) (v : A) : M St (list A) :=
  match py_index (length xs) z with
  | Some i => ret (<[i:=v]> xs)
  | None => raise IndexError
  end.

(** [x % m] on integers. *)
Definition py_mod {St} (x m : Z) : M St Z :=
  if m =? 0 then raise ZeroDivisionError else ret (x mod m).

(** [xrange(lo, hi)] over the integers. *)
Definition xrangeZ (lo hi : Z) : list Z :=
  map (fun i => lo + Z.of_nat i) (seq 0 (Z.to_nat (hi - lo))).

(** A [for] loop that carries local variables [acc]. *)
Fixpoint fold_for {St X B} (xs : list X) (body : X -> B -> M St B) (acc : B) : M St B :=
  match xs with
  | [] => ret acc
  | x :: xs' => let* acc' := body x acc in fold_for xs' body acc'
  end.

(** ** The store: numpy arrays and the instance *)

(** numpy arrays live in a heap and are named by their address; a fresh
    array gets the next address. An array is its list of words. *)
Abbreviation addr := nat (only parsing).
Abbreviation ndarray := (list Z) (only parsing).

(** The attributes of a [RaptorR10] instance. [r_i_symbols] and [r_xors] do
    not exist before [calculate_i_symbols] has set them. An entry of
    [i_symbols] is a reference to an array or [None]. *)
Record RaptorR10 : Type := {
  r_params : Params;
  r_use_prepass : bool;
  r_use_optimal_esis : bool;
  r_current_id : Z;
  r_symbols : list (Z * addr);
  r_i_symbols : option (list (option addr));
  r_xors : option nat
}.

Record World : Type := {
  heap : list ndarray;
  self : RaptorR10
}.

Definition heap_read (h : list ndarray) (a : addr) : ndarray := default [] (h !! a).

(** [numpy.array(src, copy=True)] and [numpy.array(zeros, copy=True)]. *)
Definition numpy_array_copy (src : ndarray) : M World addr :=
  fun w => Ok (length (heap w)) {| heap := heap w ++ [src]; self := self w |}.

(** [numpy.zeros(n, dtype=DTYPE)] *)
Definition numpy_zeros (n : nat) : ndarray := replicate n 0.

(** [RaptorR10.xor_arrays]: [numpy.bitwise_xor(source, target, target)].
    Arrays of different lengths are refused (numpy's broadcasting of a
    one-element source is left out). *)
Definition xor_arrays (source target : addr) : M World unit :=
  fun w =>
    let s := heap_read (heap w) source in
    let t := heap_read (heap w) target in
    if Nat.eqb (length s) (length t)
    then Ok tt {| heap := <[target := zip_with Z.lxor s t]> (heap w); self := self w |}
    else Raise ValueError w.

Section Encoder.
Context {T : Tables}.

(** [while b >= self.l: b = (b + a) % self.l_prime] *)
Fixpoint skip_past_l {St} (fuel : nat) (l l_prime a b : Z) : M St Z :=
  if b >=? l then
    match fuel with
    | O => fun _ => OutOfFuel
    | S fuel' =>
        let* b' := py_mod (b + a) l_prime in
        skip_past_l fuel' l l_prime a b'
    end
  else ret b.

(** [RaptorR10.lt_row] *)
Definition lt_row (p : Params) (esi : Z) : M unit (list bool) :=
  let l := p_l p in
  let ba := replicate (Z.to_nat l) false in
  let* (d, a, b) := triple p esi in
  let* l_prime := lookup_or TypeError (p_l_prime p) in
  let* b := skip_past_l (Z.to_nat l_prime) l l_prime a b in
  let* ba := setitem ba b true in
  let* (_, ba) :=
    fold_for (xrangeZ 1 (Z.min d l))
      (fun _ '(b, ba) =>
         let* b := py_mod (b + a) l_prime in
         let* b := skip_past_l (Z.to_nat l_prime) l l_prime a b in
         let* ba := setitem ba b true in
         ret (b, ba))
      (b, ba) in
  ret ba.

(** [self.i_symbols[b]], the array the entry refers to. *)
Definition i_symbol (b : Z) : M World addr :=
  let* w := get in
  let* isyms := lookup_or (AttributeError "i_symbols") (r_i_symbols (self w)) in
  let* entry := getitem isyms b in
  lookup_or TypeError entry.

(** [RaptorR10.ltenc] *)
Definition ltenc (id : Z) : M World addr :=
  let* w := get in
  let p := r_params (self w) in
  let l := p_l p in
  let* (d, a, b) := lift (triple p id) in
  let* l_prime := lookup_or TypeError (p_l_prime p) in
  let* b := skip_past_l (Z.to_nat l_prime) l l_prime a b in
  let* src := i_symbol b in
  let* w := get in
  let* result := numpy_array_copy (heap_read (heap w) src) in
  fold_for (xrangeZ 1 (Z.min d l))
    (fun _ b =>
       let* b := py_mod (b + a) l_prime in
       let* b := skip_past_l (Z.to_nat l_prime) l l_prime a b in
       let* src := i_symbol b in
       xor_arrays src result ;;;
       ret b)
    b ;;;
  ret result.

(** [RaptorR10._get_next_id] *)
Definition get_next_id : M World Z :=
  fun w =>
    let r := if r_use_optimal_esis (self w)
             then optimal_esi_get_esi (p_k (r_params (self w))) (r_current_id (self w))
             else r_current_id (self w) in
    Ok r {| heap := heap w;
            self := {| r_params := r_params (self w);
                       r_use_prepass := r_use_prepass (self w);
                       r_use_optimal_esis := r_use_optimal_esis (self w);
                       r_current_id := r_current_id (self w) + 1;
                       r_symbols := r_symbols (self w);
                       r_i_symbols := r_i_symbols (self w);
                       r_xors := r_xors (self w) |} |}.

(** [RaptorR10.next] *)
Definition next : M World (Z * addr) :=
  let* symbol_id := get_next_id in
  let* payload := ltenc symbol_id in
  ret (symbol_id, payload).
End Encoder.

(** ** Bit arrays and the schedule *)

Local Open Scope nat_scope.

(** A [bitarray] is its list of bits; a matrix is a Python list of rows. The
    rows that [a()] builds are distinct objects, so a row is modelled by its
    value and an in-place update of a row by an update of the list. *)
Abbreviation bitarray := (list bool) (only parsing).
Abbreviation matrix := (list (list bool)) (only parsing).

(** [ba.count()] *)
Definition count (ba : bitarray) : nat := length (filter (fun b => b = true) ba).

(** [x ^ y] on bit arrays; lengths must agree. *)
Definition bitarray_xor {St} (x y : bitarray) : M St bitarray :=
  if Nat.eqb (length x) (length y) then ret (zip_with xorb x y) else raise ValueError.

(** [ba[i:j]] for [0 <= i] and [0 <= j]. *)
Definition slice (ba : bitarray) (i j : nat) : bitarray := drop i (take j ba).

(** [temp = xs[i]; xs[i] = xs[j]; xs[j] = temp] *)
Definition swap_items {St A} (xs : list A) (i j : nat) : M St (list A) :=
  let* temp := lookup_or IndexError (xs !! i) in
  let* other := lookup_or IndexError (xs !! j) in
  ret (<[j:=temp]> (<[i:=other]> xs)).

Fixpoint mapM {St A B} (f : A -> M St B) (xs : list A) : M St (list B) :=
  match xs with
  | [] => ret []
  | x :: xs' => let* y := f x in let* ys := mapM f xs' in ret (y :: ys)
  end.

(** Modelled from the spec: the class [Schedule] of schedule.py, which is
    missing. Sections 3 and 4.7: [xors] is the ordered sequence of
    (source_row, target_row) pairs that the replay applies to the payload
    buffer; [c] and [d] start as the identity maps on [0, l) and [0, m), a
    column exchange updates [c] and a row exchange updates [d]. The replay
    works on the payload buffer in its original order, so [xor(r1, r2)]
    records the buffer rows [d[r2]] and [d[r1]] that stand at the matrix rows
    [r2] and [r1]. *)
Record Schedule : Type := {
  sch_xors : list (nat * nat);
  sch_c : list nat;
  sch_d : list nat
}.

Definition Schedule_new (l m : nat) : Schedule :=
  {| sch_xors := []; sch_c := seq 0 l; sch_d := seq 0 m |}.

(** The local variables of [decoding_schedule] that its helpers mutate. *)
Record Solver : Type := {
  sv_a : matrix;
  sv_o_degrees : list nat;
  sv_schedule : Schedule
}.

Definition set_a (a : matrix) (st : Solver) : Solver :=
  {| sv_a := a; sv_o_degrees := sv_o_degrees st; sv_schedule := sv_schedule st |}.
Definition set_o_degrees (o : list nat) (st : Solver) : Solver :=
  {| sv_a := sv_a st; sv_o_degrees := o; sv_schedule := sv_schedule st |}.
Definition set_schedule (sc : Schedule) (st : Solver) : Solver :=
  {| sv_a := sv_a st; sv_o_degrees := sv_o_degrees st; sv_schedule := sc |}.

(** [schedule.xor(r1, r2)] *)
Definition Schedule_xor (r1 r2 : nat) : M Solver unit :=
  let* st := get in
  let sc := sv_schedule st in
  let* src := lookup_or IndexError (sch_d sc !! r2) in
  let* tgt := lookup_or IndexError (sch_d sc !! r1) in
  put (set_schedule {| sch_xors := sch_xors sc ++ [(src, tgt)];
                       sch_c := sch_c sc; sch_d := sch_d sc |} st).

(** [schedule.exchange_row(r1, r2)] *)
Definition Schedule_exchange_row (r1 r2 : nat) : M Solver unit :=
  let* st := get in
  let sc := sv_schedule st in
  let* d := swap_items (sch_d sc) r1 r2 in
  put (set_schedule {| sch_xors := sch_xors sc; sch_c := sch_c sc; sch_d := d |} st).

(** [schedule.exchange_column(c1, c2)] *)
Definition Schedule_exchange_column (c1 c2 : nat) : M Solver unit :=
  let* st := get in
  let sc := sv_schedule st in
  let* c := swap_items (sch_c sc) c1 c2 in
  put (set_schedule {| sch_xors := sch_xors sc; sch_c := c; sch_d := sch_d sc |} st).

(** ** Row and column operations *)

(** [a[row]] *)
Definition row_of (row : nat) : M Solver bitarray :=
  let* st := get in lookup_or IndexError (sv_a st !! row).

(** [a[row][column]] *)
Definition bit (row column : nat) : M Solver bool :=
  let* r := row_of row in lookup_or IndexError (r !! column).

(** [RaptorR10.xor_row] *)
Definition xor_row (r1 r2 : nat) : M Solver unit :=
  let* target := row_of r1 in
  let* source := row_of r2 in
  let* new_row := bitarray_xor target source in
  modify (fun st => set_a (<[r1:=new_row]> (sv_a st)) st) ;;;
  Schedule_xor r1 r2.

(** [RaptorR10.exchange_column] *)
Definition exchange_column (c1 c2 : nat) : M Solver unit :=
  let* st := get in
  let* a := mapM (fun row => swap_items row c1 c2) (sv_a st) in
  put (set_a a st) ;;;
  Schedule_exchange_column c1 c2.

(** [RaptorR10.exchange_row]. The second index is what the row choice
    returned, possibly [None]; [a[None]] is a [TypeError]. *)
Definition exchange_row (r1 : nat) (r2 : option nat) : M Solver unit :=
  let* st := get in
  let* temp := lookup_or IndexError (sv_a st !! r1) in
  let* r2 := lookup_or TypeError r2 in
  let* other := lookup_or IndexError (sv_a st !! r2) in
  put (set_a (<[r2:=temp]> (<[r1:=other]> (sv_a st))) st) ;;;
  let* st := get in
  let* o := swap_items (sv_o_degrees st) r1 r2 in
  put (set_o_degrees o st) ;;;
  Schedule_exchange_row r1 r2.

(** [RaptorR10.prepass] *)
Definition prepass : M Solver unit :=
  let* st := get in
  let n := length (sv_a st) in
  for_each (xrange 0 n) (fun i =>
    for_each (xrange (i + 1) n) (fun j =>
      let* aj := row_of j in
      let cnt := count aj in
      let* ai := row_of i in
      let* new_row := bitarray_xor ai aj in
      if count new_row + 2 <? cnt then xor_row j i else ret tt)).

(** ** Row choice *)

(** What the interpreter and networkx decide and raptor.py does not:
    which element [set.pop()] removes, and which edge comes first in the
    largest connected component of a graph. *)
Class Runtime : Type := {
  (** [ones.pop()] on a non-empty set, given its elements. *)
  set_pop : list nat -> nat;
  (** The [row_index] of the first edge of a component with the most edges,
      given the edges [(v1, v2, row_index)] in the order they were added;
      [None] when there is no component. *)
  largest_component_row : list (nat * nat * nat) -> option nat
}.

Section Solver.
Context {R : Runtime}.
Variable l : nat.

(** [RaptorR10.rows_with_min_r] *)
Definition rows_with_min_r (m i u : nat) : M Solver (option nat * list nat) :=
  fold_for (xrange i m)
    (fun row_index '(min_r, rows) =>
       let* row := row_of row_index in
       let v_row := slice row i (l - u) in
       let r := count v_row in
       if r =? 0 then ret (min_r, rows)
       else
         match min_r with
         | None => ret (Some r, [row_index])
         | Some mr =>
             if r <? mr then ret (Some r, [row_index])
             else if r =? mr then ret (min_r, rows ++ [row_index])
             else ret (min_r, rows)
         end)
    (None, []).

(** [RaptorR10.min_degree_row] *)
Definition min_degree_row (m : nat) (rows_with_r : list nat) : M Solver (option nat) :=
  let* st := get in
  let* (_, min_row) :=
    fold_for rows_with_r
      (fun r '(min_degree, min_row) =>
         let* deg := lookup_or IndexError (sv_o_degrees st !! r) in
         if deg <? min_degree then ret (deg, Some r) else ret (min_degree, min_row))
      (m + 1, None) in
  ret min_row.

(** The columns of [xrange(lo, hi)] where row [row] of [a] has a one. *)
Fixpoint one_columns (row : nat) (columns : list nat) : M Solver (list nat) :=
  match columns with
  | [] => ret []
  | c :: cs =>
      let* b := bit row c in
      let* rest := one_columns row cs in
      ret (if b then c :: rest else rest)
  end.

(** [RaptorR10.row_from_graph]. Unpacking [v1, v2 = tuple(vertices)] is a
    [ValueError] unless there are exactly two vertices; indexing the
    component [None] is a [TypeError]. *)
Definition row_from_graph (i u : nat) (rows_with_r : list nat) : M Solver (option nat) :=
  let* edges :=
    mapM (fun row =>
            let* vertices := one_columns row (xrange i (l - u)) in
            match vertices with
            | [v1; v2] => ret (v1, v2, row)
            | _ => raise ValueError
            end) rows_with_r in
  let* row := lookup_or TypeError (largest_component_row edges) in
  ret (Some row).

(** [ones.remove(x)] *)
Definition set_remove (x : nat) (ones : list nat) : M Solver (list nat) :=
  if bool_decide (x ∈ ones) then ret (filter (fun y => y <> x) ones) else raise KeyError.

(** [ones.pop()] *)
Definition set_pop_from (ones : list nat) : M Solver (nat * list nat) :=
  match ones with
  | [] => raise KeyError
  | _ => let x := set_pop ones in ret (x, filter (fun y => y <> x) ones)
  end.

(** The loop [while column > i and len(ones) > 0] of phase I, with
    [column -= 1] at the end of its body. *)
Fixpoint align_right (column i : nat) (ones : list nat) : M Solver unit :=
  match column with
  | O => ret tt
  | S column' =>
      if (i <? column) && (0 <? length ones) then
        let* b := bit i column in
        let* ones :=
          if negb b then
            let* (x, ones) := set_pop_from ones in
            exchange_column column x ;;;
            ret ones
          else set_remove column ones in
        align_right column' i ones
      else ret tt
  end.

(** [u += r - 1] *)
Definition add_r_minus_one {St} (u : nat) (r : option nat) : M St nat :=
  match r with
  | None => raise TypeError
  | Some r => ret (u + (r - 1))
  end.

(** One turn of the loop [while (i + u) < self.l]; returns [r]. *)
Definition phase1_body (m i u : nat) : M Solver (option nat) :=
  let* (r, rows_with_r) := rows_with_min_r m i u in
  let* row :=
    if bool_decide (r = Some 2) then row_from_graph i u rows_with_r
    else min_degree_row m rows_with_r in
  (if bool_decide (r = Some 0)
   then raise (RaptorR10DecodingScheduleException "No nonzero row to choose from v")
   else ret tt) ;;;
  exchange_row i row ;;;
  let* ones := one_columns i (xrange i (l - u)) in
  let* aii := bit i i in
  let* ones :=
    if negb aii then
      let* (column, ones) := set_pop_from ones in
      exchange_column i column ;;;
      ret ones
    else set_remove i ones in
  align_right (l - u - 1) i ones ;;;
  for_each (xrange (i + 1) m) (fun row =>
    let* b := bit row i in
    if b then xor_row row i else ret tt) ;;;
  ret r.

(** The loop [while (i + u) < self.l]; returns the final [i] and [u]. *)
Fixpoint phase1 (fuel m i u : nat) : M Solver (nat * nat) :=
  if i + u <? l then
    match fuel with
    | O => fun _ => OutOfFuel
    | S fuel' =>
        let* r := phase1_body m i u in
        let* u' := add_r_minus_one u r in
        phase1 fuel' m (i + 1) u'
    end
  else ret (i, u).

(** The search [for row in xrange(column + 1, m): if a[row][column]: ...; break]. *)
Fixpoint find_and_exchange (column : nat) (rows : list nat) : M Solver unit :=
  match rows with
  | [] => ret tt
  | row :: rows' =>
      let* b := bit row column in
      if b then exchange_row column (Some row)
      else find_and_exchange column rows'
  end.

(** Gaussian elimination on [u_lower]. *)
Definition phase2 (m u : nat) : M Solver unit :=
  for_each (xrange (l - u) l) (fun column =>
    let* b := bit column column in
    (if negb b then
       find_and_exchange column (xrange (column + 1) m) ;;;
       let* b := bit column column in
       if negb b
       then raise (RaptorR10DecodingScheduleException "U lower is of less rank than u.")
       else ret tt
     else ret tt) ;;;
    for_each (xrange (column + 1) m) (fun row =>
      let* b := bit row column in
      if b then xor_row row column else ret tt)).

(** [for column in xrange(self.l - 1, self.l - u - 1, -1)] *)
Definition phase3 (i u : nat) : M Solver unit :=
  for_each (rev (xrange (l - u) l)) (fun column =>
    for_each (xrange i column) (fun row =>
      let* b := bit row column in
      if b then xor_row row column else ret tt)).

(** [a = a[:self.l]] and the loops on the top [i] rows. The new list shares
    its rows with the list of the caller, which keeps the rows after [l]:
    the rows are put back behind the result. *)
Definition phase4 (i u : nat) : M Solver unit :=
  let* st := get in
  let rest := drop l (sv_a st) in
  put (set_a (take l (sv_a st)) st) ;;;
  for_each (xrange 0 i) (fun row =>
    for_each (xrange (l - u) l) (fun column =>
      let* b := bit row column in
      if b then xor_row row column else ret tt)) ;;;
  modify (fun st => set_a (sv_a st ++ rest) st).

(** [schedule = Schedule(self.l, m)] and
    [o_degrees = [row.count() for row in a]]. *)
Definition init_locals (m : nat) : M Solver unit :=
  modify (fun st => {| sv_a := sv_a st;
                       sv_o_degrees := map count (sv_a st);
                       sv_schedule := Schedule_new l m |}).

(** [RaptorR10.decoding_schedule] for [m = s + h + len(symbols)]; the
    matrix [a] of the call is the one in the store, and the store at the
    end holds it as the caller sees it. The loop of phase I gets [l] units
    of fuel: every turn adds at least one to [i + u]. *)
Definition decoding_schedule (use_prepass : bool) (m : nat) : M Solver Schedule :=
  init_locals m ;;;
  (if use_prepass then prepass else ret tt) ;;;
  let* (i, u) := phase1 l m 0 0 in
  phase2 m u ;;;
  phase3 i u ;;;
  phase4 i u ;;;
  let* st := get in
  ret (sv_schedule st).
End Solver.

(** ** The matrix [A] *)

(** Modelled from the spec: [matrix.identity(n)] and [matrix.zeros(r, c)] of
    matrix.py, which is missing; section 4.6 names them Identity[n x n] and
    Zero[r x c], and the code concatenates their rows to bit arrays. *)
Definition matrix_identity (n : nat) : matrix :=
  map (fun r => map (fun c => Nat.eqb r c) (seq 0 n)) (seq 0 n).
Definition matrix_zeros (r c : nat) : matrix := replicate r (replicate c false).

Local Open Scope Z_scope.

(** [x / float(y)] followed by [math.floor], on integers. *)
Definition py_floordiv {St} (x y : Z) : M St Z :=
  if y =? 0 then raise ZeroDivisionError else ret (x / y).

(** [matrix[b][i] = True] *)
Definition set_bit {St} (mx : matrix) (b i : Z) : M St matrix :=
  let* row := getitem mx b in
  let* row := setitem row i true in
  setitem mx b row.

(** [RaptorR10.ldpc] *)
Definition ldpc (k s : Z) : M unit matrix :=
  let mx := replicate (Z.to_nat s) (replicate (Z.to_nat k) false) in
  fold_for (xrangeZ 0 k)
    (fun i mx =>
       let* q := py_floordiv i s in
       let* r := py_mod q (s - 1) in
       let a := 1 + r in
       let* b := py_mod i s in
       let* mx := set_bit mx b i in
       let* b := py_mod (b + a) s in
       let* mx := set_bit mx b i in
       let* b := py_mod (b + a) s in
       set_bit mx b i)
    mx.

Section MatrixA.
Context {T : Tables}.

(** [RaptorR10.half]; [check_nth_bit(n, number)] is [Z.testbit number n]. *)
Definition half (k S H H_HALF : Z) : M unit matrix :=
  mapM (fun h =>
          fold_for (xrangeZ 0 (k + S))
            (fun j ba =>
               let* g := lookup_or IndexError (gray_SEQUENCE H_HALF j) in
               if Z.testbit g h then setitem ba j true else ret ba)
            (replicate (Z.to_nat (k + S)) false))
       (xrangeZ 0 H).

(** [RaptorR10.ldpc_section] *)
Definition ldpc_section (p : Params) : M unit matrix :=
  let* ldpc := ldpc (p_k p) (p_s p) in
  let identity := matrix_identity (Z.to_nat (p_s p)) in
  let zero := matrix_zeros (Z.to_nat (p_s p)) (Z.to_nat (p_h p)) in
  mapM (fun i =>
          let* x := getitem ldpc i in
          let* y := getitem identity i in
          let* z := getitem zero i in
          ret (x ++ y ++ z))
       (xrangeZ 0 (p_s p)).

(** [RaptorR10.hdpc_section] *)
Definition hdpc_section (p : Params) : M unit matrix :=
  let* half := half (p_k p) (p_s p) (p_h p) (p_h_prime p) in
  let identity := matrix_identity (Z.to_nat (p_h p)) in
  mapM (fun i =>
          let* x := getitem half i in
          let* y := getitem identity i in
          ret (x ++ y))
       (xrangeZ 0 (p_h p)).

(** [RaptorR10.lt_section] *)
Definition lt_section (p : Params) (symbols : list (Z * addr)) : M unit matrix :=
  mapM (fun '(id, _) => lt_row p id) symbols.

(** [RaptorR10.a] *)
Definition a (p : Params) (symbols : list (Z * addr)) : M unit matrix :=
  let* x := ldpc_section p in
  let* y := hdpc_section p in
  let* z := lt_section p symbols in
  ret (x ++ y ++ z).
End MatrixA.

(** ** Replay of the schedule and [can_decode] *)

(** A call that works on local variables of its own: the store of the
    caller stays as it is, also when the call raises. *)
Definition with_locals {A} (m : M Solver A) (init : Solver) : M World (A * Solver) :=
  fun w => match m init with
           | Ok x st => Ok (x, st) w
           | Raise e _ => Raise e w
           | OutOfFuel => OutOfFuel
           end.

Definition set_self (f : RaptorR10 -> RaptorR10) : M World unit :=
  modify (fun w => {| heap := heap w; self := f (self w) |}).

Definition with_i_symbols (v : option (list (option addr))) (me : RaptorR10) : RaptorR10 :=
  {| r_params := r_params me; r_use_prepass := r_use_prepass me;
     r_use_optimal_esis := r_use_optimal_esis me; r_current_id := r_current_id me;
     r_symbols := r_symbols me; r_i_symbols := v; r_xors := r_xors me |}.

Definition with_xors (n : nat) (me : RaptorR10) : RaptorR10 :=
  {| r_params := r_params me; r_use_prepass := r_use_prepass me;
     r_use_optimal_esis := r_use_optimal_esis me; r_current_id := r_current_id me;
     r_symbols := r_symbols me; r_i_symbols := r_i_symbols me; r_xors := Some n |}.

Section Decoder.
Context {T : Tables} {R : Runtime}.

(** [self.l] and [self.s + self.h + len(self.symbols)] as loop bounds. *)
Definition l_of (me : RaptorR10) : nat := Z.to_nat (p_l (r_params me)).
Definition m_of (me : RaptorR10) : nat :=
  Z.to_nat (p_s (r_params me) + p_h (r_params me) + Z.of_nat (length (r_symbols me))).

(** [self.decoding_schedule(a)] as a call: the schedule it returns and
    the matrix it leaves in [a]. *)
Definition call_decoding_schedule (me : RaptorR10) (mx : matrix) : M World (Schedule * matrix) :=
  let* (schedule, st) :=
    with_locals (decoding_schedule (l_of me) (r_use_prepass me) (m_of me))
      {| sv_a := mx; sv_o_degrees := []; sv_schedule := Schedule_new 0 0 |} in
  ret (schedule, sv_a st).

(** [RaptorR10.calculate_d] *)
Definition calculate_d : M World (list addr) :=
  let* w := get in
  let me := self w in
  let* first := getitem (r_symbols me) 0 in
  let symbolsize := length (heap_read (heap w) (snd first)) in
  let zeros := numpy_zeros symbolsize in
  let* d := mapM (fun _ => numpy_array_copy zeros)
                 (xrangeZ 0 (p_s (r_params me) + p_h (r_params me))) in
  ret (d ++ map snd (r_symbols me)).

(** [self.i_symbols[ci] = v] *)
Definition set_i_symbol (ci : nat) (v : addr) : M World unit :=
  let* w := get in
  let* isyms := lookup_or (AttributeError "i_symbols") (r_i_symbols (self w)) in
  if (ci <? length isyms)%nat
  then set_self (with_i_symbols (Some (<[ci:=Some v]> isyms)))
  else raise IndexError.

(** [RaptorR10.calculate_i_symbols]. The name in the first [raise] is not
    defined in the module. *)
Definition calculate_i_symbols : M World unit :=
  let* w := get in
  let me := self w in
  if Z.of_nat (length (r_symbols me)) <? p_k (r_params me) then
    raise (NameError "RaptorR10DecodingScheduleExceptionException")
  else
    let* mx := lift (a (r_params me) (r_symbols me)) in
    let* (schedule, _) := call_decoding_schedule me mx in
    let* D := calculate_d in
    set_self (with_xors (length (sch_xors schedule))) ;;;
    set_self (with_i_symbols (Some (replicate (l_of me) None))) ;;;
    for_each (sch_xors schedule) (fun '(xor_row, target_row) =>
      let* source := lookup_or IndexError (D !! xor_row) in
      let* target := lookup_or IndexError (D !! target_row) in
      xor_arrays source target) ;;;
    for_each (xrange 0 (l_of me)) (fun i =>
      let* ci := lookup_or IndexError (sch_c schedule !! i) in
      let* di := lookup_or IndexError (sch_d schedule !! i) in
      let* v := lookup_or IndexError (D !! di) in
      set_i_symbol ci v).

(** [RaptorR10.can_decode]: the bare [except] takes every exception. *)
Definition can_decode : M World bool :=
  fun w =>
    match (let* mx := lift (a (r_params (self w)) (r_symbols (self w))) in
           call_decoding_schedule (self w) mx) w with
    | Ok _ w' => Ok true w'
    | Raise _ w' => Ok false w'
    | OutOfFuel => OutOfFuel
    end.
End Decoder.

(** ** An instance of the tables for examples *)

(** The tables of [distributions] are data of RFC 5053 and are not in the
    source file. The examples below run the code on tables computed as the
    RFC defines them where that is a formula (primes, central binomials, Gray
    sequence, degree distribution) and on arithmetic stand-ins for the random
    tables [V0], [V1] and for the systematic index. *)
Module Example.

Definition is_prime_b (n : Z) : bool :=
  (2 <=? n) &&
  forallb (fun d => negb (n mod d =? 0)) (map Z.of_nat (seq 2 (Z.to_nat n - 2))).

Fixpoint search_prime (fuel : nat) (x : Z) : option Z :=
  match fuel with
  | O => None
  | S fuel' => if is_prime_b x then Some x else search_prime fuel' (x + 1)
  end.

Fixpoint choose (n k : nat) : Z :=
  match n, k with
  | _, O => 1
  | O, S _ => 0
  | S n', S k' => choose n' k' + choose n' k
  end.

Fixpoint search_half (fuel h : nat) (x : Z) : option Z :=
  match fuel with
  | O => None
  | S fuel' =>
      if x <=? choose h (Nat.div (h + 1) 2) then Some (Z.of_nat h)
      else search_half fuel' (S h) x
  end.

Definition popcount (z : Z) : nat :=
  length (List.filter (fun i => Z.testbit z (Z.of_nat i)) (seq 0 20)).

Definition gray_seq (h_half : Z) : list Z :=
  List.filter (fun g => Nat.eqb (popcount g) (Z.to_nat h_half))
    (map (fun i => Z.lxor (Z.of_nat i) (Z.shiftr (Z.of_nat i) 1)) (seq 0 1024)).

Definition deg (v : Z) : Z :=
  if v <? 10241 then 1 else if v <? 491582 then 2 else if v <? 712794 then 3
  else if v <? 831695 then 4 else if v <? 948446 then 10
  else if v <? 1032189 then 11 else 40.

Definition V0 (i : Z) : Z := (i * 2654435761 + 1013904223) mod 4294967296.
Definition V1 (i : Z) : Z := (i * 1664525 * (i + 7) + 12345) mod 4294967296.

Definition tables : Tables := {|
  primes_next := search_prime 200;
  half_next := search_half 40 0;
  systematic_index_table := fun _ => 0;
  random_R10 := spec_R10 V0 V1;
  degree_R10 := deg;
  gray_SEQUENCE := fun h_half j => if j <? 0 then None else gray_seq h_half !! Z.to_nat j;
  optimal_esi_get_esi := fun _ id => id
|}.

(** The same tables with an [H] search that finds nothing. *)
Definition tables_without_h : Tables := {|
  primes_next := search_prime 200;
  half_next := fun _ => None;
  systematic_index_table := fun _ => 0;
  random_R10 := spec_R10 V0 V1;
  degree_R10 := deg;
  gray_SEQUENCE := fun h_half j => if j <? 0 then None else gray_seq h_half !! Z.to_nat j;
  optimal_esi_get_esi := fun _ id => id
|}.

(** [pop] takes the element added first; the first edge added stands for
    the largest component. *)
Definition runtime : Runtime := {|
  set_pop := fun ones => hd 0%nat ones;
  largest_component_row := fun edges =>
    match edges with
    | [] => None
    | (_, _, row) :: _ => Some row
    end
|}.

(** The parameters that [set_params 4] derives on [tables]. *)
Definition params4 : Params :=
  {| p_k := 4; p_x := 4; p_s := 5; p_h := 5; p_h_prime := 3; p_l := 14;
     p_l_prime := Some 17; p_systematic_index := 0 |}.

(** An instance for [k = 4] that holds the payloads [payloads] under the
    identifiers [esis], one array each. *)
Definition instance (use_prepass : bool) (esis : list Z) : RaptorR10 :=
  {| r_params := params4; r_use_prepass := use_prepass; r_use_optimal_esis := false;
     r_current_id := 0; r_symbols := combine esis (seq 0 (length esis));
     r_i_symbols := None; r_xors := None |}.

Definition world (use_prepass : bool) (esis : list Z) (payloads : list ndarray) : World :=
  {| heap := payloads; self := instance use_prepass esis |}.

(** A store in which [i_symbols] holds fourteen one-word arrays. *)
Definition encoder_world : World :=
  {| heap := map (fun i => [Z.of_nat i + 1]) (seq 0 14);
     self := {| r_params := params4; r_use_prepass := true; r_use_optimal_esis := false;
                r_current_id := 5; r_symbols := [];
                r_i_symbols := Some (map Some (seq 0 14)); r_xors := Some 0%nat |} |}.

(** The matrix that [a()] assembles for the identifiers 0 to 3, the solver
    state at the start of phase I on it (after the prepass), and the state
    after the first turn of phase I, which finds [r = 2]. *)
Definition matrix4 : matrix :=
  Eval vm_compute in
    match @a tables params4 (r_symbols (instance true [0; 1; 2; 3])) tt with
    | Ok mx _ => mx
    | _ => []
    end.

Definition solver4 : Solver :=
  {| sv_a := matrix4; sv_o_degrees := []; sv_schedule := Schedule_new 0 0 |}.

Definition start4 : Solver :=
  Eval vm_compute in
    match (init_locals 14 14 ;;; prepass) solver4 with
    | Ok _ st => st
    | _ => solver4
    end.

Definition turn4 : option nat * Solver :=
  Eval vm_compute in
    match @phase1_body runtime 14 14 0 0 start4 with
    | Ok r st => (r, st)
    | _ => (None, start4)
    end.

(** The matrix for five received symbols (identifiers 0, 1, 2, 3 and 5,
    [m = 15]) and what [decoding_schedule] returns and leaves for it. *)
Definition matrix5 : matrix :=
  Eval vm_compute in
    match @a tables params4 (r_symbols (instance true [0; 1; 2; 3; 5])) tt with
    | Ok mx _ => mx
    | _ => []
    end.

Definition solved5 : Schedule * matrix :=
  Eval vm_compute in
    match @call_decoding_schedule runtime (instance true [0; 1; 2; 3; 5]) matrix5
            (world true [0; 1; 2; 3; 5] [[1]; [2]; [3]; [4]; [5]]) with
    | Ok r _ => r
    | _ => (Schedule_new 0 0, [])
    end.

End Example.

(** ** Specification predicates *)

(** The interface of section 6 that the code relies on. *)
Class TablesOk (T : Tables) : Prop := {
  primes_next_prime : forall x p, primes_next x = Some p -> Z.prime p /\ x <= p;
  half_next_nonneg : forall x h, half_next x = Some h -> 0 <= h;
  R10_reduced : forall Y i m, 0 < m -> 0 <= random_R10 Y i m < m;
  degree_in_range : forall v, 0 <= v < 1048576 -> 1 <= degree_R10 v <= 40
}.

(** What [set_params] establishes on tables that meet their interface. *)
Record params_ok (p : Params) : Prop := {
  ok_k : MIN_K <= p_k p <= MAX_K;
  ok_s : 2 <= p_s p;
  ok_h : 0 <= p_h p;
  ok_l : p_l p = p_k p + p_s p + p_h p;
  ok_l_prime : forall l', p_l_prime p = Some l' -> Z.prime l' /\ p_l p <= l'
}.

(** [hoare P m Q E]: from a store in [P], a run of [m] that returns [x] ends
    in a store in [Q x], and one that raises ends in a store in [E]. *)
Definition hoare {St A} (P : St -> Prop) (m : M St A)
    (Q : A -> St -> Prop) (E : St -> Prop) : Prop :=
  forall s, P s ->
    match m s with
    | Ok x s' => Q x s'
    | Raise _ s' => E s'
    | OutOfFuel => True
    end.

(** Operations that leave the store alone keep every property of it. *)
Definition inert {St A} (m : M St A) : Prop :=
  forall s, match m s with
            | Ok _ s' => s' = s
            | Raise _ s' => s' = s
            | OutOfFuel => True
            end.

(** [w] has the instance of [w0] and every array of [w0], unchanged. *)
Definition keeps_arrays (w0 w : World) : Prop :=
  self w = self w0 /\
  (length (heap w0) <= length (heap w))%nat /\
  forall a, (a < length (heap w0))%nat -> heap w !! a = heap w0 !! a.

(** What C10 says of a call from the store [w0] whose [i_symbols] is the
    list [isyms]: the array returned is none of [isyms], the list is the
    same afterwards and so are the words of every array in it. *)
Definition i_symbols_kept (w0 : World) (isyms : list (option addr)) (w : World) : Prop :=
  r_i_symbols (self w) = Some isyms /\
  forall i a, isyms !! i = Some (Some a) ->
              heap_read (heap w) a = heap_read (heap w0) a.

Definition not_an_i_symbol (isyms : list (option addr)) (r : addr) : Prop :=
  forall i, isyms !! i <> Some (Some r).

Definition encoder_keeps_i_symbols {T : Tables} (id : Z) (w0 : World) (isyms : list (option addr)) : Prop :=
  match ltenc id w0 with
  | Ok r w => not_an_i_symbol isyms r /\ i_symbols_kept w0 isyms w
  | Raise _ w => i_symbols_kept w0 isyms w
  | OutOfFuel => True
  end /\
  match next w0 with
  | Ok (_, r) w => not_an_i_symbol isyms r /\ i_symbols_kept w0 isyms w
  | Raise _ w => i_symbols_kept w0 isyms w
  | OutOfFuel => True
  end.

(** *** Symbols and the XOR of a row of symbols *)

(** XOR of two payloads, word by word. *)
Definition xor_sym (x y : ndarray) : ndarray := zip_with Z.lxor x y.

(** The XOR of the symbols [X] at the columns where [row] has a one, for
    payloads of [W] words. *)
Fixpoint row_dot (W : nat) (row : bitarray) (X : list ndarray) : ndarray :=
  match row, X with
  | b :: row', x :: X' => if b then xor_sym x (row_dot W row' X') else row_dot W row' X'
  | _, _ => replicate W 0
  end.

(** The arrays that the entries of [i_symbols] refer to. *)
Definition i_symbol_values (h : list ndarray) (isyms : list (option addr)) : list ndarray :=
  map (fun e => match e with Some a => heap_read h a | None => [] end) isyms.

(** *** The walk of [lt_row] and [ltenc] over the columns *)

(** The value of [b] after [t] steps [b = (b + a) % l_prime] from [b0]. *)
Definition orbit (a b0 l' : Z) (t : nat) : Z := (b0 + Z.of_nat t * a) mod l'.

(** The first step at or after [t], within [fuel] steps, at which [b < l]. *)
Fixpoint hit_after (a b0 l l' : Z) (fuel t : nat) : nat :=
  if orbit a b0 l' t <? l then t
  else match fuel with
       | O => t
       | S fuel' => hit_after a b0 l l' fuel' (S t)
       end.

(** The steps at which the [n] turns of the [for] loop mark a column, after
    a mark at step [t]. *)
Fixpoint walk_times (a b0 l l' : Z) (n t : nat) : list nat :=
  match n with
  | O => []
  | S n' =>
      let t' := hit_after a b0 l l' (Z.to_nat l') (S t) in
      t' :: walk_times a b0 l l' n' t'
  end.

(** The step of the last mark after [n] turns of the loop from a mark at [t]. *)
Fixpoint walk_end (a b0 l l' : Z) (n t : nat) : nat :=
  match n with
  | O => t
  | S n' => walk_end a b0 l l' n' (hit_after a b0 l l' (Z.to_nat l') (S t))
  end.

(** [ba[c] = True] for each column of [cols] in turn. *)
Definition mark_all (ba : bitarray) (cols : list nat) : bitarray :=
  foldl (fun ba c => <[c:=true]> ba) ba cols.

(** [i_symbols] is the list [isyms] of [L] references to arrays of [W]
    words that are in the heap: what [calculate_i_symbols] leaves. *)
Definition i_symbols_ready (W : nat) (w : World) (isyms : list (option addr)) : Prop :=
  r_i_symbols (self w) = Some isyms /\
  length isyms = Z.to_nat (p_l (r_params (self w))) /\
  forall c e, isyms !! c = Some e ->
    exists a, e = Some a /\ (a < length (heap w))%nat /\ length (heap_read (heap w) a) = W.

(** What C7 says of the identifier [esi] on the store [w]: [lt_row] returns
    a bit array of length [L] with [min(d, L)] ones, and [ltenc] returns a
    new array that holds the XOR of the intermediate symbols at the columns
    where that bit array has a one. *)
Definition lt_row_and_ltenc_agree {T : Tables}
    (W : nat) (w : World) (isyms : list (option addr)) (esi : Z) : Prop :=
  let p := r_params (self w) in
  exists d a b ba w',
    triple p esi tt = Ok (d, a, b) tt /\
    lt_row p esi tt = Ok ba tt /\
    length ba = Z.to_nat (p_l p) /\
    Z.of_nat (count ba) = Z.min d (p_l p) /\
    ltenc esi w = Ok (length (heap w)) w' /\
    heap_read (heap w') (length (heap w)) = row_dot W ba (i_symbol_values (heap w) isyms).

(** * Properties *)

(** ** The monad *)

Lemma bind_Ok {St A B} (m : M St A) (k : A -> M St B) s y s' :
  bind m k s = Ok y s' <-> exists x s1, m s = Ok x s1 /\ k x s1 = Ok y s'.
Proof.
  unfold bind. destruct (m s) as [x s1| |]; split; try (intros [? [? [? ?]]]); try discriminate; eauto.
  congruence.
Qed.

Lemma bind_Ok_l {St A B} (m : M St A) (k : A -> M St B) s x s1 :
  m s = Ok x s1 -> bind m k s = k x s1.
Proof. unfold bind. now intros ->. Qed.

Lemma bind_Raise_l {St A B} (m : M St A) (k : A -> M St B) s e s1 :
  m s = Raise e s1 -> bind m k s = Raise e s1.
Proof. unfold bind. now intros ->. Qed.

Lemma lift_Ok {St A} (m : M unit A) (s s' : St) x :
  lift m s = Ok x s' <-> m tt = Ok x tt /\ s' = s.
Proof.
  unfold lift. destruct (m tt) as [y []|e []|]; split; intros H; try discriminate.
  - inversion H; subst. auto.
  - destruct H as [H ->]. inversion H; subst. reflexivity.
  - destruct H; discriminate.
  - destruct H; discriminate.
Qed.

Lemma ret_Ok {St A} (v x : A) (s s' : St) : ret v s = Ok x s' -> x = v /\ s' = s.
Proof. intros H. inversion H. auto. Qed.

Lemma get_Ok {St} (x s s' : St) : get s = Ok x s' -> x = s /\ s' = s.
Proof. intros H. inversion H. auto. Qed.

Lemma put_Ok {St} (s1 s s' : St) x : put s1 s = Ok x s' -> s' = s1.
Proof. intros H. inversion H. auto. Qed.

Lemma modify_Ok {St} (f : St -> St) (s s' : St) x : modify f s = Ok x s' -> s' = f s.
Proof. intros H. inversion H. auto. Qed.

(** Inversion of a run that returned: splits binds, and the primitive
    operations that are left. The store the run started from keeps its
    name. *)
Ltac subst_or_keep v := first [subst v | idtac].
Ltac subst_or_clear v E := first [subst v | clear E | idtac].

Ltac inv_ok :=
  repeat match goal with
  | H : bind _ _ _ = Ok _ _ |- _ =>
      apply bind_Ok in H; destruct H as (? & ? & ? & H)
  | H : ret _ _ = Ok ?x ?s' |- _ =>
      let E1 := fresh "E" in let E2 := fresh "E" in
      apply ret_Ok in H as [E1 E2]; subst_or_clear s' E2; subst_or_keep x
  | H : get _ = Ok ?x ?s' |- _ =>
      let E1 := fresh "E" in let E2 := fresh "E" in
      apply get_Ok in H as [E1 E2]; subst_or_clear s' E2; subst_or_clear x E1
  | H : put _ _ = Ok _ ?s' |- _ => apply put_Ok in H; subst_or_keep s'
  | H : modify _ _ = Ok _ ?s' |- _ => apply modify_Ok in H; subst_or_keep s'
  | H : raise _ _ = Ok _ _ |- _ => discriminate H
  | H : lookup_or _ ?o _ = Ok _ _ |- _ =>
      let E := fresh "E" in
      destruct o eqn:E; [inversion H; subst; clear H | discriminate H]
  | H : lift _ _ = Ok _ _ |- _ => apply lift_Ok in H; destruct H as [H ->]
  end.

(** ** Parameters and the triple *)


Lemma prime_ge_2' p : Z.prime p -> 2 <= p.
Proof. intros H. apply Z.prime_ge_2 in H. lia. Qed.

Section ParamFacts.
Context {T : Tables} {HT : TablesOk T}.

Lemma set_params_ok k p :
  set_params k tt = Ok p tt -> params_ok p.
Proof.
  unfold set_params.
  destruct ((k <? MIN_K) || (k >? MAX_K)) eqn:Ek; [discriminate|].
  destruct (primes_next (ceil_hundredth k + quadratic_x k)) as [s|] eqn:Es; cbn [py_not];
    [|discriminate].
  destruct (s =? 0) eqn:Es0; [discriminate|]. cbn.
  destruct (half_next (k + s)) as [h|] eqn:Eh; cbn; [|discriminate].
  intros H; inversion H; subst; clear H.
  apply primes_next_prime in Es as [Hs _]. apply prime_ge_2' in Hs.
  apply half_next_nonneg in Eh.
  unfold MIN_K, MAX_K in *.
  constructor; cbn; unfold MIN_K, MAX_K; try lia.
  intros l' Hl'. now apply primes_next_prime in Hl'.
Qed.

(** C8. On tables that meet their interface, for the parameters that
    [set_params k] derives (so [4 <= k <= 8192]), with [L'] the derived
    prime, and for every [id >= 0]: [triple id] returns [(d, a, b)] with
    [d] in [1, 40], [a] in [1, L' - 1] and [b] in [0, L' - 1]. *)
Theorem triple_range k p l' id :
  set_params k tt = Ok p tt -> p_l_prime p = Some l' -> 0 <= id ->
  exists d a b,
    triple p id tt = Ok (d, a, b) tt /\
    1 <= d <= 40 /\ 1 <= a <= l' - 1 /\ 0 <= b <= l' - 1.
Proof.
  intros Hp Hl' _. apply set_params_ok in Hp.
  destruct (ok_l_prime p Hp l' Hl') as [Hprime _]. apply prime_ge_2' in Hprime.
  unfold triple. rewrite Hl'. cbn.
  eexists _, _, _. split; [reflexivity|].
  match goal with |- context [random_R10 ?y 0 _] => set (Y := y) end.
  pose proof (R10_reduced Y 0 1048576 ltac:(lia)).
  pose proof (R10_reduced Y 1 (l' - 1) ltac:(lia)).
  pose proof (R10_reduced Y 2 l' ltac:(lia)).
  split; [apply degree_in_range; lia | lia].
Qed.

(** The triple of valid parameters, in the form the later proofs use. *)
Lemma triple_ok p l' id :
  params_ok p -> p_l_prime p = Some l' ->
  exists d a b,
    triple p id tt = Ok (d, a, b) tt /\
    1 <= d <= 40 /\ 1 <= a <= l' - 1 /\ 0 <= b <= l' - 1.
Proof.
  intros Hp Hl'.
  destruct (ok_l_prime p Hp l' Hl') as [Hprime _]. apply prime_ge_2' in Hprime.
  unfold triple. rewrite Hl'. cbn.
  eexists _, _, _. split; [reflexivity|].
  match goal with |- context [random_R10 ?y 0 _] => set (Y := y) end.
  pose proof (R10_reduced Y 0 1048576 ltac:(lia)).
  pose proof (R10_reduced Y 1 (l' - 1) ltac:(lia)).
  pose proof (R10_reduced Y 2 l' ltac:(lia)).
  split; [apply degree_in_range; lia | lia].
Qed.
End ParamFacts.

Section SetParamsH.
Context {T : Tables}.

(** C9, as the code has it. When [k] is in range, the [S] search succeeds
    and the [H] search returns nothing, [set_params] does not raise the
    parameter exception: the exception object is built and dropped, and the
    next statement divides [None] by [2.0], a [TypeError]. *)
Theorem set_params_h_not_found k s :
  MIN_K <= k <= MAX_K ->
  primes_next (ceil_hundredth k + quadratic_x k) = Some s -> s <> 0 ->
  half_next (k + s) = None ->
  set_params k tt = Raise TypeError tt.
Proof.
  intros Hk Hs Hs0 Hh. unfold set_params, MIN_K, MAX_K in *.
  replace ((k <? 4) || (k >? 8192)) with false by lia.
  rewrite Hs. cbn [py_not].
  replace (s =? 0) with false by lia.
  cbn. rewrite Hh. reflexivity.
Qed.
End SetParamsH.

(** The example tables meet their interface. *)
Module ExampleFacts.
Import Example.

Lemma is_prime_b_prime n : is_prime_b n = true -> Z.prime n.
Proof.
  unfold is_prime_b. intros H. apply andb_prop in H as [H2 Hall].
  apply Z.leb_le in H2. split; [lia|].
  intros d Hd Hdiv.
  rewrite forallb_forall in Hall.
  specialize (Hall d). rewrite in_map_iff in Hall.
  assert (negb (n mod d =? 0) = true) as Hn.
  { apply Hall. exists (Z.to_nat d). split; [lia|]. apply in_seq. lia. }
  apply Z.mod_divide in Hdiv; [|lia]. rewrite Hdiv in Hn. discriminate.
Qed.

Lemma search_prime_prime fuel x p : search_prime fuel x = Some p -> Z.prime p /\ x <= p.
Proof.
  revert x. induction fuel as [|fuel IH]; intros x; cbn; [discriminate|].
  destruct (is_prime_b x) eqn:E.
  - intros H. inversion H; subst. split; [now apply is_prime_b_prime | lia].
  - intros H. apply IH in H. split; [tauto | lia].
Qed.

Lemma search_half_nonneg fuel h x r : search_half fuel h x = Some r -> 0 <= r.
Proof.
  revert h. induction fuel as [|fuel IH]; intros h; cbn [search_half]; [discriminate|].
  destruct (x <=? choose h (Nat.div (h + 1) 2)).
  - intros H. inversion H. lia.
  - apply IH.
Qed.

Lemma deg_range v : 1 <= deg v <= 40.
Proof. unfold deg. repeat (destruct (_ <? _)); lia. Qed.

#[export] Instance tables_ok : TablesOk tables.
Proof.
  constructor.
  - exact (search_prime_prime 200).
  - exact (search_half_nonneg 40 0).
  - intros Y i m Hm. exact (Z.mod_pos_bound _ m Hm).
  - intros v _. exact (deg_range v).
Qed.

Lemma set_params_4 : @set_params tables 4 tt = Ok params4 tt.
Proof. vm_compute. reflexivity. Qed.

Lemma params4_ok : params_ok params4.
Proof. exact (set_params_ok 4 params4 set_params_4). Qed.
End ExampleFacts.

Lemma triple_range_witness :
  exists d a b,
    @triple Example.tables Example.params4 7 tt = Ok (d, a, b) tt /\
    1 <= d <= 40 /\ 1 <= a <= 17 - 1 /\ 0 <= b <= 17 - 1.
Proof.
  apply (@triple_range Example.tables ExampleFacts.tables_ok 4 Example.params4 17 7).
  - vm_compute. reflexivity.
  - reflexivity.
  - lia.
Defined.

Lemma set_params_h_not_found_witness :
  @set_params Example.tables_without_h 4 tt = Raise TypeError tt.
Proof.
  apply (@set_params_h_not_found Example.tables_without_h 4 5).
  - unfold MIN_K, MAX_K. lia.
  - vm_compute. reflexivity.
  - lia.
  - reflexivity.
Defined.

(** ** A program logic for [M] *)


Lemma hoare_ret {St A} (P : St -> Prop) (Q : A -> St -> Prop) E x :
  (forall s, P s -> Q x s) -> hoare P (ret x) Q E.
Proof. intros H s Hs. cbn. auto. Qed.

Lemma hoare_raise {St A} (P : St -> Prop) (Q : A -> St -> Prop) (E : St -> Prop) e :
  (forall s, P s -> E s) -> hoare P (raise e) Q E.
Proof. intros H s Hs. cbn. auto. Qed.

Lemma hoare_bind {St A B} (P : St -> Prop) (m : M St A) (k : A -> M St B)
    (Q1 : A -> St -> Prop) (Q : B -> St -> Prop) E :
  hoare P m Q1 E -> (forall x, hoare (Q1 x) (k x) Q E) -> hoare P (bind m k) Q E.
Proof.
  intros Hm Hk s Hs. unfold bind. specialize (Hm s Hs).
  destruct (m s) as [x s1|e s1|]; auto. now apply Hk.
Qed.

Lemma hoare_conseq {St A} (P P' : St -> Prop) (m : M St A)
    (Q Q' : A -> St -> Prop) (E E' : St -> Prop) :
  hoare P' m Q' E' ->
  (forall s, P s -> P' s) -> (forall x s, Q' x s -> Q x s) -> (forall s, E' s -> E s) ->
  hoare P m Q E.
Proof.
  intros H HP HQ HE s Hs. specialize (H s (HP s Hs)).
  destruct (m s); auto.
Qed.

Lemma hoare_get {St} (P : St -> Prop) E : hoare P get (fun x s => x = s /\ P s) E.
Proof. intros s Hs. cbn. auto. Qed.

Lemma hoare_lookup_or {St A} (P : St -> Prop) e (o : option A) :
  hoare P (lookup_or e o) (fun x s => o = Some x /\ P s) P.
Proof. intros s Hs. destruct o; cbn; auto. Qed.

(** A loop with local variables keeps an invariant that the body keeps. *)
Lemma hoare_fold_for {St X B} (I : B -> St -> Prop) (E : St -> Prop)
    (xs : list X) (body : X -> B -> M St B) :
  (forall x acc, x ∈ xs -> hoare (I acc) (body x acc) I E) ->
  forall acc, hoare (I acc) (fold_for xs body acc) I E.
Proof.
  induction xs as [|x xs IH]; intros Hb acc; cbn [fold_for].
  - apply hoare_ret. auto.
  - eapply hoare_bind.
    + apply Hb. constructor.
    + intros acc'. apply IH. intros y acc'' Hy. apply Hb. now constructor.
Qed.

Lemma hoare_for_each {St X} (I : St -> Prop) (E : St -> Prop)
    (xs : list X) (body : X -> M St unit) :
  (forall x, x ∈ xs -> hoare I (body x) (fun _ => I) E) ->
  hoare I (for_each xs body) (fun _ => I) E.
Proof.
  induction xs as [|x xs IH]; intros Hb; cbn [for_each].
  - apply hoare_ret. auto.
  - eapply hoare_bind.
    + apply Hb. constructor.
    + intros ?. apply IH. intros y Hy. apply Hb. now constructor.
Qed.

(** A [for] loop whose invariant names the elements done so far. *)
Lemma hoare_for_each_prefix {St X} (I : list X -> St -> Prop) (E : St -> Prop)
    (xs : list X) (body : X -> M St unit) :
  (forall done x rest, xs = done ++ x :: rest ->
     hoare (I done) (body x) (fun _ => I (done ++ [x])) E) ->
  hoare (I []) (for_each xs body) (fun _ => I xs) E.
Proof.
  intros Hb.
  assert (forall rest done, xs = done ++ rest ->
            hoare (I done) (for_each rest body) (fun _ => I xs) E) as H.
  { induction rest as [|x rest IH]; intros done Hxs; cbn [for_each].
    - apply hoare_ret. rewrite app_nil_r in Hxs. now subst.
    - eapply hoare_bind.
      + now apply (Hb done x rest).
      + intros ?. apply IH. rewrite <- app_assoc. exact Hxs. }
  now apply (H xs []).
Qed.


Lemma inert_hoare {St A} (m : M St A) (P : St -> Prop) :
  inert m -> hoare P m (fun _ => P) P.
Proof. intros H s Hs. specialize (H s). destruct (m s); subst; auto. Qed.

Lemma hoare_bind_inert {St A B} (P : St -> Prop) (m : M St A) (k : A -> M St B)
    (Q : B -> St -> Prop) (E : St -> Prop) :
  inert m -> (forall s, P s -> E s) -> (forall x, hoare P (k x) Q E) ->
  hoare P (bind m k) Q E.
Proof.
  intros Hm HE Hk s Hs. unfold bind. specialize (Hm s).
  destruct (m s) as [x s1|e s1|]; subst; auto. now apply Hk.
Qed.

Lemma hoare_bind_get {St B} (P : St -> Prop) (k : St -> M St B)
    (Q : B -> St -> Prop) (E : St -> Prop) :
  (forall s, P s -> hoare (fun s' => s' = s) (k s) Q E) -> hoare P (bind get k) Q E.
Proof. intros H s Hs. unfold bind, get. exact (H s Hs s eq_refl). Qed.

Lemma inert_ret {St A} (x : A) : inert (St := St) (ret x).
Proof. intros s. reflexivity. Qed.

Lemma inert_raise {St A} e : inert (St := St) (A := A) (raise e).
Proof. intros s. reflexivity. Qed.

Lemma inert_get {St} : inert (St := St) get.
Proof. intros s. reflexivity. Qed.

Lemma inert_bind {St A B} (m : M St A) (k : A -> M St B) :
  inert m -> (forall x, inert (k x)) -> inert (bind m k).
Proof.
  intros Hm Hk s. unfold bind. specialize (Hm s).
  destruct (m s) as [x s1|e s1|]; subst; auto. apply Hk.
Qed.

Lemma inert_lookup_or {St A} e (o : option A) : inert (St := St) (lookup_or e o).
Proof. destruct o; intros s; reflexivity. Qed.

Lemma inert_lift {St A} (m : M unit A) : inert (St := St) (lift m).
Proof. intros s. unfold lift. destruct (m tt); reflexivity. Qed.

Lemma inert_py_mod {St} x m : inert (St := St) (py_mod x m).
Proof. unfold py_mod. destruct (m =? 0); intros s; reflexivity. Qed.

Lemma inert_getitem {St A} (xs : list A) z : inert (St := St) (getitem xs z).
Proof. unfold getitem. destruct (py_index _ _); [apply inert_lookup_or | apply inert_raise]. Qed.

Lemma inert_setitem {St A} (xs : list A) z v : inert (St := St) (setitem xs z v).
Proof. unfold setitem. destruct (py_index _ _); [apply inert_ret | apply inert_raise]. Qed.

Lemma inert_skip_past_l {St} fuel l l' a b : inert (St := St) (skip_past_l fuel l l' a b).
Proof.
  revert b. induction fuel as [|fuel IH]; intros b; cbn [skip_past_l].
  - destruct (b >=? l); intros s; cbn; auto.
  - destruct (b >=? l); [|apply inert_ret].
    apply inert_bind; [apply inert_py_mod | intros b'; apply IH].
Qed.

Create HintDb inert.
#[local] Hint Resolve inert_ret inert_raise inert_get inert_lookup_or inert_lift
  inert_py_mod inert_getitem inert_setitem inert_skip_past_l : inert.

(** ** [calculate_i_symbols] with too few symbols *)

Section TooFew.
Context {T : Tables} {R : Runtime}.

(** C4, as the code has it. With fewer than [k] symbols the first statement
    of [calculate_i_symbols] raises, and what it raises is the [NameError]
    for the misspelt class name, not the decoding schedule exception; the
    store is untouched. *)
Theorem calculate_i_symbols_too_few w :
  Z.of_nat (length (r_symbols (self w))) < p_k (r_params (self w)) ->
  calculate_i_symbols w
  = Raise (NameError "RaptorR10DecodingScheduleExceptionException") w.
Proof.
  intros H. unfold calculate_i_symbols. cbn.
  replace (_ <? _) with true by lia. reflexivity.
Qed.
End TooFew.

Lemma calculate_i_symbols_too_few_witness :
  @calculate_i_symbols Example.tables Example.runtime
    (Example.world true [0; 1; 2] [[1]; [2]; [3]])
  = Raise (NameError "RaptorR10DecodingScheduleExceptionException")
      (Example.world true [0; 1; 2] [[1]; [2]; [3]]).
Proof.
  apply (@calculate_i_symbols_too_few Example.tables Example.runtime). cbn. lia.
Defined.

(** ** The encoder leaves the intermediate symbols alone *)


Lemma keeps_arrays_refl w : keeps_arrays w w.
Proof. repeat split; auto. Qed.

Lemma keeps_arrays_read w0 w a :
  keeps_arrays w0 w -> (a < length (heap w0))%nat ->
  heap_read (heap w) a = heap_read (heap w0) a.
Proof. intros (_ & _ & H) Ha. unfold heap_read. now rewrite H. Qed.

Section EncoderFrame.
Context {T : Tables}.

Lemma inert_i_symbol b : inert (i_symbol b).
Proof.
  unfold i_symbol. apply inert_bind; [apply inert_get|]. intros w.
  apply inert_bind; [apply inert_lookup_or|]. intros isyms.
  apply inert_bind; [apply inert_getitem|]. intros e. apply inert_lookup_or.
Qed.

Lemma hoare_xor_into_fresh w0 src :
  hoare (keeps_arrays w0) (xor_arrays src (length (heap w0)))
    (fun _ => keeps_arrays w0) (keeps_arrays w0).
Proof.
  intros w (Hs & Hl & Hk). unfold xor_arrays.
  destruct (Nat.eqb _ _); cbn; [|repeat split; auto].
  repeat split; cbn; auto.
  - rewrite length_insert. lia.
  - intros a Ha. rewrite list_lookup_insert_ne by lia. auto.
Qed.

(** [ltenc] returns the address after the last array of the store it was
    called on, and keeps the instance and every array of that store, also
    when it raises. *)
Lemma ltenc_frame id w0 :
  hoare (fun w => w = w0) (ltenc id)
    (fun r w => r = length (heap w0) /\ keeps_arrays w0 w) (keeps_arrays w0).
Proof.
  assert (forall s, s = w0 -> keeps_arrays w0 s) as Hrefl
    by (intros ? ->; apply keeps_arrays_refl).
  unfold ltenc.
  apply hoare_bind_get. intros w1 ->.
  apply hoare_bind_inert; [apply inert_lift | exact Hrefl |]. intros [[d a] b].
  apply hoare_bind_inert; [apply inert_lookup_or | exact Hrefl |]. intros l'.
  apply hoare_bind_inert; [apply inert_skip_past_l | exact Hrefl |]. intros b1.
  apply hoare_bind_inert; [apply inert_i_symbol | exact Hrefl |]. intros src.
  apply hoare_bind_get. intros w2 ->.
  apply hoare_bind with (Q1 := fun r w => r = length (heap w0) /\ keeps_arrays w0 w).
  { intros w ->. cbn. split; [reflexivity|].
    repeat split; cbn; auto.
    - rewrite length_app. lia.
    - intros a0 Ha0. now rewrite lookup_app_l. }
  intros result.
  apply hoare_bind with (Q1 := fun _ w => result = length (heap w0) /\ keeps_arrays w0 w).
  { apply (hoare_fold_for (fun _ w => result = length (heap w0) /\ keeps_arrays w0 w)).
    intros j b2 _.
    apply hoare_bind_inert; [apply inert_py_mod | tauto |]. intros b3.
    apply hoare_bind_inert; [apply inert_skip_past_l | tauto |]. intros b4.
    apply hoare_bind_inert; [apply inert_i_symbol | tauto |]. intros src2.
    apply hoare_bind with (Q1 := fun _ w => result = length (heap w0) /\ keeps_arrays w0 w).
    - intros w [-> Hw]. pose proof (hoare_xor_into_fresh w0 src2 w Hw) as H.
      destruct (xor_arrays _ _ w); auto.
    - intros ?. apply hoare_ret. auto. }
  intros ?. apply hoare_ret. auto.
Qed.

Lemma next_frame w0 :
  hoare (fun w => w = w0) next
    (fun r w => snd r = length (heap w0) /\
                r_i_symbols (self w) = r_i_symbols (self w0) /\
                forall a, (a < length (heap w0))%nat -> heap w !! a = heap w0 !! a)
    (fun w => r_i_symbols (self w) = r_i_symbols (self w0) /\
              forall a, (a < length (heap w0))%nat -> heap w !! a = heap w0 !! a).
Proof.
  intros w ->. unfold next, bind. cbn [get_next_id].
  match goal with |- context [ltenc ?i ?w1] =>
    pose proof (ltenc_frame i w1 w1 eq_refl) as H; destruct (ltenc i w1) as [r w2|e w2|] end; auto.
  - destruct H as [-> (Hs & _ & Hk)]. cbn in *. rewrite Hs. cbn. auto.
  - destruct H as (Hs & _ & Hk). cbn in *. rewrite Hs. cbn. auto.
Qed.

(** C10. Once [i_symbols] holds its arrays, a call of [ltenc id], and a
    call of [next()], returns an array that is none of them (a new one),
    and leaves the list [i_symbols] and the words of every array in it as
    they were; the same holds when the call raises. *)
Theorem ltenc_keeps_i_symbols id w0 isyms :
  r_i_symbols (self w0) = Some isyms ->
  (forall i a, isyms !! i = Some (Some a) -> (a < length (heap w0))%nat) ->
  encoder_keeps_i_symbols id w0 isyms.
Proof.
  intros Hi Ha. unfold encoder_keeps_i_symbols, i_symbols_kept, not_an_i_symbol. split.
  - pose proof (ltenc_frame id w0 w0 eq_refl) as H.
    destruct (ltenc id w0) as [r w|e w|]; auto.
    + destruct H as [-> Hk]. split.
      * intros i Hr. apply Ha in Hr. lia.
      * split; [destruct Hk as [-> _]; exact Hi|].
        intros i a0 Hia. eapply keeps_arrays_read; eauto.
    + split; [destruct H as [-> _]; exact Hi|].
      intros i a0 Hia. eapply keeps_arrays_read; eauto.
  - pose proof (next_frame w0 w0 eq_refl) as H.
    destruct (next w0) as [[sid r] w|e w|]; auto.
    + cbn in H. destruct H as (-> & Hs & Hk). split.
      * intros i Hr. apply Ha in Hr. lia.
      * split; [congruence|].
        intros i a0 Hia. unfold heap_read. rewrite Hk; eauto.
    + destruct H as (Hs & Hk). split; [congruence|].
      intros i a0 Hia. unfold heap_read. rewrite Hk; eauto.
Qed.
End EncoderFrame.

Lemma ltenc_keeps_i_symbols_witness :
  @encoder_keeps_i_symbols Example.tables 5 Example.encoder_world (map Some (seq 0 14)).
Proof.
  apply (@ltenc_keeps_i_symbols Example.tables 5 Example.encoder_world (map Some (seq 0 14))).
  - reflexivity.
  - intros i a H. apply list_lookup_fmap_Some in H as (x & Hs & Hx).
    inversion Hs; subst. apply lookup_seq in Hx. cbn. lia.
Defined.

(** ** The walk over the columns *)

Lemma setitem_in_range {St A} (xs : list A) (z : Z) (v : A) (s : St) :
  0 <= z < Z.of_nat (length xs) ->
  setitem xs z v s = Ok (<[Z.to_nat z := v]> xs) s.
Proof.
  intros Hz. unfold setitem, py_index.
  replace ((0 <=? z) && (z <? Z.of_nat (length xs))) with true by lia. reflexivity.
Qed.

Lemma length_filter_fmap {A B} (f : A -> B) (P : B -> Prop) `{forall x, Decision (P x)}
  (xs : list A) :
length (filter (fun x => P (f x)) xs) = length (filter P (f <$> xs)).
Proof.
  induction xs as [|x xs IH]; [reflexivity|].
  cbn [fmap list_fmap]. rewrite !filter_cons. destruct (decide (P (f x))); cbn; lia.
Qed.

Lemma length_filter_Forall {A} (P : A -> Prop) `{forall x, Decision (P x)} (xs : list A) :
Forall P xs -> length (filter P xs) = length xs.
Proof.
  induction 1 as [|x xs Hx _ IH]; [reflexivity|].
  rewrite filter_cons_True by assumption. cbn. now rewrite IH.
Qed.

Lemma length_filter_Forall_not {A} (P : A -> Prop) `{forall x, Decision (P x)} (xs : list A) :
Forall (fun x => ~ P x) xs -> length (filter P xs) = 0%nat.
Proof.
  induction 1 as [|x xs Hx _ IH]; [reflexivity|].
  now rewrite filter_cons_False by assumption.
Qed.

Section Orbit.
Variables a b0 l l' : Z.
Hypothesis Hprime : Z.prime l'.
Hypothesis Ha : 1 <= a <= l' - 1.
Hypothesis Hl : 0 < l <= l'.
#[local] Set Default Proof Using "Hprime Ha Hl".

Abbreviation orb := (orbit a b0 l').
Abbreviation period := (Z.to_nat l').

Lemma orbit_range t : 0 <= orb t < l'.
Proof. unfold orbit. apply Z.mod_pos_bound. lia. Qed.

Lemma orbit_succ t : (orb t + a) mod l' = orb (S t).
Proof.
  unfold orbit. rewrite Zplus_mod_idemp_l. f_equal. lia.
Qed.

Lemma orbit_inj t1 t2 :
(t1 < t2)%nat -> (t2 - t1 < period)%nat -> orb t1 <> orb t2.
Proof.
  intros Hlt Hper Heq. unfold orbit in Heq.
  assert ((Z.of_nat (t2 - t1) * a) mod l' = 0) as H0.
  { replace (Z.of_nat (t2 - t1) * a)
      with ((b0 + Z.of_nat t2 * a) - (b0 + Z.of_nat t1 * a)) by lia.
    rewrite Zminus_mod, Heq, Z.sub_diag. apply Z.mod_0_l. lia. }
  apply Z.mod_divide in H0; [|lia].
  apply Z.divide_prime_mul in H0 as [H0|H0]; [| |exact Hprime].
  - apply Z.divide_pos_le in H0; lia.
  - apply Z.divide_pos_le in H0; lia.
Qed.

Lemma orbit_window_NoDup t n : (n <= period)%nat -> NoDup (orb <$> seq t n).
Proof.
  intros Hn. apply NoDup_fmap_2_strong; [|apply NoDup_seq].
  intros x y Hx%elem_of_seq Hy%elem_of_seq Heq.
  destruct (Nat.lt_trichotomy x y) as [H|[H|H]]; [|exact H|].
  - exfalso. apply (orbit_inj x y); auto. lia.
  - exfalso. apply (orbit_inj y x); auto. lia.
Qed.

Lemma orbit_window_perm t : orb <$> seq t period ≡ₚ seqZ 0 l'.
Proof.
  apply submseteq_length_Permutation.
  - apply NoDup_submseteq; [now apply orbit_window_NoDup|].
    intros x (y & -> & _)%list_elem_of_fmap. apply elem_of_seqZ.
    pose proof (orbit_range y). lia.
  - rewrite length_seqZ, length_fmap, length_seq. lia.
Qed.




(** One period of the walk meets each of the [l] columns once. *)
Lemma hits_in_period t :
length (filter (fun t' => orb t' < l) (seq t period)) = Z.to_nat l.
Proof.
  pose proof (length_filter_fmap orb (fun z => z < l) (seq t period)) as H.
  cbn beta in H. rewrite H. clear H.
  rewrite (orbit_window_perm t).
  replace l' with (l + (l' - l)) by lia.
  rewrite seqZ_app by lia. rewrite filter_app, length_app.
  rewrite length_filter_Forall, length_filter_Forall_not.
  - rewrite length_seqZ. lia.
  - apply Forall_seqZ. intros. lia.
  - apply Forall_seqZ. intros. lia.
Qed.

Lemma hit_exists t : exists j, (j < period)%nat /\ orb (t + j) < l.
Proof.
  destruct (decide (Exists (fun t' => orb t' < l) (seq t period))) as [H|H].
  - apply Exists_exists in H as (t' & Ht'%elem_of_seq & Hhit).
    exists (t' - t)%nat. split; [lia|]. now replace (t + (t' - t))%nat with t' by lia.
  - apply not_Exists_Forall in H; [|intros x; apply _].
    pose proof (hits_in_period t) as Hp.
    rewrite length_filter_Forall_not in Hp by exact H. lia.
Qed.

Lemma hit_after_spec fuel t :
  (exists j, (j <= fuel)%nat /\ orb (t + j) < l) ->
  orb (hit_after a b0 l l' fuel t) < l /\
  (t <= hit_after a b0 l l' fuel t)%nat /\
  forall t'', (t <= t'' < hit_after a b0 l l' fuel t)%nat -> l <= orb t''.
Proof.
  revert t. induction fuel as [|fuel IH]; intros t (j & Hj & Hhit); cbn [hit_after].
  - replace (t + j)%nat with t in Hhit by lia.
    replace (orb t <? l) with true by lia. repeat split; [lia..|]. intros; lia.
  - destruct (orb t <? l) eqn:E.
    + repeat split; [lia..|]. intros; lia.
    + destruct j as [|j]; [replace (t + 0)%nat with t in Hhit by lia; lia|].
      destruct (IH (S t)) as (H1 & H2 & H3).
      { exists j. split; [lia|]. now replace (S t + j)%nat with (t + S j)%nat by lia. }
      repeat split; [exact H1 | lia |].
      intros t'' Ht''. destruct (decide (t'' = t)) as [->|]; [lia|]. apply H3. lia.
Qed.

Lemma skip_past_l_spec {St} fuel t (s : St) :
  orb (hit_after a b0 l l' fuel t) < l ->
  skip_past_l fuel l l' a (orb t) s = Ok (orb (hit_after a b0 l l' fuel t)) s.
Proof.
  revert t. induction fuel as [|fuel IH]; intros t Hhit; cbn [hit_after skip_past_l] in *.
  - destruct (orb t <? l) eqn:E.
    + replace (orb t >=? l) with false by lia. reflexivity.
    + lia.
  - destruct (orb t <? l) eqn:E.
    + replace (orb t >=? l) with false by lia. reflexivity.
    + replace (orb t >=? l) with true by lia.
      unfold bind, py_mod. replace (l' =? 0) with false by lia. cbn.
      rewrite orbit_succ. now apply IH.
Qed.

Abbreviation next_hit := (fun t => hit_after a b0 l l' period (S t)).

Lemma next_hit_spec t :
  orb (next_hit t) < l /\ (S t <= next_hit t)%nat /\
  forall t'', (S t <= t'' < next_hit t)%nat -> l <= orb t''.
Proof.
  apply hit_after_spec. destruct (hit_exists (S t)) as (j & Hj & Hhit).
  exists j. split; [lia | exact Hhit].
Qed.

Lemma walk_end_ge n t : (t <= walk_end a b0 l l' n t)%nat.
Proof.
  revert t. induction n as [|n IH]; intros t; cbn [walk_end]; [lia|].
  pose proof (IH (next_hit t)). pose proof (next_hit_spec t). lia.
Qed.

Lemma walk_end_hit n t : orb t < l -> orb (walk_end a b0 l l' n t) < l.
Proof.
  revert t. induction n as [|n IH]; intros t Ht; cbn [walk_end]; [exact Ht|].
  apply IH. apply next_hit_spec.
Qed.

(** The marks of the loop are all the steps with [b < l], in order. *)
Lemma walk_times_filter n t :
  filter (fun t' => orb t' < l) (seq (S t) (walk_end a b0 l l' n t - t))
  = walk_times a b0 l l' n t.
Proof.
  revert t. induction n as [|n IH]; intros t; cbn [walk_end walk_times].
  - now replace (t - t)%nat with 0%nat by lia.
  - destruct (next_hit_spec t) as (Hhit & Hge & Hgap).
    pose proof (walk_end_ge n (next_hit t)) as Hend.
    replace (walk_end a b0 l l' n (next_hit t) - t)%nat
      with ((next_hit t - S t) + (1 + (walk_end a b0 l l' n (next_hit t) - next_hit t)))%nat
      by lia.
    rewrite seq_app, filter_app.
    replace (filter _ (seq (S t) (next_hit t - S t))) with (@nil nat).
    2:{ symmetry. apply length_zero_iff_nil. apply length_filter_Forall_not.
        apply Forall_forall. intros x Hx%elem_of_seq. specialize (Hgap x). lia. }
    cbn [app].
    replace (S t + (next_hit t - S t))%nat with (next_hit t) by lia.
    cbn [Nat.add seq]. rewrite filter_cons_True by exact Hhit. f_equal. apply IH.
Qed.

Lemma length_walk_times n t : length (walk_times a b0 l l' n t) = n.
Proof. revert t. induction n as [|n IH]; intros t; cbn; [reflexivity | now rewrite IH]. Qed.

Lemma walk_times_range n t t' :
  t' ∈ walk_times a b0 l l' n t -> (S t <= t' <= walk_end a b0 l l' n t)%nat /\ orb t' < l.
Proof.
  rewrite <- walk_times_filter. intros [Hhit Hin%elem_of_seq]%list_elem_of_filter.
  split; [lia | exact Hhit].
Qed.

(** As long as no more than [l] columns are marked, the walk stays within one
    period. *)
Lemma walk_within_period n t :
  orb t < l -> (S n <= Z.to_nat l)%nat -> (walk_end a b0 l l' n t - t < period)%nat.
Proof.
  intros Ht Hn. destruct (decide (walk_end a b0 l l' n t - t < period)%nat) as [|Hlong]; [assumption|].
  exfalso.
  pose proof (walk_times_filter n t) as Hf.
  apply (f_equal length) in Hf. rewrite length_walk_times in Hf.
  assert (orb (walk_end a b0 l l' n t) < l) as Hlast by now apply walk_end_hit.
  replace (walk_end a b0 l l' n t - t)%nat
    with (period + (walk_end a b0 l l' n t - t - period))%nat in Hf by lia.
  rewrite seq_app, filter_app, length_app, hits_in_period in Hf.
  destruct (decide (walk_end a b0 l l' n t - t - period = 0)%nat) as [E|E].
  - (* the last mark is exactly one period after the first: not counted yet *)
    assert (orb t = orb (walk_end a b0 l l' n t)) as Heq.
    { unfold orbit. replace (walk_end a b0 l l' n t) with (t + period)%nat by lia.
      replace (b0 + Z.of_nat (t + period) * a) with (b0 + Z.of_nat t * a + a * l') by lia.
      now rewrite Z_mod_plus_full. }
    pose proof (hits_in_period t) as Hp.
    replace period with (S (period - 1)) in Hp at 1 by lia.
    cbn [seq] in Hp. rewrite filter_cons_True in Hp by exact Ht. cbn [length] in Hp.
    (* all l hits of the period after t lie in the walk, plus the one at t *)
    rewrite E in Hf. cbn in Hf.
    pose proof (length_filter (fun t' => orb t' < l) (seq (S t) (period - 1))).
    assert (length (filter (fun t' => orb t' < l) (seq (S t) period)) = Z.to_nat l)
      by apply hits_in_period.
    lia.
  - assert (walk_end a b0 l l' n t ∈
            filter (fun t' => orb t' < l) (seq (S t + period) (walk_end a b0 l l' n t - t - period))).
    { apply list_elem_of_filter. split; [exact Hlast|]. apply elem_of_seq. lia. }
    destruct (filter _ (seq (S t + period) _)) eqn:E2; [inversion H|].
    cbn [length] in Hf. lia.
Qed.

Lemma walk_times_NoDup n t : NoDup (t :: walk_times a b0 l l' n t).
Proof.
  apply NoDup_cons. split.
  - intros H%walk_times_range. lia.
  - rewrite <- walk_times_filter. apply NoDup_filter, NoDup_seq.
Qed.

(** The columns that the loop marks are pairwise different. *)
Lemma walk_cols_NoDup n t :
  orb t < l -> (S n <= Z.to_nat l)%nat ->
  NoDup ((fun t' => Z.to_nat (orb t')) <$> (t :: walk_times a b0 l l' n t)).
Proof.
  intros Ht Hn. pose proof (walk_within_period n t Ht Hn) as Hper.
  pose proof (walk_end_ge n t) as Hge.
  assert (forall x, x ∈ t :: walk_times a b0 l l' n t ->
                    (t <= x <= walk_end a b0 l l' n t)%nat) as Hrange.
  { intros x [->|Hx%walk_times_range]%elem_of_cons; lia. }
  apply NoDup_fmap_2_strong; [|apply walk_times_NoDup].
  intros x y Hx%Hrange Hy%Hrange Heq.
  assert (orb x = orb y) as Heq'.
  { pose proof (orbit_range x). pose proof (orbit_range y). lia. }
  destruct (Nat.lt_trichotomy x y) as [H|[H|H]]; [|exact H|].
  - exfalso. apply (orbit_inj x y); [lia | lia | exact Heq'].
  - exfalso. apply (orbit_inj y x); [lia | lia | now symmetry].
Qed.


(** The [for] loop of [lt_row], from a mark at step [t]. *)
Lemma lt_row_loop {X} (xs : list X) t (ba : bitarray) :
  orb t < l -> length ba = Z.to_nat l ->
  fold_for xs
    (fun _ '(b, ba) =>
       let* b := py_mod (b + a) l' in
       let* b := skip_past_l period l l' a b in
       let* ba := setitem ba b true in
       ret (b, ba))
    (orb t, ba) tt
  = Ok (orb (walk_end a b0 l l' (length xs) t),
        mark_all ba ((fun t' => Z.to_nat (orb t')) <$> walk_times a b0 l l' (length xs) t)) tt.
Proof.
  revert t ba. induction xs as [|x xs IH]; intros t ba Ht Hba; [reflexivity|].
  cbn [fold_for length walk_end walk_times fmap list_fmap mark_all foldl].
  destruct (next_hit_spec t) as (Hhit & _ & _).
  pose proof (orbit_range (next_hit t)) as Hr.
  match goal with |- bind ?m ?k tt = _ =>
    assert (m tt = Ok (orb (next_hit t), <[Z.to_nat (orb (next_hit t)):=true]> ba) tt) as Hbody
  end.
  { unfold bind, py_mod. replace (l' =? 0) with false by lia. cbn [ret].
    rewrite orbit_succ. rewrite (skip_past_l_spec period (S t) tt Hhit).
    rewrite setitem_in_range by lia. reflexivity. }
  rewrite (bind_Ok_l _ _ _ _ _ Hbody).
  apply IH; [exact Hhit | now rewrite length_insert].
Qed.

End Orbit.

(** ** Marked columns and their count *)

Lemma count_cons b (ba : bitarray) :
  count (b :: ba) = ((if b then 1 else 0) + count ba)%nat.
Proof.
  unfold count. rewrite filter_cons. destruct b; cbn.
  - destruct (decide (true = true)); [reflexivity | congruence].
  - destruct (decide (false = true)); [congruence | reflexivity].
Qed.

Lemma count_replicate_false n : count (replicate n false) = 0%nat.
Proof. induction n as [|n IH]; [reflexivity|]. cbn [replicate]. rewrite count_cons. exact IH. Qed.

Lemma count_insert_true (ba : bitarray) c :
  ba !! c = Some false -> count (<[c:=true]> ba) = S (count ba).
Proof.
  revert c. induction ba as [|b ba IH]; intros c H; [inversion H|].
  destruct c as [|c]; cbn in H.
  - inversion H; subst. change (<[0%nat:=true]> (false :: ba)) with (true :: ba).
    rewrite !count_cons. reflexivity.
  - change (<[S c:=true]> (b :: ba)) with (b :: <[c:=true]> ba).
    rewrite !count_cons. rewrite IH by exact H. lia.
Qed.

Lemma length_mark_all (ba : bitarray) cols : length (mark_all ba cols) = length ba.
Proof.
  revert ba. induction cols as [|c cols IH]; intros ba; [reflexivity|].
  cbn. unfold mark_all in IH. rewrite IH. apply length_insert.
Qed.

Lemma mark_all_lookup_not_in (ba : bitarray) cols c :
  c ∉ cols -> mark_all ba cols !! c = ba !! c.
Proof.
  revert ba. induction cols as [|c' cols IH]; intros ba Hc; [reflexivity|].
  apply not_elem_of_cons in Hc as [Hne Hc]. cbn. unfold mark_all in IH.
  rewrite IH by exact Hc. now apply list_lookup_insert_ne.
Qed.

Lemma mark_all_lookup_in (ba : bitarray) cols c :
  c ∈ cols -> (c < length ba)%nat -> mark_all ba cols !! c = Some true.
Proof.
  revert ba. induction cols as [|c' cols IH]; intros ba Hc Hlen; [inversion Hc|].
  cbn. unfold mark_all in IH.
  destruct (decide (c ∈ cols)) as [Hin|Hnin].
  - apply IH; [exact Hin | now rewrite length_insert].
  - apply elem_of_cons in Hc as [->|Hc]; [|contradiction].
    pose proof (mark_all_lookup_not_in (<[c':=true]> ba) cols c' Hnin) as H.
    unfold mark_all in H. rewrite H. now apply list_lookup_insert_eq.
Qed.

Lemma count_mark_all (ba : bitarray) cols :
  NoDup cols -> (forall c, c ∈ cols -> ba !! c = Some false) ->
  count (mark_all ba cols) = (count ba + length cols)%nat.
Proof.
  unfold mark_all.
  revert ba. induction cols as [|c cols IH]; intros ba Hnd Hf; cbn [foldl length]; [lia|].
  apply NoDup_cons in Hnd as [Hc Hnd]. rewrite IH.
  - rewrite count_insert_true; [lia|]. apply Hf. constructor.
  - exact Hnd.
  - intros c' Hc'. rewrite list_lookup_insert_ne; [apply Hf; now constructor|].
    intros ->. contradiction.
Qed.

Lemma length_xrangeZ lo hi : length (xrangeZ lo hi) = Z.to_nat (hi - lo).
Proof. unfold xrangeZ. now rewrite length_map, length_seq. Qed.

(** ** [lt_row] *)

Section LtRow.
Context {T : Tables} {HT : TablesOk T}.
Variables (p : Params) (l' : Z).
Hypothesis Hp : params_ok p.
Hypothesis Hl' : p_l_prime p = Some l'.

Lemma params_l_bounds : Z.prime l' /\ 0 < p_l p <= l'.
Proof.
  destruct (ok_l_prime p Hp l' Hl') as [H1 H2]. split; [exact H1|].
  pose proof (ok_k p Hp). pose proof (ok_s p Hp). pose proof (ok_h p Hp).
  pose proof (ok_l p Hp). unfold MIN_K in *. lia.
Qed.

(** The columns that [lt_row] marks for the triple [(d, a, b)]. *)
Definition lt_columns (d a b : Z) : list nat :=
  let t0 := hit_after a b (p_l p) l' (Z.to_nat l') 0 in
  (fun t => Z.to_nat (orbit a b l' t))
    <$> (t0 :: walk_times a b (p_l p) l' (Z.to_nat (Z.min d (p_l p) - 1)) t0).

Lemma first_hit_spec a b :
  1 <= a <= l' - 1 ->
  orbit a b l' (hit_after a b (p_l p) l' (Z.to_nat l') 0) < p_l p.
Proof.
  intros Ha. destruct params_l_bounds as [Hprime Hl].
  apply (hit_after_spec a b (p_l p) l' Hprime Ha Hl).
  destruct (hit_exists a b (p_l p) l' Hprime Ha Hl 0%nat) as (j & Hj & Hhit).
  exists j. split; [lia | exact Hhit].
Qed.

Lemma lt_row_spec esi d a b :
  triple p esi tt = Ok (d, a, b) tt -> 1 <= a <= l' - 1 -> 0 <= b <= l' - 1 ->
  lt_row p esi tt = Ok (mark_all (replicate (Z.to_nat (p_l p)) false) (lt_columns d a b)) tt.
Proof.
  intros Htr Ha Hb. destruct params_l_bounds as [Hprime Hl].
  unfold lt_row. rewrite (bind_Ok_l _ _ _ _ _ Htr). rewrite Hl'.
  unfold lookup_or at 1. rewrite (bind_Ok_l _ _ tt l' tt eq_refl).
  assert (b = orbit a b l' 0) as Hb0.
  { unfold orbit. cbn. rewrite Z.add_0_r. symmetry. apply Z.mod_small. lia. }
  pose proof (first_hit_spec a b Ha) as Hhit.
  set (t0 := hit_after a b (p_l p) l' (Z.to_nat l') 0) in *.
  pose proof (orbit_range a b (p_l p) l' Hprime Ha Hl t0) as Hr.
  rewrite Hb0 at 1.
  rewrite (bind_Ok_l _ _ _ _ _
             (skip_past_l_spec a b (p_l p) l' Hprime Ha Hl (Z.to_nat l') 0 tt Hhit)).
  fold t0.
  rewrite (bind_Ok_l _ _ _ _ _
             (setitem_in_range (replicate (Z.to_nat (p_l p)) false) (orbit a b l' t0) true tt
                ltac:(rewrite length_replicate; lia))).
  rewrite (bind_Ok_l _ _ _ _ _
             (lt_row_loop a b (p_l p) l' Hprime Ha Hl (xrangeZ 1 (Z.min d (p_l p))) t0 _ Hhit
                ltac:(now rewrite length_insert, length_replicate))).
  rewrite length_xrangeZ. reflexivity.
Qed.
End LtRow.

(** ** XOR of symbols *)

Lemma xor_sym_comm x y : xor_sym x y = xor_sym y x.
Proof.
  unfold xor_sym. revert y. induction x as [|a x IH]; intros [|b y]; cbn; try reflexivity.
  now rewrite Z.lxor_comm, IH.
Qed.

Lemma xor_sym_assoc x y z : xor_sym x (xor_sym y z) = xor_sym (xor_sym x y) z.
Proof.
  unfold xor_sym. revert y z. induction x as [|a x IH]; intros [|b y] [|c z]; cbn; try reflexivity.
  now rewrite Z.lxor_assoc, IH.
Qed.

Lemma xor_sym_swap x y z : xor_sym x (xor_sym y z) = xor_sym y (xor_sym x z).
Proof. now rewrite !xor_sym_assoc, (xor_sym_comm x y). Qed.

Lemma xor_sym_zeros_r x : xor_sym x (replicate (length x) 0) = x.
Proof.
  unfold xor_sym. induction x as [|a x IH]; cbn; [reflexivity|].
  now rewrite Z.lxor_0_r, IH.
Qed.

Lemma xor_sym_self x : xor_sym x x = replicate (length x) 0.
Proof.
  unfold xor_sym. induction x as [|a x IH]; cbn; [reflexivity|].
  now rewrite Z.lxor_nilpotent, IH.
Qed.

Lemma length_xor_sym x y : length (xor_sym x y) = Nat.min (length x) (length y).
Proof. unfold xor_sym. apply length_zip_with. Qed.

Lemma row_dot_insert_true W (ba : list bool) c (X : list (list Z)) v :
  ba !! c = Some false -> X !! c = Some v ->
  row_dot W (<[c:=true]> ba) X = xor_sym v (row_dot W ba X).
Proof.
  revert c X. induction ba as [|b ba IH]; intros c X Hb Hv; [inversion Hb|].
  destruct X as [|x X]; [inversion Hv|].
  destruct c as [|c]; cbn in Hb, Hv.
  - inversion Hb; inversion Hv; subst. reflexivity.
  - change (<[S c:=true]> (b :: ba)) with (b :: <[c:=true]> ba). cbn [row_dot].
    rewrite (IH c X Hb Hv). destruct b; [apply xor_sym_swap | reflexivity].
Qed.

Lemma row_dot_replicate_false W n X : row_dot W (replicate n false) X = replicate W 0.
Proof.
  revert X. induction n as [|n IH]; intros [|x X]; cbn; try reflexivity. apply IH.
Qed.

(** The XOR of the symbols at the marked columns, taken in the order in
    which the columns were marked. *)
Lemma row_dot_mark_all W (X : list (list Z)) cols :
  forall ba : list bool,
  NoDup cols -> (forall c, c ∈ cols -> ba !! c = Some false /\ is_Some (X !! c)) ->
  row_dot W (mark_all ba cols) X
  = foldl (fun acc c => xor_sym (default [] (X !! c)) acc) (row_dot W ba X) cols.
Proof.
  unfold mark_all. induction cols as [|c cols IH]; intros ba Hnd Hc; [reflexivity|].
  apply NoDup_cons in Hnd as [Hnin Hnd]. cbn [foldl].
  destruct (Hc c ltac:(constructor)) as [Hb [v Hv]].
  rewrite IH.
  - now rewrite (row_dot_insert_true W ba c X v Hb Hv), Hv.
  - exact Hnd.
  - intros c' Hc'. destruct (Hc c' ltac:(now constructor)) as [H1 H2].
    split; [|exact H2]. rewrite list_lookup_insert_ne; [exact H1|]. intros ->. contradiction.
Qed.

Section LtRowWeight.
Context {T : Tables} {HT : TablesOk T}.
Variables (p : Params) (l' : Z).
Hypothesis Hp : params_ok p.
Hypothesis Hl' : p_l_prime p = Some l'.

Lemma lt_columns_facts d a b :
  1 <= d -> 1 <= a <= l' - 1 ->
  NoDup (lt_columns p l' d a b) /\
  Z.of_nat (length (lt_columns p l' d a b)) = Z.min d (p_l p) /\
  forall c, c ∈ lt_columns p l' d a b -> (c < Z.to_nat (p_l p))%nat.
Proof.
  intros Hd Ha. destruct (params_l_bounds p l' Hp Hl') as [Hprime Hl].
  pose proof (first_hit_spec p l' Hp Hl' a b Ha) as Hhit.
  unfold lt_columns.
  set (t0 := hit_after a b (p_l p) l' (Z.to_nat l') 0) in *.
  set (n := Z.to_nat (Z.min d (p_l p) - 1)).
  repeat split.
  - apply (walk_cols_NoDup a b (p_l p) l' Hprime Ha Hl n t0 Hhit). unfold n. lia.
  - rewrite length_fmap. cbn [length].
    rewrite (length_walk_times a b (p_l p) l' Hprime Ha Hl). unfold n. lia.
  - intros c (t & -> & Ht)%list_elem_of_fmap.
    pose proof (orbit_range a b (p_l p) l' Hprime Ha Hl t).
    apply elem_of_cons in Ht as [->|Ht]; [lia|].
    apply (walk_times_range a b (p_l p) l' Hprime Ha Hl) in Ht. lia.
Qed.

(** The first half of C7: [lt_row esi] returns a bit array of length [L]
    with exactly [min(d, L)] ones, for the [d] of [triple esi]. *)
Lemma lt_row_weight esi :
  exists d a b ba,
    triple p esi tt = Ok (d, a, b) tt /\
    (1 <= d <= 40 /\ 1 <= a <= l' - 1 /\ 0 <= b <= l' - 1) /\
    lt_row p esi tt = Ok ba tt /\
    ba = mark_all (replicate (Z.to_nat (p_l p)) false) (lt_columns p l' d a b) /\
    length ba = Z.to_nat (p_l p) /\
    Z.of_nat (count ba) = Z.min d (p_l p).
Proof.
  destruct (triple_ok p l' esi Hp Hl') as (d & a & b & Htr & Hd & Ha & Hb).
  destruct (lt_columns_facts d a b ltac:(lia) Ha) as (Hnd & Hlen & Hrange).
  exists d, a, b, (mark_all (replicate (Z.to_nat (p_l p)) false) (lt_columns p l' d a b)).
  split; [exact Htr|]. split; [tauto|]. split; [now apply lt_row_spec|]. split; [reflexivity|].
  split; [now rewrite length_mark_all, length_replicate|].
  rewrite count_mark_all, count_replicate_false; [lia | exact Hnd |].
  intros c Hc%Hrange. now apply lookup_replicate_2.
Qed.
End LtRowWeight.

(** ** [ltenc] *)

Lemma i_symbol_ready W w isyms (w1 : World) b :
  i_symbols_ready W w isyms -> self w1 = self w ->
  0 <= b < p_l (r_params (self w)) ->
  exists a, i_symbol b w1 = Ok a w1 /\
            isyms !! Z.to_nat b = Some (Some a) /\
            (a < length (heap w))%nat /\ length (heap_read (heap w) a) = W.
Proof.
  intros (Hi & Hlen & Hall) Hself Hb.
  destruct (lookup_lt_is_Some_2 isyms (Z.to_nat b) ltac:(lia)) as [e He].
  destruct (Hall _ _ He) as (a & -> & Ha & HW).
  exists a. split; [|auto].
  unfold i_symbol, bind, get. rewrite Hself, Hi. cbn [lookup_or ret].
  unfold getitem, py_index.
  replace ((0 <=? b) && (b <? Z.of_nat (length isyms))) with true by lia.
  now rewrite He.
Qed.

Lemma xor_into_last (h : list (list Z)) (me : RaptorR10) acc a :
  (a < length h)%nat -> length (heap_read h a) = length acc ->
  xor_arrays a (length h) {| heap := h ++ [acc]; self := me |}
  = Ok tt {| heap := h ++ [xor_sym (heap_read h a) acc]; self := me |}.
Proof.
  intros Ha Hlen. unfold xor_arrays, heap_read. cbn [heap self].
  rewrite lookup_app_l by exact Ha.
  rewrite list_lookup_middle by reflexivity. cbn [default].
  unfold heap_read in Hlen. rewrite Hlen, Nat.eqb_refl.
  do 2 f_equal. rewrite insert_app_r_alt by lia.
  now replace (length h - length h)%nat with 0%nat by lia.
Qed.

Section LtEncLoop.
Variables a b0 l l' : Z.
Hypothesis Hprime : Z.prime l'.
Hypothesis Ha : 1 <= a <= l' - 1.
Hypothesis Hl : 0 < l <= l'.
Context {T : Tables}.
Variables (W : nat) (w : World) (isyms : list (option addr)).
Hypothesis Hready : i_symbols_ready W w isyms.
Hypothesis Hlw : p_l (r_params (self w)) = l.

(** The [for] loop of [ltenc], from a mark at step [t], with the result
    array [acc] at the end of the heap. *)
Lemma ltenc_loop {X} (xs : list X) t acc :
  orbit a b0 l' t < l -> length acc = W ->
  fold_for xs
    (fun _ b =>
       let* b := py_mod (b + a) l' in
       let* b := skip_past_l (Z.to_nat l') l l' a b in
       let* src := i_symbol b in
       xor_arrays src (length (heap w)) ;;;
       ret b)
    (orbit a b0 l' t) {| heap := heap w ++ [acc]; self := self w |}
  = Ok (orbit a b0 l' (walk_end a b0 l l' (length xs) t))
       {| heap := heap w ++
            [foldl (fun acc c => xor_sym (default [] (i_symbol_values (heap w) isyms !! c)) acc)
               acc ((fun t' => Z.to_nat (orbit a b0 l' t')) <$> walk_times a b0 l l' (length xs) t)];
          self := self w |}.
Proof.
  revert t acc. induction xs as [|x xs IH]; intros t acc Ht Hacc; [reflexivity|].
  cbn [fold_for length walk_end walk_times fmap list_fmap foldl].
  destruct (next_hit_spec a b0 l l' Hprime Ha Hl t) as (Hhit & _ & _).
  set (t1 := hit_after a b0 l l' (Z.to_nat l') (S t)) in *.
  pose proof (orbit_range a b0 l l' Hprime Ha Hl t1) as Hr.
  set (w1 := {| heap := heap w ++ [acc]; self := self w |}).
  destruct (i_symbol_ready W w isyms w1 (orbit a b0 l' t1) Hready eq_refl ltac:(lia))
    as (src & Hsrc & Hlook & Hsrc_lt & Hsrc_W).
  assert (i_symbol_values (heap w) isyms !! Z.to_nat (orbit a b0 l' t1)
          = Some (heap_read (heap w) src)) as Hval.
  { unfold i_symbol_values. rewrite list_lookup_fmap, Hlook. reflexivity. }
  match goal with |- bind ?m ?k w1 = _ =>
    assert (m w1 = Ok (orbit a b0 l' t1)
                      {| heap := heap w ++ [xor_sym (heap_read (heap w) src) acc];
                         self := self w |}) as Hbody
  end.
  { unfold bind at 1. unfold py_mod. replace (l' =? 0) with false by lia. cbn [ret].
    rewrite (orbit_succ a b0 l l' Hprime Ha Hl).
    unfold bind at 1.
    rewrite (skip_past_l_spec a b0 l l' Hprime Ha Hl (Z.to_nat l') (S t) w1 Hhit).
    fold t1. unfold bind at 1. rewrite Hsrc.
    unfold bind. unfold w1. rewrite xor_into_last by (auto; lia). reflexivity. }
  rewrite (bind_Ok_l _ _ _ _ _ Hbody). rewrite Hval. cbn [default].
  apply IH; [exact Hhit|]. unfold id.
  rewrite length_xor_sym, Hsrc_W, Hacc. apply Nat.min_id.
Qed.
End LtEncLoop.

Section LtEnc.
Context {T : Tables} {HT : TablesOk T}.
Variables (W : nat) (w : World) (isyms : list (option addr)) (l' : Z).
Hypothesis Hp : params_ok (r_params (self w)).
Hypothesis Hl' : p_l_prime (r_params (self w)) = Some l'.
Hypothesis Hready : i_symbols_ready W w isyms.

Lemma ltenc_spec esi d a b :
  triple (r_params (self w)) esi tt = Ok (d, a, b) tt ->
  1 <= d -> 1 <= a <= l' - 1 -> 0 <= b <= l' - 1 ->
  ltenc esi w
  = Ok (length (heap w))
       {| heap := heap w ++
            [row_dot W
               (mark_all (replicate (Z.to_nat (p_l (r_params (self w)))) false)
                  (lt_columns (r_params (self w)) l' d a b))
               (i_symbol_values (heap w) isyms)];
          self := self w |}.
Proof.
  intros Htr Hd Ha Hb.
  set (p := r_params (self w)) in *. set (l := p_l p).
  destruct (params_l_bounds p l' Hp Hl') as [Hprime Hl]. fold l in Hl.
  pose proof (first_hit_spec p l' Hp Hl' a b Ha) as Hhit. fold l in Hhit.
  destruct (lt_columns_facts p l' Hp Hl' d a b Hd Ha) as (Hnd & Hlen & Hrange).
  unfold lt_columns in *. fold l in Hnd, Hlen, Hrange |- *.
  set (t0 := hit_after a b l l' (Z.to_nat l') 0) in *.
  set (n := Z.to_nat (Z.min d l - 1)) in *.
  pose proof (orbit_range a b l l' Hprime Ha Hl t0) as Hr.
  assert (b = orbit a b l' 0) as Hb0.
  { unfold orbit. cbn. rewrite Z.add_0_r. symmetry. apply Z.mod_small. lia. }
  destruct (i_symbol_ready W w isyms w (orbit a b l' t0) Hready eq_refl ltac:(fold p l; lia))
    as (src & Hsrc & Hlook & Hsrc_lt & Hsrc_W).
  unfold ltenc.
  rewrite (bind_Ok_l get _ w w w eq_refl). fold p l.
  assert (lift (triple p esi) w = Ok (d, a, b) w) as Hlift by (apply lift_Ok; auto).
  rewrite (bind_Ok_l _ _ _ _ _ Hlift). rewrite Hl'.
  rewrite (bind_Ok_l (lookup_or TypeError (Some l')) _ w l' w eq_refl).
  rewrite Hb0 at 1.
  rewrite (bind_Ok_l _ _ _ _ _
             (skip_past_l_spec a b l l' Hprime Ha Hl (Z.to_nat l') 0 w Hhit)).
  fold t0. rewrite (bind_Ok_l _ _ _ _ _ Hsrc).
  rewrite (bind_Ok_l get _ w w w eq_refl).
  rewrite (bind_Ok_l (numpy_array_copy (heap_read (heap w) src)) _ w (length (heap w))
             {| heap := heap w ++ [heap_read (heap w) src]; self := self w |} eq_refl).
  rewrite (bind_Ok_l _ _ _ _ _
             (ltenc_loop a b l l' Hprime Ha Hl W w isyms Hready eq_refl
                (xrangeZ 1 (Z.min d l)) t0 (heap_read (heap w) src) Hhit Hsrc_W)).
  cbn [ret]. unfold ret. do 3 f_equal.
  rewrite length_xrangeZ. fold n.
  assert (i_symbol_values (heap w) isyms !! Z.to_nat (orbit a b l' t0)
          = Some (heap_read (heap w) src)) as Hval.
  { unfold i_symbol_values. rewrite list_lookup_fmap, Hlook. reflexivity. }
  rewrite row_dot_mark_all.
  - rewrite row_dot_replicate_false. cbn [fmap list_fmap foldl]. rewrite Hval.
    cbn [default from_option]. unfold id. rewrite <- Hsrc_W.
    now rewrite xor_sym_zeros_r.
  - exact Hnd.
  - intros c Hc. pose proof (Hrange c Hc) as Hlt. split.
    + now apply lookup_replicate_2.
    + apply lookup_lt_is_Some_2. unfold i_symbol_values. rewrite length_map.
      destruct Hready as (_ & -> & _). exact Hlt.
Qed.
End LtEnc.

(** C7. For valid parameters with their prime [L'], tables that meet their
    interface and every identifier [esi]: [lt_row esi] returns a bit array of
    length [L] with exactly [min(d, L)] ones, where [(d, a, b) = triple esi];
    and once [i_symbols] holds [L] arrays of one width, [ltenc esi] returns a
    new array whose words are the XOR of the intermediate symbols at exactly
    the columns that [lt_row esi] marks. *)
Theorem lt_row_weight_and_ltenc {T : Tables} {HT : TablesOk T}
    (W : nat) (w : World) (isyms : list (option addr)) (l' esi : Z) :
  params_ok (r_params (self w)) ->
  p_l_prime (r_params (self w)) = Some l' ->
  i_symbols_ready W w isyms ->
  lt_row_and_ltenc_agree W w isyms esi.
Proof.
  intros Hp Hl' Hready.
  destruct (lt_row_weight (r_params (self w)) l' Hp Hl' esi)
    as (d & a & b & ba & Htr & (Hd & Ha & Hb) & Hrow & Hba & Hlen & Hcount).
  eexists d, a, b, ba, _.
  split; [exact Htr|]. split; [exact Hrow|]. split; [exact Hlen|]. split; [exact Hcount|].
  split.
  - apply (ltenc_spec W w isyms l' Hp Hl' Hready esi d a b Htr); lia.
  - cbn [heap]. unfold heap_read. rewrite list_lookup_middle by reflexivity.
    cbn. now rewrite Hba.
Qed.

Lemma encoder_world_ready :
  i_symbols_ready 1 Example.encoder_world (map Some (seq 0 14)).
Proof.
  split; [reflexivity|]. split; [reflexivity|].
  intros c e H. apply list_lookup_fmap_Some in H as (x & -> & Hx).
  apply lookup_seq in Hx as [-> Hlt]. exists c. split; [reflexivity|].
  cbn [Example.encoder_world heap]. rewrite length_map, length_seq. split; [lia|].
  unfold heap_read. rewrite list_lookup_fmap, lookup_seq_lt by lia. reflexivity.
Qed.

Lemma lt_row_weight_and_ltenc_witness :
  @lt_row_and_ltenc_agree Example.tables 1 Example.encoder_world (map Some (seq 0 14)) 9.
Proof.
  apply (@lt_row_weight_and_ltenc Example.tables ExampleFacts.tables_ok
           1 Example.encoder_world (map Some (seq 0 14)) 17 9).
  - exact ExampleFacts.params4_ok.
  - reflexivity.
  - exact encoder_world_ready.
Defined.

(** ** Phase I on a submatrix [V] without a nonzero row *)

Section PhaseOneFailure.
Context {R : Runtime}.
Variable l : nat.

Lemma row_of_Some st r row : sv_a st !! r = Some row -> row_of r st = Ok row st.
Proof. intros H. unfold row_of, bind, get. now rewrite H. Qed.

Lemma rows_with_min_r_skips i u st (xs : list nat) acc :
  (forall r, r ∈ xs -> exists row,
      sv_a st !! r = Some row /\ count (slice row i (l - u)) = 0%nat) ->
  fold_for xs
    (fun row_index '(min_r, rows) =>
       let* row := row_of row_index in
       let v_row := slice row i (l - u) in
       let r := count v_row in
       if (r =? 0)%nat then ret (min_r, rows)
       else
         match min_r with
         | None => ret (Some r, [row_index])
         | Some mr =>
             if (r <? mr)%nat then ret (Some r, [row_index])
             else if (r =? mr)%nat then ret (min_r, rows ++ [row_index])
             else ret (min_r, rows)
         end)
    acc st
  = Ok acc st.
Proof.
  induction xs as [|x xs IH]; intros Hall; [reflexivity|].
  cbn [fold_for]. destruct (Hall x ltac:(constructor)) as (row & Hrow & Hzero).
  destruct acc as [min_r rows].
  unfold bind at 1. unfold bind at 1. rewrite (row_of_Some st x row Hrow).
  cbn beta zeta. rewrite Hzero. cbn [Nat.eqb ret].
  apply IH. intros r Hr. apply Hall. now constructor.
Qed.

(** A turn of the loop of phase I on an all-zero [V]. In a turn ([i + u < l])
    in which no row of [V] (rows [i] to [m - 1], columns [i] to [l - u - 1])
    has a one, [rows_with_min_r] returns [None] for [r], the row choice
    returns [None], the test [r == 0] is false, and [exchange_row] fails on
    the index [None] with a [TypeError] (an [IndexError] when [V] has no row
    at all); the decoding schedule exception is not raised. *)
Lemma phase1_no_nonzero_row fuel m i u st :
  (i + u < l)%nat ->
  length (sv_a st) = m ->
  (forall r row, (i <= r < m)%nat -> sv_a st !! r = Some row ->
     count (slice row i (l - u)) = 0%nat) ->
  phase1 l (S fuel) m i u st
  = Raise (if (i <? m)%nat then TypeError else IndexError) st.
Proof.
  intros Hiu Hlen Hzero. cbn [phase1].
  replace (i + u <? l)%nat with true by (symmetry; apply Nat.ltb_lt; lia).
  assert (rows_with_min_r l m i u st = Ok (None, []) st) as Hrows.
  { unfold rows_with_min_r. apply rows_with_min_r_skips.
    intros r Hr%elem_of_seq.
    destruct (lookup_lt_is_Some_2 (sv_a st) r ltac:(lia)) as [row Hrow].
    exists row. split; [exact Hrow|]. apply (Hzero r row); [lia | exact Hrow]. }
  apply bind_Raise_l. unfold phase1_body.
  rewrite (bind_Ok_l _ _ _ _ _ Hrows). cbn beta iota.
  rewrite bool_decide_eq_false_2 by discriminate.
  unfold min_degree_row. cbn [fold_for].
  rewrite (bind_Ok_l (let* st0 := get in _) _ st None st eq_refl).
  rewrite bool_decide_eq_false_2 by discriminate.
  rewrite (bind_Ok_l (ret tt) _ st tt st eq_refl).
  apply bind_Raise_l. unfold exchange_row.
  rewrite (bind_Ok_l get _ st st st eq_refl).
  destruct (i <? m)%nat eqn:E.
  - apply Nat.ltb_lt in E.
    destruct (lookup_lt_is_Some_2 (sv_a st) i ltac:(lia)) as [row Hrow].
    rewrite Hrow. reflexivity.
  - apply Nat.ltb_ge in E. rewrite (lookup_ge_None_2 (sv_a st) i) by lia. reflexivity.
Qed.
End PhaseOneFailure.

(** ** Matrices by their entries *)

Local Open Scope nat_scope.

(** The bit of [a] at row [r] and column [c]; [false] outside the matrix. *)
Definition entry (a : list (list bool)) (r c : nat) : bool :=
  match a !! r with
  | Some row => default false (row !! c)
  | None => false
  end.

(** [a] has [m] rows of [l] bits. *)
Definition wf_matrix (l m : nat) (a : list (list bool)) : Prop :=
  length a = m /\ forall r row, a !! r = Some row -> length row = l.

(** The index that an exchange of [x] and [y] puts at [r]. *)
Definition swap_idx (x y r : nat) : nat :=
  if decide (r = x) then y else if decide (r = y) then x else r.

(** What the code needs from [set.pop] and from networkx. *)
Class RuntimeOk (R : Runtime) : Prop := {
  set_pop_elem : forall ones, ones <> [] -> set_pop ones ∈ ones;
  largest_component_row_elem : forall edges row,
    largest_component_row edges = Some row -> exists v1 v2, (v1, v2, row) ∈ edges
}.

Lemma entry_Some a r c row : a !! r = Some row -> entry a r c = default false (row !! c).
Proof. unfold entry. now intros ->. Qed.

Lemma entry_out_row a r c : length a <= r -> entry a r c = false.
Proof. intros H. unfold entry. now rewrite lookup_ge_None_2. Qed.

Lemma entry_out_col l m a r c : wf_matrix l m a -> l <= c -> entry a r c = false.
Proof.
  intros [_ Hw] H. unfold entry. destruct (a !! r) as [row|] eqn:E; [|reflexivity].
  rewrite lookup_ge_None_2; [reflexivity|]. rewrite (Hw _ _ E). exact H.
Qed.

Lemma matrix_ext l m a b :
  wf_matrix l m a -> wf_matrix l m b ->
  (forall r c, r < m -> c < l -> entry a r c = entry b r c) -> a = b.
Proof.
  intros [Ha Hwa] [Hb Hwb] Hent. apply list_eq_same_length with m; auto.
  intros r x y Hr Hx Hy. apply list_eq_same_length with l.
  - now apply Hwb in Hy.
  - now apply Hwa in Hx.
  - intros c bx by' Hc Hbx Hby.
    specialize (Hent r c Hr Hc). unfold entry in Hent. rewrite Hx, Hy, Hbx, Hby in Hent.
    exact Hent.
Qed.

Lemma entry_identity n r c : r < n -> c < n -> entry (matrix_identity n) r c = Nat.eqb r c.
Proof.
  intros Hr Hc. unfold entry, matrix_identity.
  rewrite list_lookup_fmap, lookup_seq_lt by exact Hr. cbn.
  rewrite list_lookup_fmap, lookup_seq_lt by exact Hc. reflexivity.
Qed.

Lemma wf_identity n : wf_matrix n n (matrix_identity n).
Proof.
  unfold matrix_identity. split; [now rewrite length_map, length_seq|].
  intros r row H. apply list_lookup_fmap_Some in H as (x & -> & _).
  now rewrite length_map, length_seq.
Qed.

Lemma swap_idx_other x y r : r <> x -> r <> y -> swap_idx x y r = r.
Proof. intros. unfold swap_idx. repeat case_decide; congruence. Qed.

Lemma swap_idx_l x y : swap_idx x y x = y.
Proof. unfold swap_idx. case_decide; congruence. Qed.

Lemma swap_idx_r x y : swap_idx x y y = x.
Proof. unfold swap_idx. repeat case_decide; congruence. Qed.

(** ** The three operations on the matrix, by entries *)

Lemma hoare_pre_eq {St A} (P : St -> Prop) (m : M St A) Q E :
  (forall s0, P s0 -> hoare (fun s => s = s0) m Q E) -> hoare P m Q E.
Proof. intros H s Hs. exact (H s Hs s eq_refl). Qed.

Lemma hoare_Ok {St A} (P : St -> Prop) (m : M St A) (Q : A -> St -> Prop) :
  (forall s x s', P s -> m s = Ok x s' -> Q x s') -> hoare P m Q (fun _ => True).
Proof.
  intros H s Hs. destruct (m s) as [x s'| |] eqn:E; auto. eapply H; eauto.
Qed.

Lemma hoare_Ok_inv {St A} (P : St -> Prop) (m : M St A) (Q : A -> St -> Prop) E s x s' :
  hoare P m Q E -> P s -> m s = Ok x s' -> Q x s'.
Proof. intros H Hs Hm. specialize (H s Hs). now rewrite Hm in H. Qed.

Lemma row_of_Ok st r row st' : row_of r st = Ok row st' -> st' = st /\ sv_a st !! r = Some row.
Proof.
  unfold row_of. intros H. inv_ok. auto.
Qed.

Lemma bit_Ok st r c b st' :
  bit r c st = Ok b st' ->
  st' = st /\ b = entry (sv_a st) r c /\ r < length (sv_a st) /\
  exists row, sv_a st !! r = Some row /\ c < length row.
Proof.
  unfold bit. intros H. inv_ok.
  match goal with H : row_of _ _ = Ok _ _ |- _ => apply row_of_Ok in H as [-> Hrow] end.
  split; [reflexivity|]. split; [now rewrite (entry_Some _ _ _ _ Hrow), E|].
  split; [now apply lookup_lt_Some in Hrow|].
  eexists. split; [exact Hrow|]. now apply lookup_lt_Some in E.
Qed.

Lemma bitarray_xor_Ok {St} x y z (s s' : St) :
  bitarray_xor x y s = Ok z s' -> s' = s /\ length x = length y /\ z = zip_with xorb x y.
Proof.
  unfold bitarray_xor. destruct (Nat.eqb_spec (length x) (length y)); intros H; inv_ok; auto.
Qed.

Lemma zip_with_xorb_lookup x y c :
  default false (zip_with xorb x y !! c)
  = if decide (c < length x /\ c < length y)
    then xorb (default false (x !! c)) (default false (y !! c)) else false.
Proof.
  rewrite lookup_zip_with.
  destruct (x !! c) as [bx|] eqn:Ex; destruct (y !! c) as [by'|] eqn:Ey; cbn.
  - apply lookup_lt_Some in Ex, Ey. rewrite decide_True by auto. reflexivity.
  - apply lookup_ge_None in Ey. rewrite decide_False by lia. reflexivity.
  - apply lookup_ge_None in Ex. rewrite decide_False by lia. reflexivity.
  - apply lookup_ge_None in Ex. rewrite decide_False by lia. reflexivity.
Qed.

Lemma Schedule_xor_Ok r1 r2 st st' :
  Schedule_xor r1 r2 st = Ok tt st' -> sv_a st' = sv_a st /\ sv_o_degrees st' = sv_o_degrees st.
Proof. unfold Schedule_xor. intros H. inv_ok. auto. Qed.

Lemma swap_items_Ok {St A} (xs : list A) i j ys (s s' : St) :
  swap_items xs i j s = Ok ys s' ->
  s' = s /\ exists x y, xs !! i = Some x /\ xs !! j = Some y /\ ys = <[j:=x]> (<[i:=y]> xs).
Proof. unfold swap_items. intros H. inv_ok. eauto 6. Qed.

Lemma Schedule_exchange_row_Ok r1 r2 st st' :
  Schedule_exchange_row r1 r2 st = Ok tt st' ->
  sv_a st' = sv_a st /\ sv_o_degrees st' = sv_o_degrees st.
Proof.
  unfold Schedule_exchange_row. intros H. inv_ok.
  match goal with H : swap_items _ _ _ _ = Ok _ _ |- _ => apply swap_items_Ok in H as [-> _] end.
  auto.
Qed.

Lemma Schedule_exchange_column_Ok c1 c2 st st' :
  Schedule_exchange_column c1 c2 st = Ok tt st' ->
  sv_a st' = sv_a st /\ sv_o_degrees st' = sv_o_degrees st.
Proof.
  unfold Schedule_exchange_column. intros H. inv_ok.
  match goal with H : swap_items _ _ _ _ = Ok _ _ |- _ => apply swap_items_Ok in H as [-> _] end.
  auto.
Qed.

Lemma mapM_Ok {St A B} (f : A -> M St B) (xs : list A) ys (s s' : St) :
  (forall x, inert (f x)) ->
  mapM f xs s = Ok ys s' ->
  s' = s /\ length ys = length xs /\
  forall i x, xs !! i = Some x -> exists y, ys !! i = Some y /\ f x s = Ok y s.
Proof.
  intros Hin. revert ys. induction xs as [|x xs IH]; intros ys H; cbn [mapM] in H.
  - inv_ok. repeat split; auto. intros i x Hx. inversion Hx.
  - inv_ok.
    match goal with H : f x s = Ok ?y ?s1 |- _ =>
      pose proof (Hin x s) as Hi; rewrite H in Hi; subst s1; rename H into Hfx end.
    match goal with H : mapM f xs s = Ok _ _ |- _ => apply IH in H as (-> & Hlen & Hall) end.
    repeat split; [cbn; lia|].
    intros [|i] x' Hx'; cbn in *.
    + inversion Hx'; subst. eauto.
    + now apply Hall.
Qed.

Lemma inert_swap_items {St A} (xs : list A) i j : inert (St := St) (swap_items xs i j).
Proof.
  unfold swap_items. apply inert_bind; [apply inert_lookup_or|]. intros x.
  apply inert_bind; [apply inert_lookup_or|]. intros y. apply inert_ret.
Qed.

Section MatrixOps.
Variables l m : nat.

Lemma wf_insert_row a r row :
  wf_matrix l m a -> length row = l -> wf_matrix l m (<[r:=row]> a).
Proof.
  intros [Hlen Hw] Hrow. split; [now rewrite length_insert|].
  intros r' row' H. destruct (decide (r = r')) as [->|Hne].
  - destruct (decide (r' < length a)) as [Hlt|Hge].
    + rewrite list_lookup_insert_eq in H by exact Hlt. now inversion H; subst.
    + rewrite list_insert_ge in H by lia. eauto.
  - rewrite list_lookup_insert_ne in H by exact Hne. eauto.
Qed.

Lemma entry_insert_row (a : list (list bool)) r row r' c :
  r < length a ->
  entry (<[r:=row]> a) r' c = if decide (r' = r) then default false (row !! c) else entry a r' c.
Proof.
  intros Hr. unfold entry. case_decide as E.
  - subst. now rewrite list_lookup_insert_eq.
  - now rewrite list_lookup_insert_ne by congruence.
Qed.

(** [xor_row r1 r2]: row [r1] becomes its XOR with row [r2]. *)
Lemma xor_row_entries r1 r2 st st' :
  wf_matrix l m (sv_a st) -> xor_row r1 r2 st = Ok tt st' ->
  r1 < m /\ r2 < m /\ wf_matrix l m (sv_a st') /\
  forall r c, entry (sv_a st') r c
              = if decide (r = r1)
                then xorb (entry (sv_a st) r1 c) (entry (sv_a st) r2 c)
                else entry (sv_a st) r c.
Proof.
  intros Hwf H. unfold xor_row in H. inv_ok.
  repeat match goal with H : row_of _ _ = Ok _ _ |- _ => apply row_of_Ok in H as [-> ?] end.
  match goal with H : bitarray_xor _ _ _ = Ok _ _ |- _ =>
    apply bitarray_xor_Ok in H as (-> & Hlen & ->) end.
  match goal with H : Schedule_xor _ _ _ = Ok _ _ |- _ =>
    apply Schedule_xor_Ok in H as [Ha _] end.
  cbn in Ha. rewrite Ha. clear Ha.
  match goal with H1 : sv_a st !! r1 = Some ?x, H2 : sv_a st !! r2 = Some ?y |- _ =>
    rename x into row1; rename y into row2; rename H1 into Hr1; rename H2 into Hr2 end.
  pose proof (lookup_lt_Some _ _ _ Hr1) as Hlt1. pose proof (lookup_lt_Some _ _ _ Hr2) as Hlt2.
  destruct Hwf as [Hm Hw]. pose proof (Hw _ _ Hr1) as Hl1. pose proof (Hw _ _ Hr2) as Hl2.
  split; [lia|]. split; [lia|]. split.
  - apply wf_insert_row; [now split|]. rewrite length_zip_with. lia.
  - intros r c. rewrite entry_insert_row by exact Hlt1.
    case_decide; [|reflexivity].
    rewrite zip_with_xorb_lookup, (entry_Some _ _ _ _ Hr1), (entry_Some _ _ _ _ Hr2).
    case_decide as Hc; [reflexivity|].
    rewrite (lookup_ge_None_2 row1 c), (lookup_ge_None_2 row2 c) by lia. reflexivity.
Qed.

(** [exchange_row r1 r2]: rows [r1] and [r2] change places. *)
Lemma exchange_row_entries r1 r2 st st' :
  wf_matrix l m (sv_a st) -> exchange_row r1 r2 st = Ok tt st' ->
  exists x, r2 = Some x /\ r1 < m /\ x < m /\ wf_matrix l m (sv_a st') /\
  forall r c, entry (sv_a st') r c = entry (sv_a st) (swap_idx r1 x r) c.
Proof.
  intros Hwf H. unfold exchange_row in H. inv_ok.
  match goal with H : swap_items _ _ _ _ = Ok _ _ |- _ => apply swap_items_Ok in H as [-> _] end.
  match goal with H : Schedule_exchange_row _ _ _ = Ok _ _ |- _ =>
    apply Schedule_exchange_row_Ok in H as [Ha _] end.
  cbn in Ha. rewrite Ha. clear Ha.
  match goal with H1 : sv_a ?s !! r1 = Some ?t, H2 : sv_a ?s !! ?x = Some ?o |- _ =>
    rename t into temp; rename o into other; rename H1 into Hr1; rename H2 into Hr2;
    rename x into x2 end.
  exists x2. split; [reflexivity|].
  pose proof (lookup_lt_Some _ _ _ Hr1) as Hlt1. pose proof (lookup_lt_Some _ _ _ Hr2) as Hlt2.
  destruct Hwf as [Hm Hw]. pose proof (Hw _ _ Hr1) as Hl1. pose proof (Hw _ _ Hr2) as Hl2.
  split; [lia|]. split; [lia|]. split.
  - apply wf_insert_row; [apply wf_insert_row; [now split|] |]; assumption.
  - intros r c. rewrite entry_insert_row by (rewrite length_insert; exact Hlt2).
    unfold swap_idx. destruct (decide (r = x2)) as [->|Hne2].
    + destruct (decide (x2 = r1)) as [->|]; now rewrite (entry_Some _ _ _ _ Hr1).
    + rewrite entry_insert_row by exact Hlt1.
      destruct (decide (r = r1)) as [->|Hne1]; [|reflexivity].
      now rewrite (entry_Some _ _ _ _ Hr2).
Qed.

(** [exchange_column c1 c2]: columns [c1] and [c2] change places. *)
Lemma exchange_column_entries c1 c2 st st' :
  wf_matrix l m (sv_a st) -> exchange_column c1 c2 st = Ok tt st' ->
  wf_matrix l m (sv_a st') /\
  forall r c, entry (sv_a st') r c = entry (sv_a st) r (swap_idx c1 c2 c).
Proof.
  intros Hwf H. unfold exchange_column in H. inv_ok.
  match goal with H : mapM _ _ _ = Ok _ _ |- _ =>
    apply mapM_Ok in H as (-> & Hlen & Hall); [|intros; apply inert_swap_items] end.
  match goal with H : Schedule_exchange_column _ _ _ = Ok _ _ |- _ =>
    apply Schedule_exchange_column_Ok in H as [Ha _] end.
  cbn in Ha. rewrite Ha. clear Ha.
  destruct Hwf as [Hm Hw]. split.
  - split; [lia|]. intros r row Hrow.
    destruct (lookup_lt_is_Some_2 (sv_a st) r) as [row0 Hrow0].
    { apply lookup_lt_Some in Hrow. lia. }
    destruct (Hall r row0 Hrow0) as (y & Hy & Hswap).
    apply swap_items_Ok in Hswap as (_ & e1 & e2 & _ & _ & ->).
    rewrite Hrow in Hy. inversion Hy; subst.
    rewrite !length_insert. eauto.
  - intros r c. unfold entry at 2.
    destruct (sv_a st !! r) as [row0|] eqn:Hrow0.
    + destruct (Hall r row0 Hrow0) as (y & Hy & Hswap).
      apply swap_items_Ok in Hswap as (_ & e1 & e2 & Hx1 & Hx2 & ->).
      rewrite (entry_Some _ _ _ _ Hy).
      pose proof (lookup_lt_Some _ _ _ Hx1) as Hlt1.
      pose proof (lookup_lt_Some _ _ _ Hx2) as Hlt2.
      unfold swap_idx. destruct (decide (c = c2)) as [->|Hne2].
      * rewrite list_lookup_insert_eq by (rewrite length_insert; exact Hlt2).
        destruct (decide (c2 = c1)) as [->|]; now rewrite Hx1.
      * rewrite list_lookup_insert_ne by congruence.
        destruct (decide (c = c1)) as [->|Hne1].
        -- rewrite list_lookup_insert_eq by exact Hlt1. now rewrite Hx2.
        -- now rewrite list_lookup_insert_ne by congruence.
    + apply entry_out_row. rewrite Hlen. now apply lookup_ge_None.
Qed.
End MatrixOps.

(** ** Loops over ranges *)

Lemma hoare_for_range {St} (I : nat -> St -> Prop) (E : St -> Prop) lo hi
    (body : nat -> M St unit) :
  (forall j, lo <= j < hi -> hoare (I j) (body j) (fun _ => I (S j)) E) ->
  hoare (I lo) (for_each (xrange lo hi) body) (fun _ => I (Nat.max lo hi)) E.
Proof.
  unfold xrange. remember (hi - lo) as n eqn:Hn. revert lo Hn.
  induction n as [|n IH]; intros lo Hn Hb; cbn [seq for_each].
  - apply hoare_ret. intros s Hs. now replace (Nat.max lo hi) with lo by lia.
  - eapply hoare_bind; [apply Hb; lia|]. intros ?.
    replace (Nat.max lo hi) with (Nat.max (S lo) hi) by lia.
    apply IH; [lia|]. intros j Hj. apply Hb. lia.
Qed.

Lemma hoare_for_seq_rev {St} (I : nat -> St -> Prop) (E : St -> Prop) lo n
    (body : nat -> M St unit) :
  (forall j, lo <= j < lo + n -> hoare (I (S j)) (body j) (fun _ => I j) E) ->
  hoare (I (lo + n)) (for_each (rev (seq lo n)) body) (fun _ => I lo) E.
Proof.
  induction n as [|n IH]; intros Hb.
  - cbn. apply hoare_ret. intros s Hs. now replace (lo + 0) with lo in Hs by lia.
  - rewrite seq_S, rev_app_distr. cbn [rev app for_each].
    eapply hoare_bind.
    + replace (lo + S n) with (S (lo + n)) by lia. apply Hb. lia.
    + intros ?. apply IH. intros j Hj. apply Hb. lia.
Qed.

Lemma hoare_for_range_rev {St} (I : nat -> St -> Prop) (E : St -> Prop) lo hi
    (body : nat -> M St unit) :
  lo <= hi ->
  (forall j, lo <= j < hi -> hoare (I (S j)) (body j) (fun _ => I j) E) ->
  hoare (I hi) (for_each (rev (xrange lo hi)) body) (fun _ => I lo) E.
Proof.
  intros Hle Hb. unfold xrange.
  replace hi with (lo + (hi - lo)) at 1 by lia.
  apply hoare_for_seq_rev. intros j Hj. apply Hb. lia.
Qed.

(** ** Ones of a row in a range of columns *)

(** The columns from [lo] to [hi - 1] where row [r] of [a] has a one. *)
Definition ones_in (a : list (list bool)) (r lo hi : nat) : list nat :=
  filter (fun c => entry a r c = true) (seq lo (hi - lo)).

(** Every column of [a] has a one. *)
Definition cols_nonzero (l : nat) (a : list (list bool)) : Prop :=
  forall c, c < l -> exists r, entry a r c = true.

Lemma count_app (x y : list bool) : count (x ++ y) = count x + count y.
Proof. unfold count. now rewrite filter_app, length_app. Qed.

Lemma count_slice_seq (row : list bool) lo n :
  count (slice row lo (lo + n))
  = length (filter (fun c => default false (row !! c) = true) (seq lo n)).
Proof.
  unfold slice. induction n as [|n IH].
  - replace (lo + 0) with lo by lia. cbn [seq]. rewrite filter_nil.
    rewrite drop_ge; [reflexivity|]. rewrite length_take. lia.
  - rewrite seq_S, filter_app, length_app, <- IH.
    replace (lo + S n) with (S (lo + n)) by lia.
    destruct (row !! (lo + n)) as [b|] eqn:E.
    + rewrite (take_S_r _ _ _ E).
      rewrite drop_app_le by (rewrite length_take; apply lookup_lt_Some in E; lia).
      rewrite count_app. f_equal.
      rewrite filter_cons, filter_nil. rewrite E. cbn [default from_option].
      unfold count. rewrite filter_cons, filter_nil. unfold id.
      destruct b; repeat case_decide; try congruence; reflexivity.
    + apply lookup_ge_None in E.
      rewrite !take_ge by lia.
      rewrite filter_cons, filter_nil.
      rewrite (lookup_ge_None_2 row (lo + n)) by lia. cbn.
      rewrite decide_False by discriminate. cbn. lia.
Qed.

Lemma count_slice a r row lo hi :
  a !! r = Some row -> count (slice row lo hi) = length (ones_in a r lo hi).
Proof.
  intros Hrow. unfold ones_in.
  assert (forall c, entry a r c = default false (row !! c)) as He
    by (intros; now apply entry_Some).
  destruct (decide (lo <= hi)) as [Hle|Hgt].
  - replace hi with (lo + (hi - lo)) at 1 by lia. rewrite count_slice_seq.
    f_equal. apply list_filter_iff. intros c. now rewrite He.
  - replace (hi - lo) with 0 by lia. cbn [seq]. rewrite filter_nil.
    unfold slice. rewrite drop_ge; [reflexivity|]. rewrite length_take. lia.
Qed.

Lemma elem_of_ones_in a r lo hi c :
  c ∈ ones_in a r lo hi <-> lo <= c < hi /\ entry a r c = true.
Proof.
  unfold ones_in. rewrite list_elem_of_filter, elem_of_seq. intuition lia.
Qed.

Lemma NoDup_ones_in a r lo hi : NoDup (ones_in a r lo hi).
Proof. apply NoDup_filter, NoDup_seq. Qed.

Lemma length_filter_ne (xs : list nat) x :
  NoDup xs -> x ∈ xs -> S (length (filter (fun y => y <> x) xs)) = length xs.
Proof.
  induction xs as [|y xs IH]; intros Hnd Hx; [inversion Hx|].
  apply NoDup_cons in Hnd as [Hy Hnd]. rewrite filter_cons.
  destruct (decide (y = x)) as [->|Hne].
  - rewrite decide_False by auto. cbn [length]. f_equal.
    apply length_filter_Forall. apply Forall_forall. intros z Hz ->. contradiction.
  - rewrite decide_True by exact Hne. cbn [length]. f_equal. apply IH; [exact Hnd|].
    apply elem_of_cons in Hx as [->|Hx]; [contradiction | exact Hx].
Qed.

Lemma cols_nonzero_xor l a a' r1 r2 :
  r1 <> r2 ->
  (forall r c, entry a' r c
               = if decide (r = r1) then xorb (entry a r1 c) (entry a r2 c) else entry a r c) ->
  cols_nonzero l a -> cols_nonzero l a'.
Proof.
  intros Hne Hent Hcols c Hc. destruct (Hcols c Hc) as [r Hr].
  destruct (decide (r = r1)) as [->|Hr1].
  - destruct (entry a r2 c) eqn:E2.
    + exists r2. rewrite Hent. rewrite decide_False by congruence. exact E2.
    + exists r1. rewrite Hent. rewrite decide_True by reflexivity. now rewrite Hr, E2.
  - exists r. rewrite Hent. rewrite decide_False by exact Hr1. exact Hr.
Qed.

Lemma swap_idx_invol x y r : swap_idx x y (swap_idx x y r) = r.
Proof. unfold swap_idx. repeat case_decide; congruence. Qed.

Lemma cols_nonzero_swap_rows l a a' x y :
  (forall r c, entry a' r c = entry a (swap_idx x y r) c) ->
  cols_nonzero l a -> cols_nonzero l a'.
Proof.
  intros Hent Hcols c Hc. destruct (Hcols c Hc) as [r Hr].
  exists (swap_idx x y r). now rewrite Hent, swap_idx_invol.
Qed.

Lemma cols_nonzero_swap_cols l a a' x y :
  x < l -> y < l ->
  (forall r c, entry a' r c = entry a r (swap_idx x y c)) ->
  cols_nonzero l a -> cols_nonzero l a'.
Proof.
  intros Hx Hy Hent Hcols c Hc.
  destruct (Hcols (swap_idx x y c)) as [r Hr].
  { unfold swap_idx. repeat case_decide; lia. }
  exists r. now rewrite Hent.
Qed.

(** ** The row choice of phase I *)

Lemma inert_row_of r : inert (row_of r).
Proof. unfold row_of. apply inert_bind; [apply inert_get | intros; apply inert_lookup_or]. Qed.

Lemma inert_bit r c : inert (bit r c).
Proof. unfold bit. apply inert_bind; [apply inert_row_of | intros; apply inert_lookup_or]. Qed.

Lemma inert_one_columns {R : Runtime} r cols : inert (one_columns r cols).
Proof.
  induction cols as [|c cols IH]; cbn [one_columns]; [apply inert_ret|].
  apply inert_bind; [apply inert_bit|]. intros b.
  apply inert_bind; [exact IH|]. intros rest. apply inert_ret.
Qed.

Lemma inert_Ok {St A} (m : M St A) s x s' : inert m -> m s = Ok x s' -> s' = s.
Proof. intros H Hm. specialize (H s). now rewrite Hm in H. Qed.

Lemma fold_for_inert_Ok {St X B} (P : B -> Prop) (xs : list X) (body : X -> B -> M St B)
    (s : St) acc acc' s' :
  (forall x acc, inert (body x acc)) ->
  (forall x acc acc', x ∈ xs -> P acc -> body x acc s = Ok acc' s -> P acc') ->
  P acc -> fold_for xs body acc s = Ok acc' s' -> s' = s /\ P acc'.
Proof.
  intros Hin. revert acc. induction xs as [|x xs IH]; intros acc Hstep HP H; cbn [fold_for] in H.
  - inv_ok. auto.
  - inv_ok.
    match goal with H : body x acc s = Ok ?b ?s1 |- _ =>
      pose proof (inert_Ok _ _ _ _ (Hin x acc) H); subst s1; rename H into Hb end.
    eapply IH; [| |eassumption].
    + intros y acc1 acc2 Hy. apply Hstep. now constructor.
    + eapply Hstep; [constructor | exact HP | exact Hb].
Qed.

Section RowChoice.
Context {R : Runtime} {HR : RuntimeOk R}.
Variables l m : nat.

Lemma one_columns_Ok r cols st ones st' :
  one_columns r cols st = Ok ones st' ->
  st' = st /\ ones = filter (fun c => entry (sv_a st) r c = true) cols.
Proof.
  revert ones. induction cols as [|c cols IH]; intros ones H; cbn [one_columns] in H.
  - inv_ok. auto.
  - inv_ok.
    match goal with H : bit _ _ _ = Ok _ _ |- _ => apply bit_Ok in H as (-> & -> & _) end.
    match goal with H : one_columns _ _ _ = Ok _ _ |- _ => apply IH in H as [-> ->] end.
    split; [reflexivity|]. rewrite filter_cons.
    destruct (entry (sv_a st) r c); [now rewrite decide_True | now rewrite decide_False].
Qed.

(** What [rows_with_min_r] returns: every row of the list is a row of [V]
    whose number of ones in [V] is the [r] returned, and that is not zero. *)
Definition rows_with_r_spec (a : list (list bool)) (i u : nat)
    (res : option nat * list nat) : Prop :=
  forall x, x ∈ res.2 ->
    exists r row, res.1 = Some r /\ r <> 0 /\ i <= x < m /\
                  a !! x = Some row /\ count (slice row i (l - u)) = r.

Lemma rows_with_min_r_Ok i u st res st' :
  rows_with_min_r l m i u st = Ok res st' ->
  st' = st /\ rows_with_r_spec (sv_a st) i u res.
Proof.
  unfold rows_with_min_r. intros H.
  eapply (fold_for_inert_Ok (rows_with_r_spec (sv_a st) i u)); [ | | | exact H].
  - intros x [min_r rows]. apply inert_bind; [apply inert_row_of|]. intros row. cbn zeta.
    destruct (count _ =? 0); [apply inert_ret|].
    destruct min_r as [mr|]; [|apply inert_ret].
    destruct (_ <? _); [apply inert_ret|]. destruct (_ =? _); apply inert_ret.
  - intros x [min_r rows] acc' Hx%elem_of_seq HP Hb. inv_ok.
    match goal with H : row_of _ _ = Ok _ _ |- _ => apply row_of_Ok in H as [_ Hrow] end.
    match goal with H : context [count ?v =? 0] |- _ =>
      destruct (Nat.eqb_spec (count v) 0) as [E0|E0] end.
    { inv_ok. exact HP. }
    assert (forall y, y ∈ [x] ->
              exists r row, Some (count (slice x0 i (l - u))) = Some r /\ r <> 0 /\
                            i <= y < m /\ sv_a st !! y = Some row /\
                            count (slice row i (l - u)) = r) as Hsingle.
    { intros y Hy%list_elem_of_singleton. subst y. exists (count (slice x0 i (l - u))), x0.
      split; [reflexivity|]. split; [exact E0|]. split; [lia|].
      split; [exact Hrow | reflexivity]. }
    destruct min_r as [mr|].
    + match goal with H : context [?c <? mr] |- _ => destruct (Nat.ltb_spec c mr) end.
      { inv_ok. exact Hsingle. }
      match goal with H : context [?c =? mr] |- _ => destruct (Nat.eqb_spec c mr) as [Emr|Emr] end.
      * inv_ok. intros y [Hy|Hy]%elem_of_app.
        -- now apply HP.
        -- destruct (Hsingle y Hy) as (r & row & Hr & ?). exists r, row.
           split; [cbn; congruence | assumption].
      * inv_ok. exact HP.
    + inv_ok. exact Hsingle.
  - intros x Hx. inversion Hx.
Qed.

Lemma min_degree_row_Ok rows st row st' :
  min_degree_row m rows st = Ok row st' ->
  st' = st /\ forall x, row = Some x -> x ∈ rows.
Proof.
  unfold min_degree_row. intros H. inv_ok.
  match goal with H : fold_for _ _ _ _ = Ok ?res ?s1 |- _ =>
    assert (s1 = st /\ forall y, res.2 = Some y -> y ∈ rows) as [-> HP];
      [eapply (fold_for_inert_Ok (fun acc : nat * option nat => forall y, acc.2 = Some y -> y ∈ rows));
       [ | | | exact H] | ];
    [ | | | destruct res as [deg mr]; inv_ok; split; [reflexivity | exact HP] ] end.
  - intros x [min_degree min_row]. apply inert_bind; [apply inert_lookup_or|]. intros deg.
    destruct (_ <? _); apply inert_ret.
  - intros x [min_degree min_row] acc' Hx HP Hb. inv_ok.
    match goal with H : context [?d <? min_degree] |- _ => destruct (d <? min_degree) end; inv_ok.
    + intros y Hy. cbn in Hy. inversion Hy; subst. exact Hx.
    + exact HP.
  - discriminate.
Qed.

Lemma row_from_graph_Ok i u rows st row st' :
  row_from_graph l i u rows st = Ok row st' ->
  st' = st /\ forall x, row = Some x -> x ∈ rows.
Proof.
  unfold row_from_graph. intros H. inv_ok.
  match goal with H : mapM _ _ _ = Ok ?edges _ |- _ =>
    apply mapM_Ok in H as (-> & Hlen & Hall); [rename edges into es|] end.
  - split; [reflexivity|]. intros y Hy. inversion Hy; subst.
    apply largest_component_row_elem in E as (v1 & v2 & Hin).
    apply list_elem_of_lookup in Hin as [k Hk].
    destruct (lookup_lt_is_Some_2 rows k) as [row Hrow].
    { rewrite <- Hlen. now apply lookup_lt_Some in Hk. }
    destruct (Hall k row Hrow) as (e & He & Hrun). rewrite Hk in He. inversion He; subst e.
    inv_ok.
    match goal with H : match ?v with _ => _ end _ = Ok _ _ |- _ =>
      destruct v as [|? [|? [|]]]; try discriminate H; inversion H; subst end.
    apply list_elem_of_lookup. eauto.
  - intros row0. apply inert_bind; [apply inert_one_columns|]. intros vs.
    destruct vs as [|? [|? [|]]]; try apply inert_raise. apply inert_ret.
Qed.
End RowChoice.

(** ** Phase I of the decoding schedule *)

Lemma set_remove_Ok x ones st ones' st' :
  set_remove x ones st = Ok ones' st' ->
  st' = st /\ x ∈ ones /\ ones' = filter (fun y => y <> x) ones.
Proof.
  unfold set_remove. intros Hrun. case_bool_decide; inv_ok; auto.
Qed.

Lemma set_pop_from_Ok {R : Runtime} {HR : RuntimeOk R} ones x ones' st st' :
  set_pop_from ones st = Ok (x, ones') st' ->
  st' = st /\ x ∈ ones /\ ones' = filter (fun y => y <> x) ones.
Proof.
  unfold set_pop_from. destruct ones as [|y ys] eqn:E; intros H; [discriminate H|].
  rewrite <- E in *. inversion H; subst st'.
  split; [reflexivity|]. split; [|reflexivity]. apply set_pop_elem. now rewrite E.
Qed.

Ltac destruct_units := repeat match goal with x : unit |- _ => destruct x end.

Lemma elem_of_filter_ne (xs : list nat) x c :
  c ∈ filter (fun y => y <> x) xs <-> c <> x /\ c ∈ xs.
Proof. now rewrite list_elem_of_filter. Qed.

Lemma nil_of_no_elem {A} (xs : list A) : (forall x, x ∈ xs -> False) -> xs = [].
Proof. destruct xs as [|x xs]; [reflexivity|]. intros H. destruct (H x). constructor. Qed.

(** The matrix during phase I, before the turn for row and column [i] with
    [u] columns set aside: the rows above [i] are rows of the identity on the
    columns before [l - u], and the rows from [i] on are zero on the columns
    before [i]. *)
Definition phase1_inv (l m i u : nat) (a : list (list bool)) : Prop :=
  wf_matrix l m a /\
  (forall r c, r < i -> c < l - u -> entry a r c = Nat.eqb r c) /\
  (forall r c, i <= r -> c < i -> entry a r c = false).

Lemma phase1_inv_swap_cols l m i u a a' x y :
  i <= x < l - u -> i <= y < l - u ->
  wf_matrix l m a' ->
  (forall r c, entry a' r c = entry a r (swap_idx x y c)) ->
  phase1_inv l m i u a -> phase1_inv l m i u a'.
Proof.
  intros Hx Hy Hwf' Hent (Hwf & H1 & H2). split; [exact Hwf'|]. split.
  - intros r c Hr Hc. rewrite Hent. unfold swap_idx.
    destruct (decide (c = x)) as [->|Hcx]; [|destruct (decide (c = y)) as [->|Hcy]].
    + rewrite H1 by lia.
      destruct (Nat.eqb_spec r y), (Nat.eqb_spec r x); try lia; reflexivity.
    + rewrite H1 by lia.
      destruct (Nat.eqb_spec r y), (Nat.eqb_spec r x); try lia; reflexivity.
    + now apply H1.
  - intros r c Hr Hc. rewrite Hent, swap_idx_other by lia. now apply H2.
Qed.

Lemma phase1_inv_swap_rows l m i u a a' x :
  i <= x ->
  wf_matrix l m a' ->
  (forall r c, entry a' r c = entry a (swap_idx i x r) c) ->
  phase1_inv l m i u a -> phase1_inv l m i u a'.
Proof.
  intros Hx Hwf' Hent (Hwf & H1 & H2). split; [exact Hwf'|]. split.
  - intros r c Hr Hc. rewrite Hent, swap_idx_other by lia. now apply H1.
  - intros r c Hr Hc. rewrite Hent. apply H2; [|exact Hc].
    unfold swap_idx. repeat case_decide; lia.
Qed.

Section PhaseOne.
Context {R : Runtime} {HR : RuntimeOk R}.
Variables l m : nat.

(** A property of the solver state that the three operations keep; the
    lemmas of this section carry it through the loops. *)
Variable C : Solver -> Prop.
Hypothesis C_xor : forall m' r1 r2 st st',
  r1 <> r2 -> wf_matrix l m' (sv_a st) -> C st -> xor_row r1 r2 st = Ok tt st' -> C st'.
Hypothesis C_row : forall m' r1 r2 st st',
  wf_matrix l m' (sv_a st) -> C st -> exchange_row r1 r2 st = Ok tt st' -> C st'.
Hypothesis C_col : forall m' c1 c2 st st',
  c1 < l -> c2 < l -> wf_matrix l m' (sv_a st) -> C st ->
  exchange_column c1 c2 st = Ok tt st' -> C st'.

(** The loop [for row in xrange(lo, hi): if a[row][col]: xor_row(a, row, piv)]
    for a pivot row outside the range. *)
Lemma clear_column_Ok lo hi piv col st st' :
  piv < lo \/ hi <= piv ->
  wf_matrix l m (sv_a st) -> C st ->
  for_each (xrange lo hi) (fun row =>
    let* b := bit row col in
    if b then xor_row row piv else ret tt) st = Ok tt st' ->
  wf_matrix l m (sv_a st') /\ C st' /\
  forall r c, entry (sv_a st') r c
              = if decide (lo <= r < hi /\ entry (sv_a st) r col = true)
                then xorb (entry (sv_a st) r c) (entry (sv_a st) piv c)
                else entry (sv_a st) r c.
Proof.
  intros Hpiv Hwf0 HC0 Hrun. set (a0 := sv_a st) in *.
  set (I := fun j s =>
    wf_matrix l m (sv_a s) /\ C s /\
    forall r c, entry (sv_a s) r c
                = if decide (lo <= r < j /\ entry a0 r col = true)
                  then xorb (entry a0 r c) (entry a0 piv c)
                  else entry a0 r c).
  assert (I (Nat.max lo hi) st') as (Hwf & HC & Hent).
  { eapply (hoare_Ok_inv (I lo) _ (fun _ => I (Nat.max lo hi)) (fun _ => True));
      [|  | exact Hrun].
    - apply hoare_for_range. intros j Hj. apply hoare_Ok.
      intros s [] s' (Hwf & HC & Hent) Hb. inv_ok.
      match goal with H : bit _ _ _ = Ok _ _ |- _ => apply bit_Ok in H as (-> & -> & _ & _) end.
      assert (entry (sv_a s) j col = entry a0 j col) as Hjc.
      { rewrite Hent. rewrite decide_False by lia. reflexivity. }
      assert (forall c, entry (sv_a s) piv c = entry a0 piv c) as Hp.
      { intros c. rewrite Hent. rewrite decide_False by lia. reflexivity. }
      destruct (entry (sv_a s) j col) eqn:Ej.
      + pose proof Hb as Hb'.
        apply (xor_row_entries l m) in Hb' as (_ & _ & Hwf' & Hent'); [|exact Hwf].
        split; [exact Hwf'|]. split; [apply (C_xor m j piv s s'); auto; lia|].
        intros r c. rewrite Hent'.
        destruct (decide (r = j)) as [->|Hne].
        * rewrite decide_True by (split; [lia | congruence]).
          rewrite Hp. f_equal. rewrite Hent. rewrite decide_False by lia. reflexivity.
        * rewrite Hent. apply decide_ext. intuition lia.
      + inv_ok. split; [exact Hwf|]. split; [exact HC|]. intros r c. rewrite Hent.
        apply decide_ext. split; intros [H1 H2]; (split; [|exact H2]); [lia|].
        destruct (decide (r = j)) as [->|]; [congruence | lia].
    - split; [exact Hwf0|]. split; [exact HC0|]. intros r c.
      rewrite decide_False by lia. reflexivity. }
  split; [exact Hwf|]. split; [exact HC|]. intros r c. rewrite Hent.
  apply decide_ext. intuition lia.
Qed.

(** The loop that moves the ones of row [i] to the right end of [V]. [n] is
    the number of ones of the row after column [i]. *)
Lemma align_right_Ok i u column : forall ones st st',
  phase1_inv l m i u (sv_a st) -> C st ->
  entry (sv_a st) i i = true ->
  column < l - u ->
  NoDup ones ->
  (forall c, c ∈ ones <-> i < c <= column /\ entry (sv_a st) i c = true) ->
  (forall c, column < c < l - u -> entry (sv_a st) i c = true) ->
  align_right column i ones st = Ok tt st' ->
  phase1_inv l m i u (sv_a st') /\ C st' /\
  entry (sv_a st') i i = true /\
  forall c, i < c < l - u ->
    (entry (sv_a st') i c = true <-> l - u - (length ones + (l - u - 1 - column)) <= c).
Proof.
  induction column as [|column IH]; intros ones st st' Hinv HC Hii Hcol Hnd Hones Hright Hrun.
  - cbn [align_right] in Hrun. inv_ok.
    assert (ones = []) as ->.
    { apply nil_of_no_elem. intros c Hc%Hones. lia. }
    split; [exact Hinv|]. split; [exact HC|]. split; [exact Hii|].
    intros c Hc. split; [cbn [length]; lia|]. intros _. apply Hright. lia.
  - cbn [align_right] in Hrun.
    destruct ((i <? S column) && (0 <? length ones)) eqn:Econd.
    + apply andb_true_iff in Econd as [Hi%Nat.ltb_lt Hlen%Nat.ltb_lt].
      inv_ok.
      match goal with H : bit _ _ _ = Ok _ _ |- _ => apply bit_Ok in H as (-> & -> & _ & _) end.
      match goal with H : align_right _ _ ?o ?s = Ok _ _ |- _ =>
        rename o into ones1; rename s into st1; rename H into Hrest end.
      destruct (entry (sv_a st) i (S column)) eqn:Eb; cbn [negb] in *.
      * match goal with H : set_remove _ _ _ = Ok _ _ |- _ =>
          apply set_remove_Ok in H as (-> & Hin & ->) end.
        eapply IH in Hrest; [| exact Hinv | exact HC | exact Hii | lia | | | ].
        -- destruct Hrest as (Hinv' & HC' & Hii' & Hfin).
           split; [exact Hinv'|]. split; [exact HC'|]. split; [exact Hii'|].
           intros c Hc. rewrite (Hfin c Hc).
           pose proof (length_filter_ne ones (S column) Hnd Hin). lia.
        -- now apply NoDup_filter.
        -- intros c. rewrite elem_of_filter_ne, Hones. intuition lia.
        -- intros c Hc. destruct (decide (c = S column)) as [->|]; [exact Eb|].
           apply Hright. lia.
      * inv_ok.
        match goal with H : set_pop_from _ _ = Ok ?p _ |- _ => destruct p as [xp onesp] end.
        inv_ok.
        match goal with H : set_pop_from _ _ = Ok _ _ |- _ =>
          apply set_pop_from_Ok in H as (-> & Hin & ->) end.
        rename xp into x0. destruct_units.
        match goal with H : exchange_column _ _ _ = Ok _ _ |- _ => rename H into Hex end.
        pose proof Hin as Hx. apply Hones in Hx as [Hx1 Hx2].
        assert (x0 <> S column) as Hne by congruence.
        destruct Hinv as (Hwf & H1 & H2).
        pose proof Hex as Hex'.
        apply (exchange_column_entries l m) in Hex' as [Hwf' Hent]; [|exact Hwf].
        eapply IH in Hrest.
        -- destruct Hrest as (Hinv' & HC' & Hii' & Hfin).
           split; [exact Hinv'|]. split; [exact HC'|]. split; [exact Hii'|].
           intros c Hc. rewrite (Hfin c Hc).
           pose proof (length_filter_ne ones x0 Hnd Hin). lia.
        -- eapply (phase1_inv_swap_cols l m i u (sv_a st) _ (S column) x0);
             [lia | lia | exact Hwf' | exact Hent | exact (conj Hwf (conj H1 H2))].
        -- eapply (C_col m (S column) x0 st); eauto; lia.
        -- rewrite Hent, swap_idx_other by lia. exact Hii.
        -- lia.
        -- now apply NoDup_filter.
        -- intros c. rewrite elem_of_filter_ne, Hones, Hent. unfold swap_idx.
           repeat case_decide; subst; intuition (try lia; try congruence).
        -- intros c Hc. rewrite Hent. unfold swap_idx.
           repeat case_decide; subst; try lia; [exact Hx2 | apply Hright; lia].
    + inv_ok.
      assert (ones = []) as ->.
      { apply andb_false_iff in Econd as [Hi%Nat.ltb_ge | Hlen%Nat.ltb_ge].
        - apply nil_of_no_elem. intros c Hc%Hones. lia.
        - destruct ones; [reflexivity | cbn in Hlen; lia]. }
      split; [exact Hinv|]. split; [exact HC|]. split; [exact Hii|].
      intros c Hc. cbn [length]. split.
      * intros Ec. destruct (decide (c <= S column)) as [Hle|]; [|lia].
        exfalso. assert (c ∈ @nil nat) as Hin by (apply Hones; split; [lia | exact Ec]).
        inversion Hin.
      * intros Hle. apply Hright. lia.
Qed.

(** One turn of phase I that ends without an exception. *)
Lemma phase1_body_Ok i u st r st' :
  phase1_inv l m i u (sv_a st) -> C st -> i + u < l ->
  phase1_body l m i u st = Ok r st' ->
  exists rr, r = Some rr /\ 1 <= rr /\ i + u + rr <= l /\ i < m /\
             phase1_inv l m (i + 1) (u + (rr - 1)) (sv_a st') /\ C st'.
Proof.
  intros Hinv HC Hiu Hrun. unfold phase1_body in Hrun. inv_ok.
  match goal with H : rows_with_min_r _ _ _ _ _ = Ok ?p _ |- _ => destruct p as [r0 rows] end.
  inv_ok. destruct_units.
  match goal with H : rows_with_min_r _ _ _ _ _ = Ok _ _ |- _ =>
    apply (rows_with_min_r_Ok l m) in H as [-> Hrows] end.
  match goal with H : (if bool_decide (r0 = Some 2) then _ else _) _ = Ok ?x ?s |- _ =>
    rename x into row;
    assert (s = st /\ forall y, row = Some y -> y ∈ rows) as [-> Hrow];
    [destruct (bool_decide (r0 = Some 2));
       [apply (row_from_graph_Ok l) in H | apply (min_degree_row_Ok m) in H]; exact H
    | clear H] end.
  match goal with H : (if bool_decide (r0 = Some 0) then _ else _) _ = Ok _ ?s |- _ =>
    assert (s = st) as ->;
    [destruct (bool_decide (r0 = Some 0)); [discriminate H | now inversion H] | clear H] end.
  match goal with H : exchange_row _ _ _ = Ok _ ?s |- _ =>
    rename s into st1; rename H into Hex end.
  pose proof Hinv as (Hwf & H1 & H2).
  pose proof Hex as Hex'.
  apply (exchange_row_entries l m) in Hex' as (y & -> & Him & Hym & Hwf1 & Hent1);
    [|exact Hwf].
  destruct (Hrows y (Hrow y eq_refl)) as (rr & rowy & Hr0 & Hrr & Hy & Hrowy & Hcount).
  cbn in Hr0. subst r0.
  assert (C st1) as HC1 by exact (C_row m i (Some y) st st1 Hwf HC Hex).
  assert (phase1_inv l m i u (sv_a st1)) as Hinv1.
  { eapply (phase1_inv_swap_rows l m i u (sv_a st) _ y); eauto; lia. }
  (* the ones of the new row i *)
  match goal with H : one_columns _ _ _ = Ok ?o ?s |- _ =>
    apply one_columns_Ok in H as [-> ->] end.
  match goal with H : bit _ _ _ = Ok _ _ |- _ => apply bit_Ok in H as (-> & -> & _ & _) end.
  change (filter (fun c => entry (sv_a st1) i c = true) (xrange i (l - u)))
    with (ones_in (sv_a st1) i i (l - u)) in *.
  assert (length (ones_in (sv_a st1) i i (l - u)) = rr) as Hlen.
  { rewrite <- Hcount. rewrite (count_slice (sv_a st) y rowy) by exact Hrowy.
    f_equal. unfold ones_in. apply list_filter_iff. intros c.
    rewrite Hent1, swap_idx_l. reflexivity. }
  assert (rr <= l - u - i) as Hle.
  { rewrite <- Hlen. unfold ones_in.
    etransitivity; [apply length_filter|]. now rewrite length_seq. }
  match goal with H : align_right _ _ ?o ?s = Ok _ ?s3 |- _ =>
    rename o into ones2; rename s into st2; rename s3 into st3; rename H into Halign end.
  assert (phase1_inv l m i u (sv_a st2) /\ C st2 /\ entry (sv_a st2) i i = true /\
          NoDup ones2 /\ S (length ones2) = rr /\
          forall c, c ∈ ones2 <-> i < c <= l - u - 1 /\ entry (sv_a st2) i c = true)
    as (Hinv2 & HC2 & Hii2 & Hnd2 & Hlen2 & Hones2).
  { destruct (entry (sv_a st1) i i) eqn:Eii; cbn [negb] in *.
    - match goal with H : set_remove _ _ _ = Ok _ _ |- _ =>
        apply set_remove_Ok in H as (-> & Hin & ->) end.
      split; [exact Hinv1|]. split; [exact HC1|]. split; [exact Eii|].
      split; [apply NoDup_filter, NoDup_ones_in|]. split.
      + rewrite <- Hlen. apply length_filter_ne; [apply NoDup_ones_in | exact Hin].
      + intros c. rewrite elem_of_filter_ne, elem_of_ones_in. intuition lia.
    - inv_ok.
      match goal with H : set_pop_from _ _ = Ok ?p _ |- _ => destruct p as [xp onesp] end.
      inv_ok. destruct_units.
      match goal with H : set_pop_from _ _ = Ok _ _ |- _ =>
        apply set_pop_from_Ok in H as (-> & Hin & ->) end.
      match goal with H : exchange_column _ _ _ = Ok _ _ |- _ => rename H into Hexc end.
      pose proof Hin as Hx. apply elem_of_ones_in in Hx as [Hx1 Hx2].
      assert (xp <> i) as Hne by congruence.
      pose proof Hexc as Hexc'.
      apply (exchange_column_entries l m) in Hexc' as [Hwf2 Hent2]; [|apply Hinv1].
      split.
      { eapply (phase1_inv_swap_cols l m i u (sv_a st1) _ i xp); eauto; lia. }
      split; [apply (C_col m i xp st1); [lia | lia | apply Hinv1 | exact HC1 | exact Hexc]|].
      split; [rewrite Hent2, swap_idx_l; exact Hx2|].
      split; [apply NoDup_filter, NoDup_ones_in|]. split.
      + rewrite <- Hlen. apply length_filter_ne; [apply NoDup_ones_in | exact Hin].
      + intros c. rewrite elem_of_filter_ne, elem_of_ones_in, Hent2. unfold swap_idx.
        repeat case_decide; subst; intuition (try lia; try congruence). }
  apply (align_right_Ok i u) in Halign as (Hinv3 & HC3 & Hii3 & Hfin);
    [| exact Hinv2 | exact HC2 | exact Hii2 | lia | exact Hnd2 | exact Hones2 | intros c Hc; lia].
  match goal with H : for_each _ _ _ = Ok _ _ |- _ => rename H into Hclear end.
  apply clear_column_Ok in Hclear as (Hwf4 & HC4 & Hent4);
    [| lia | apply Hinv3 | exact HC3].
  destruct Hinv3 as (Hwf3 & H13 & H23).
  exists rr. split; [reflexivity|]. split; [lia|]. split; [lia|]. split; [lia|].
  split; [|exact HC4]. split; [exact Hwf4|]. split.
  - intros r c Hr Hc. rewrite Hent4. rewrite decide_False by lia.
    destruct (decide (r = i)) as [->|Hri].
    + destruct (Nat.eqb_spec i c) as [<-|Hic]; [exact Hii3|].
      destruct (decide (c < i)) as [Hlt|Hge]; [apply H23; lia|].
      destruct (entry (sv_a st3) i c) eqn:Ec; [|reflexivity].
      apply Hfin in Ec; lia.
    + apply H13; lia.
  - intros r c Hr Hc. rewrite Hent4. case_decide as Hd.
    + destruct Hd as [Hd1 Hd2]. destruct (decide (c = i)) as [->|Hci].
      * now rewrite Hd2, Hii3.
      * rewrite (H23 r c), (H23 i c) by lia. reflexivity.
    + destruct (decide (c = i)) as [->|Hci].
      * destruct (decide (r < m)) as [Hrm|Hrm].
        -- destruct (entry (sv_a st3) r i) eqn:Eri; [|reflexivity].
           exfalso. apply Hd. split; [lia | reflexivity].
        -- apply entry_out_row. destruct Hwf3 as [-> _]. lia.
      * apply H23; lia.
Qed.

(** [prepass] only adds rows to other rows. *)
Lemma prepass_Ok st st' :
  wf_matrix l m (sv_a st) -> C st -> prepass st = Ok tt st' ->
  wf_matrix l m (sv_a st') /\ C st'.
Proof.
  intros Hwf HC Hrun. unfold prepass in Hrun. inv_ok.
  set (I := fun s => wf_matrix l m (sv_a s) /\ C s).
  eapply (hoare_Ok_inv I _ (fun _ => I) (fun _ => True)); [| split; eassumption | exact Hrun].
  apply hoare_for_each. intros i Hi. apply hoare_for_each. intros j Hj%elem_of_seq.
  apply hoare_Ok. intros s [] s' [Hwf1 HC1] Hb. inv_ok.
  repeat match goal with H : row_of _ _ = Ok _ _ |- _ => apply row_of_Ok in H as [-> ?] end.
  match goal with H : bitarray_xor _ _ _ = Ok _ _ |- _ =>
    apply bitarray_xor_Ok in H as (-> & _ & ->) end.
  match goal with H : (if ?b then _ else _) _ = Ok _ _ |- _ => destruct b; rename H into Hx end.
  - split.
    + now apply (xor_row_entries l m) in Hx as (_ & _ & Hwf' & _).
    + apply (C_xor m j i s s'); auto. lia.
  - inv_ok. split; assumption.
Qed.

(** The loop of phase I: when it ends without an exception, [i + u = l],
    the first [i] rows are rows of the identity on the first [i] columns and
    the rows after them are zero there. *)
Lemma phase1_Ok fuel : forall i u st res st',
  phase1_inv l m i u (sv_a st) -> C st -> i + u <= l -> i <= m ->
  phase1 l fuel m i u st = Ok res st' ->
  phase1_inv l m res.1 res.2 (sv_a st') /\ C st' /\ res.1 + res.2 = l /\
  i <= res.1 <= m /\ u <= res.2.
Proof.
  induction fuel as [|fuel IH]; intros i u st res st' Hinv HC Hiu Him Hrun;
    cbn [phase1] in Hrun; destruct (Nat.ltb_spec (i + u) l) as [Hlt|Hge];
    try discriminate Hrun.
  - inv_ok. split; [exact Hinv|]. split; [exact HC|]. cbn. lia.
  - inv_ok.
    match goal with H : phase1_body _ _ _ _ _ = Ok _ _ |- _ =>
      apply phase1_body_Ok in H as (rr & -> & Hrr & Hle & Hi & Hinv' & HC'); auto end.
    cbn [add_r_minus_one] in *. inv_ok.
    match goal with H : phase1 _ _ _ _ _ _ = Ok _ _ |- _ =>
      apply IH in H as (Hinv2 & HC2 & Hsum & Hi2 & Hu2); auto; try lia end.
    split; [exact Hinv2|]. split; [exact HC2|]. lia.
  - inv_ok. split; [exact Hinv|]. split; [exact HC|]. cbn. lia.
Qed.


(** *** Phases II to IV *)

(** The search for a row with a one in column [column]: either nothing
    changes or the row [column] changes places with a later row. *)
Lemma find_and_exchange_Ok column rows : forall st st',
  (forall r, r ∈ rows -> column < r) ->
  wf_matrix l m (sv_a st) -> C st ->
  find_and_exchange column rows st = Ok tt st' ->
  wf_matrix l m (sv_a st') /\ C st' /\
  (st' = st \/
   exists x, column < x /\
     forall r c, entry (sv_a st') r c = entry (sv_a st) (swap_idx column x r) c).
Proof.
  induction rows as [|row rows IH]; intros st st' Hrows Hwf HC Hrun;
    cbn [find_and_exchange] in Hrun.
  - inv_ok. auto.
  - inv_ok.
    match goal with H : bit _ _ _ = Ok _ _ |- _ => apply bit_Ok in H as (-> & -> & _ & _) end.
    destruct (entry (sv_a st) row column).
    + pose proof Hrun as Hrun'.
      apply (exchange_row_entries l m) in Hrun' as (x & Hx & _ & _ & Hwf' & Hent);
        [|exact Hwf].
      inversion Hx; subst x.
      split; [exact Hwf'|]. split; [exact (C_row m _ _ _ _ Hwf HC Hrun)|].
      right. exists row. split; [apply Hrows; constructor | exact Hent].
    + apply IH; auto. intros r Hr. apply Hrows. now constructor.
Qed.

(** The matrix from phase II on, for the [i] that phase I ends with, when
    the columns before [c] are done: zero above the diagonal in the first
    [i] columns, ones on the diagonal and zeros below it in the columns
    before [c]. *)
Definition tri_inv (i c : nat) (a : list (list bool)) : Prop :=
  wf_matrix l m a /\
  (forall r c', r < c' -> c' < i -> entry a r c' = false) /\
  (forall c', c' < c -> entry a c' c' = true) /\
  (forall r c', c' < c -> c' < r -> entry a r c' = false).

Lemma tri_inv_of_phase1 i u a :
  i + u = l -> phase1_inv l m i u a -> tri_inv i i a.
Proof.
  intros Hiu (Hwf & H1 & H2). split; [exact Hwf|]. split; [|split].
  - intros r c' Hr Hc. rewrite H1 by lia. apply Nat.eqb_neq. lia.
  - intros c' Hc. rewrite H1 by lia. apply Nat.eqb_refl.
  - intros r c' Hc Hr. destruct (decide (r < i)) as [Hri|Hri].
    + rewrite H1 by lia. apply Nat.eqb_neq. lia.
    + apply H2; lia.
Qed.

(** One column of phase II. *)
Lemma phase2_column_Ok i c st st' :
  i <= c -> tri_inv i c (sv_a st) -> C st ->
  (let* b := bit c c in
   (if negb b then
      find_and_exchange c (xrange (c + 1) m) ;;;
      let* b := bit c c in
      if negb b
      then raise (RaptorR10DecodingScheduleException "U lower is of less rank than u.")
      else ret tt
    else ret tt) ;;;
   for_each (xrange (c + 1) m) (fun row =>
     let* b := bit row c in
     if b then xor_row row c else ret tt)) st = Ok tt st' ->
  tri_inv i (S c) (sv_a st') /\ C st' /\ c < m.
Proof.
  intros Hic Hinv HC Hrun. inv_ok. destruct_units.
  match goal with H : bit c c _ = Ok _ _ |- _ =>
    apply bit_Ok in H as (-> & -> & Hcm & _) end.
  assert (c < m) as Hc by (destruct Hinv as [[<- _] _]; exact Hcm).
  match goal with H : for_each _ _ ?s = Ok _ _ |- _ => rename s into st1; rename H into Hclear end.
  assert (tri_inv i c (sv_a st1) /\ C st1 /\ entry (sv_a st1) c c = true)
    as ((Hwf1 & Hu1 & Hd1 & Hl1) & HC1 & Hcc).
  { destruct (entry (sv_a st) c c) eqn:Ecc; cbn [negb] in *.
    - inv_ok. auto.
    - inv_ok. destruct_units.
      match goal with H : find_and_exchange _ _ _ = Ok _ ?s |- _ =>
        rename s into st2;
        apply find_and_exchange_Ok in H as (Hwf2 & HC2 & Hcase);
          [| intros r Hr%elem_of_seq; lia | apply Hinv | exact HC] end.
      match goal with H : bit c c _ = Ok _ _ |- _ =>
        apply bit_Ok in H as (-> & -> & _ & _) end.
      destruct (entry (sv_a st2) c c) eqn:Ecc2; cbn [negb] in *; [|discriminate].
      inv_ok. split; [|auto].
      destruct Hcase as [-> | (x & Hx & Hent)]; [exact Hinv|].
      destruct Hinv as (Hwf & Hu & Hd & Hl).
      split; [exact Hwf2|]. split; [|split].
      + intros r c' Hr Hc'. rewrite Hent, swap_idx_other by lia. now apply Hu.
      + intros c' Hc'. rewrite Hent, swap_idx_other by lia. now apply Hd.
      + intros r c' Hc' Hr. rewrite Hent. apply Hl; [exact Hc'|].
        unfold swap_idx. repeat case_decide; lia. }
  apply clear_column_Ok in Hclear as (Hwf' & HC' & Hent); [| lia | exact Hwf1 | exact HC1].
  split; [|auto]. split; [exact Hwf'|]. split; [|split].
  - intros r c' Hr Hc'. rewrite Hent. rewrite decide_False by lia. now apply Hu1.
  - intros c' Hc'. rewrite Hent. rewrite decide_False by lia.
    destruct (decide (c' = c)) as [->|]; [exact Hcc | apply Hd1; lia].
  - intros r c' Hc' Hr. rewrite Hent. case_decide as Hd.
    + destruct Hd as [Hd1' Hd2]. destruct (decide (c' = c)) as [->|Hne].
      * now rewrite Hd2, Hcc.
      * rewrite (Hl1 r c'), (Hl1 c c') by lia. reflexivity.
    + destruct (decide (c' = c)) as [->|Hne]; [|apply Hl1; lia].
      destruct (decide (r < m)) as [Hrm|Hrm].
      * destruct (entry (sv_a st1) r c) eqn:Erc; [|reflexivity].
        exfalso. apply Hd. split; [lia | reflexivity].
      * apply entry_out_row. destruct Hwf1 as [-> _]. lia.
Qed.

Lemma phase2_Ok i u st st' :
  i + u = l -> tri_inv i i (sv_a st) -> C st ->
  phase2 l m u st = Ok tt st' ->
  tri_inv i l (sv_a st') /\ C st' /\ (0 < u -> l <= m).
Proof.
  intros Hiu Hinv HC Hrun. unfold phase2 in Hrun.
  replace (l - u) with i in Hrun by lia.
  set (I := fun c s => tri_inv i c (sv_a s) /\ C s /\ (i < c -> c <= m)).
  assert (I (Nat.max i l) st') as (Hinv' & HC' & Hm).
  { eapply (hoare_Ok_inv (I i) _ (fun _ => I (Nat.max i l)) (fun _ => True));
      [| | exact Hrun].
    - apply hoare_for_range. intros c Hc. apply hoare_Ok.
      intros s [] s' (Hinv1 & HC1 & _) Hb.
      apply (phase2_column_Ok i) in Hb as (Hinv2 & HC2 & Hcm);
        [| lia | exact Hinv1 | exact HC1].
      split; [exact Hinv2|]. split; [exact HC2 | lia].
    - split; [exact Hinv|]. split; [exact HC | lia]. }
  replace (Nat.max i l) with l in * by lia.
  split; [exact Hinv'|]. split; [exact HC'|]. intros Hu. apply Hm. lia.
Qed.

(** Phase III clears the ones above the diagonal in the rows from [i] on. *)
Lemma phase3_Ok i u st st' :
  i + u = l -> tri_inv i l (sv_a st) -> C st ->
  phase3 l i u st = Ok tt st' ->
  tri_inv i l (sv_a st') /\ C st' /\
  forall r c, i <= r -> r < c -> c < l -> entry (sv_a st') r c = false.
Proof.
  intros Hiu Hinv HC Hrun. unfold phase3 in Hrun.
  replace (l - u) with i in Hrun by lia.
  set (I := fun c s =>
    tri_inv i l (sv_a s) /\ C s /\
    forall r c', c <= c' -> c' < l -> i <= r -> r < c' -> entry (sv_a s) r c' = false).
  assert (I i st') as (Hinv' & HC' & Hup).
  { eapply (hoare_Ok_inv (I l) _ (fun _ => I i) (fun _ => True)); [| | exact Hrun].
    - apply hoare_for_range_rev; [lia|]. intros cc Hcc. apply hoare_Ok.
      intros s [] s' ((Hwf & Hu & Hd & Hl) & HC1 & Hup) Hb.
      apply clear_column_Ok in Hb as (Hwf' & HC2 & Hent); [| lia | exact Hwf | exact HC1].
      assert (forall c, entry (sv_a s) cc c = Nat.eqb cc c) as Hrow.
      { intros c. destruct (Nat.eqb_spec cc c) as [<-|Hne]; [apply Hd; lia|].
        destruct (decide (c < cc)); [apply Hl; lia|].
        destruct (decide (c < l)); [apply Hup; lia|].
        apply (entry_out_col l m); [exact Hwf | lia]. }
      assert (forall r c, c <> cc -> entry (sv_a s') r c = entry (sv_a s) r c) as Hsame.
      { intros r c Hne. rewrite Hent. case_decide; [|reflexivity].
        rewrite Hrow. destruct (Nat.eqb_spec cc c); [congruence|]. apply xorb_false_r. }
      split; [|split; [exact HC2|]].
      + split; [exact Hwf'|]. split; [|split].
        * intros r c' Hr Hc'. rewrite Hsame by lia. now apply Hu.
        * intros c' Hc'. destruct (decide (c' = cc)) as [->|Hne].
          -- rewrite Hent. rewrite decide_False by lia. apply Hd. lia.
          -- rewrite Hsame by exact Hne. now apply Hd.
        * intros r c' Hc' Hr. destruct (decide (c' = cc)) as [->|Hne].
          -- rewrite Hent. rewrite decide_False by lia. apply Hl; lia.
          -- rewrite Hsame by exact Hne. now apply Hl.
      + intros r c' Hc1 Hc2 Hr1 Hr2. destruct (decide (c' = cc)) as [->|Hne].
        * rewrite Hent. case_decide as Hdec.
          -- destruct Hdec as [_ Htrue]. rewrite Htrue, Hrow, Nat.eqb_refl. reflexivity.
          -- destruct (entry (sv_a s) r cc) eqn:E; [|reflexivity].
             exfalso. apply Hdec. split; [lia | reflexivity].
        * rewrite Hsame by exact Hne. apply Hup; lia.
    - split; [exact Hinv|]. split; [exact HC|]. intros; lia. }
  split; [exact Hinv'|]. split; [exact HC'|]. intros r c Hr Hrc Hc. apply Hup; lia.
Qed.

(** Phase IV on the first [l] rows: the loops clear the ones of the first
    [i] rows in the columns from [i] on, with the rows of the identity that
    stand below them. *)
Lemma phase4_loops_Ok i u st st' :
  i + u = l -> wf_matrix l l (sv_a st) -> C st ->
  (forall r c, i <= r < l -> entry (sv_a st) r c = Nat.eqb r c) ->
  (forall r c, r < i -> c < i -> entry (sv_a st) r c = Nat.eqb r c) ->
  for_each (xrange 0 i) (fun row =>
    for_each (xrange (l - u) l) (fun column =>
      let* b := bit row column in
      if b then xor_row row column else ret tt)) st = Ok tt st' ->
  sv_a st' = matrix_identity l /\ C st'.
Proof.
  intros Hiu Hwf HC Hid Hul Hrun. replace (l - u) with i in Hrun by lia.
  set (I := fun r0 s =>
    wf_matrix l l (sv_a s) /\ C s /\
    (forall r c, i <= r < l -> entry (sv_a s) r c = Nat.eqb r c) /\
    (forall r c, r < i -> c < i -> entry (sv_a s) r c = Nat.eqb r c) /\
    (forall r c, r < r0 -> i <= c < l -> entry (sv_a s) r c = false)).
  assert (I (Nat.max 0 i) st') as (Hwf' & HC' & Hid' & Hul' & Hur').
  { eapply (hoare_Ok_inv (I 0) _ (fun _ => I (Nat.max 0 i)) (fun _ => True)); [| | exact Hrun].
    - apply hoare_for_range. intros r0 Hr0.
      set (J := fun c s => I r0 s /\ forall c', i <= c' < c -> entry (sv_a s) r0 c' = false).
      eapply hoare_conseq with (P' := J i) (Q' := fun _ => J (Nat.max i l)) (E' := fun _ => True).
      + apply hoare_for_range. intros c Hc. apply hoare_Ok.
        intros s [] s' ((Hwf1 & HC1 & Hid1 & Hul1 & Hur1) & Hdone) Hb. inv_ok.
        match goal with H : bit _ _ _ = Ok _ _ |- _ => apply bit_Ok in H as (-> & -> & _ & _) end.
        destruct (entry (sv_a s) r0 c) eqn:Eb.
        * pose proof Hb as Hb'.
          apply (xor_row_entries l l) in Hb' as (_ & _ & Hwf2 & Hent); [|exact Hwf1].
          assert (forall r c', entry (sv_a s') r c'
                    = if decide (r = r0 /\ c' = c) then false else entry (sv_a s) r c') as Hnew.
          { intros r c'. rewrite Hent, (Hid1 c c') by lia.
            destruct (decide (r = r0)) as [->|Hne].
            - destruct (Nat.eqb_spec c c') as [<-|Hcc].
              + rewrite decide_True by auto. now rewrite Eb.
              + rewrite decide_False by (intros [_ ?]; congruence). apply xorb_false_r.
            - rewrite decide_False by (intros [? _]; congruence). reflexivity. }
          split; [split; [exact Hwf2|]; split; [apply (C_xor l r0 c s s'); auto; lia|];
                  split; [|split]|].
          -- intros r c' Hr. rewrite Hnew, decide_False by lia. now apply Hid1.
          -- intros r c' Hr Hc'. rewrite Hnew, decide_False by lia. now apply Hul1.
          -- intros r c' Hr Hc'. rewrite Hnew, decide_False by lia. now apply Hur1.
          -- intros c' Hc'. rewrite Hnew. case_decide; [reflexivity|]. apply Hdone. lia.
        * inv_ok. split; [exact (conj Hwf1 (conj HC1 (conj Hid1 (conj Hul1 Hur1))))|].
          intros c' Hc'. destruct (decide (c' = c)) as [->|]; [exact Eb | apply Hdone; lia].
      + intros s HI. split; [exact HI|]. intros; lia.
      + intros [] s ((Hwf1 & HC1 & Hid1 & Hul1 & Hur1) & Hdone).
        replace (Nat.max i l) with l in Hdone by lia.
        split; [exact Hwf1|]. split; [exact HC1|]. split; [exact Hid1|]. split; [exact Hul1|].
        intros r c Hr Hc. destruct (decide (r = r0)) as [->|]; [apply Hdone; lia|].
        apply Hur1; lia.
      + auto.
    - split; [exact Hwf|]. split; [exact HC|]. split; [exact Hid|]. split; [exact Hul|].
      intros; lia. }
  replace (Nat.max 0 i) with i in Hur' by lia.
  split; [|exact HC'].
  apply (matrix_ext l l); [exact Hwf' | apply wf_identity |].
  intros r c Hr Hc. rewrite entry_identity by assumption.
  destruct (decide (r < i)) as [Hri|Hri]; [|apply Hid'; lia].
  destruct (decide (c < i)) as [Hci|Hci]; [now apply Hul'|].
  rewrite Hur' by lia. symmetry. apply Nat.eqb_neq. lia.
Qed.
End PhaseOne.

(** In a matrix that meets the invariant of phase I and has a one in every
    column, [V] has a row with a one as long as [i + u < l]: column [i] has
    a one, and it is not in the rows above [i]. *)
Lemma phase1_inv_nonzero_row l m i u a :
  phase1_inv l m i u a -> cols_nonzero l a -> i + u < l ->
  exists x row, i <= x < m /\ a !! x = Some row /\ count (slice row i (l - u)) <> 0.
Proof.
  intros (Hwf & H1 & H2) Hcols Hiu.
  destruct (Hcols i ltac:(lia)) as [x Hx].
  assert (i <= x) as Hix.
  { destruct (decide (i <= x)) as [|Hn]; [assumption|].
    rewrite H1 in Hx by lia. apply Nat.eqb_eq in Hx. lia. }
  assert (x < m) as Hxm.
  { destruct (decide (x < m)) as [|Hn]; [assumption|].
    rewrite entry_out_row in Hx; [discriminate|]. destruct Hwf as [-> _]. lia. }
  destruct (lookup_lt_is_Some_2 a x) as [row Hrow]; [destruct Hwf as [-> _]; lia|].
  exists x, row. split; [lia|]. split; [exact Hrow|].
  rewrite (count_slice a x row) by exact Hrow.
  assert (i ∈ ones_in a x i (l - u)) as Hin by (apply elem_of_ones_in; split; [lia | exact Hx]).
  destruct (ones_in a x i (l - u)); [inversion Hin | cbn; lia].
Qed.

(** [rows_with_min_r] on a matrix with [m] rows: it returns, and when [V]
    has a row with a one it returns a number of ones and a row. *)
Lemma rows_with_min_r_total l m i u st :
  length (sv_a st) = m ->
  exists r rows,
    rows_with_min_r l m i u st = Ok (r, rows) st /\
    ((exists x row, i <= x < m /\ sv_a st !! x = Some row /\
                    count (slice row i (l - u)) <> 0) ->
     exists r', r = Some r' /\ 1 <= r' /\ rows <> []).
Proof.
  intros Hlen. unfold rows_with_min_r, xrange.
  assert (forall n lo acc,
    (n <> 0 -> lo + n <= m) ->
    (acc.1 = None \/ exists r', acc.1 = Some r' /\ 1 <= r' /\ acc.2 <> []) ->
    exists r rows,
      fold_for (seq lo n)
        (fun row_index '(min_r, rows) =>
           let* row := row_of row_index in
           let v_row := slice row i (l - u) in
           let r := count v_row in
           if r =? 0 then ret (min_r, rows)
           else
             match min_r with
             | None => ret (Some r, [row_index])
             | Some mr =>
                 if r <? mr then ret (Some r, [row_index])
                 else if r =? mr then ret (min_r, rows ++ [row_index])
                 else ret (min_r, rows)
             end) acc st = Ok (r, rows) st /\
      (r = None \/ exists r', r = Some r' /\ 1 <= r' /\ rows <> []) /\
      (((exists r', acc.1 = Some r') \/
        exists x row, lo <= x < lo + n /\ sv_a st !! x = Some row /\
                      count (slice row i (l - u)) <> 0) ->
       exists r', r = Some r')) as Hgen.
  { induction n as [|n IH]; intros lo [min_r rows] Hle Hacc; cbn [seq fold_for].
    - exists min_r, rows. split; [reflexivity|]. split; [exact Hacc|].
      intros [H|(x & row & Hx & _)]; [exact H | lia].
    - specialize (Hle ltac:(discriminate)).
      destruct (lookup_lt_is_Some_2 (sv_a st) lo ltac:(lia)) as [row Hrow].
      unfold bind at 1. unfold bind at 1. rewrite (row_of_Some st lo row Hrow). cbn beta zeta.
      set (cnt := count (slice row i (l - u))).
      assert (forall acc1,
        (acc1.1 = None \/ exists r', acc1.1 = Some r' /\ 1 <= r' /\ acc1.2 <> []) ->
        ((exists r', min_r = Some r') \/ cnt <> 0 -> exists r', acc1.1 = Some r') ->
        exists r rows0,
          fold_for (seq (S lo) n)
            (fun row_index '(min_r, rows) =>
               let* row := row_of row_index in
               let v_row := slice row i (l - u) in
               let r := count v_row in
               if r =? 0 then ret (min_r, rows)
               else
                 match min_r with
                 | None => ret (Some r, [row_index])
                 | Some mr =>
                     if r <? mr then ret (Some r, [row_index])
                     else if r =? mr then ret (min_r, rows ++ [row_index])
                     else ret (min_r, rows)
                 end) acc1 st = Ok (r, rows0) st /\
          (r = None \/ exists r', r = Some r' /\ 1 <= r' /\ rows0 <> []) /\
          (((exists r', min_r = Some r') \/
            exists x row, lo <= x < lo + S n /\ sv_a st !! x = Some row /\
                          count (slice row i (l - u)) <> 0) ->
           exists r', r = Some r')) as Hstep.
      { intros acc1 Hacc1 Hsome.
        destruct (IH (S lo) acc1 ltac:(lia) Hacc1) as (r & rows0 & Hrun & Hr & Himp).
        exists r, rows0. split; [exact Hrun|]. split; [exact Hr|].
        intros [H|(x & rowx & Hx & Hrowx & Hcnt)].
        - apply Himp. left. apply Hsome. now left.
        - destruct (decide (x = lo)) as [->|Hne].
          + apply Himp. left. apply Hsome. right. rewrite Hrow in Hrowx.
            inversion Hrowx; subst. exact Hcnt.
          + apply Himp. right. exists x, rowx. split; [lia|]. split; assumption. }
      destruct (Nat.eqb_spec cnt 0) as [E0|E0].
      + apply Hstep; [exact Hacc|]. intros [H|H]; [exact H | contradiction].
      + destruct min_r as [mr|].
        * destruct (Nat.ltb_spec cnt mr).
          -- apply Hstep; cbn; [right; exists cnt; repeat split; [lia | discriminate] | eauto].
          -- destruct (Nat.eqb_spec cnt mr).
             ++ apply Hstep; cbn; [|eauto]. right. exists mr.
                destruct Hacc as [Hacc | (r' & Hr' & Hge & _)]; [discriminate Hacc|].
                cbn in Hr'. inversion Hr'; subst. repeat split; [lia|].
                intros Hnil. apply app_eq_nil in Hnil as [_ Hnil]. discriminate.
             ++ apply Hstep; [exact Hacc | cbn; eauto].
        * apply Hstep; cbn; [right; exists cnt; repeat split; [lia | discriminate] | eauto]. }
  destruct (Hgen (m - i) i (None, []) ltac:(lia) ltac:(now left))
    as (r & rows & Hrun & Hr & Himp).
  exists r, rows. split; [exact Hrun|].
  intros (x & row & Hx & Hrow & Hcnt).
  destruct Himp as [r' ->]; [right; exists x, row; split; [lia | split; assumption]|].
  destruct Hr as [Hr | (r2 & Hr2 & Hge & Hne)]; [discriminate Hr|].
  exists r2. auto.
Qed.

(** ** The matrix that [a] assembles *)

Lemma inert_unit {A} (m : M unit A) : inert m.
Proof. intros []. destruct (m tt) as [x []|e []|]; reflexivity. Qed.

Lemma py_index_Some n z i : py_index n z = Some i -> i < n.
Proof.
  unfold py_index.
  destruct ((0 <=? z)%Z && (z <? Z.of_nat n)%Z) eqn:E1.
  - apply andb_true_iff in E1 as [H1%Z.leb_le H2%Z.ltb_lt]. intros H. inversion H. lia.
  - destruct ((- Z.of_nat n <=? z)%Z && (z <? 0)%Z) eqn:E2; [|discriminate].
    apply andb_true_iff in E2 as [H1%Z.leb_le H2%Z.ltb_lt]. intros H. inversion H. lia.
Qed.

Lemma py_index_nonneg n z : (0 <= z < Z.of_nat n)%Z -> py_index n z = Some (Z.to_nat z).
Proof.
  intros [H1 H2]. unfold py_index.
  now rewrite (proj2 (Z.leb_le _ _) H1), (proj2 (Z.ltb_lt _ _) H2).
Qed.

Lemma getitem_Ok {St A} (xs : list A) z x (s s' : St) :
  getitem xs z s = Ok x s' ->
  s' = s /\ exists i, py_index (length xs) z = Some i /\ xs !! i = Some x.
Proof.
  unfold getitem. destruct (py_index (length xs) z) as [i|]; [|discriminate].
  intros H. inv_ok. eauto.
Qed.

Lemma setitem_Ok {St A} (xs : list A) z v ys (s s' : St) :
  setitem xs z v s = Ok ys s' ->
  s' = s /\ exists i, py_index (length xs) z = Some i /\ ys = <[i:=v]> xs.
Proof.
  unfold setitem. destruct (py_index (length xs) z) as [i|]; [|discriminate].
  intros H. inv_ok. eauto.
Qed.

Lemma set_bit_Ok {St} (mx : list (list bool)) b i mx' (s s' : St) :
  set_bit mx b i s = Ok mx' s' ->
  s' = s /\ exists r c row,
    mx !! r = Some row /\ py_index (length row) i = Some c /\
    mx' = <[r := <[c := true]> row]> mx.
Proof.
  unfold set_bit. intros H. inv_ok.
  match goal with H : getitem _ _ _ = Ok _ _ |- _ =>
    apply getitem_Ok in H as (-> & r & Hr & Hrow) end.
  match goal with H : setitem _ _ _ _ = Ok _ _ |- _ =>
    apply setitem_Ok in H as (-> & c & Hc & ->) end.
  match goal with H : setitem _ _ _ _ = Ok _ _ |- _ =>
    apply setitem_Ok in H as (-> & r' & Hr' & ->) end.
  rewrite Hr in Hc. inversion Hc; subst c. split; [reflexivity|]. eauto 6.
Qed.

Lemma elem_of_xrangeZ lo hi z : z ∈ xrangeZ lo hi <-> (lo <= z < hi)%Z.
Proof.
  unfold xrangeZ. rewrite list_elem_of_fmap. split.
  - intros (i & -> & Hi%elem_of_seq). lia.
  - intros H. exists (Z.to_nat (z - lo)). split; [lia|]. apply elem_of_seq. lia.
Qed.

Lemma lookup_xrangeZ lo hi j :
  j < Z.to_nat (hi - lo) -> xrangeZ lo hi !! j = Some (lo + Z.of_nat j)%Z.
Proof.
  intros H. unfold xrangeZ. rewrite list_lookup_fmap, lookup_seq_lt by exact H. reflexivity.
Qed.

Lemma fold_for_prefix_Ok {St X B} (I : list X -> B -> Prop) (xs : list X)
    (body : X -> B -> M St B) :
  (forall done x rest acc acc1 s s1,
     xs = done ++ x :: rest -> I done acc -> body x acc s = Ok acc1 s1 ->
     I (done ++ [x]) acc1) ->
  forall acc s acc' s', I [] acc -> fold_for xs body acc s = Ok acc' s' -> I xs acc'.
Proof.
  intros Hstep.
  assert (forall rest done acc s acc' s',
            xs = done ++ rest -> I done acc ->
            fold_for rest body acc s = Ok acc' s' -> I xs acc') as Hgen.
  { induction rest as [|x rest IH]; intros done acc s acc' s' Hxs HI Hrun;
      cbn [fold_for] in Hrun.
    - inv_ok. rewrite app_nil_r in Hxs. now subst.
    - inv_ok. eapply (IH (done ++ [x])); [| |eassumption].
      + now rewrite <- app_assoc.
      + eapply Hstep; eauto. }
  intros acc s acc' s'. apply (Hgen xs []). reflexivity.
Qed.

(** A matrix whose rows all have [n] bits, by entries. *)
Definition rows_of_width (n : nat) (mx : list (list bool)) : Prop :=
  forall r row, mx !! r = Some row -> length row = n.

Lemma set_bit_entries {St} n (mx : list (list bool)) b i mx' (s s' : St) :
  rows_of_width n mx -> (0 <= i < Z.of_nat n)%Z ->
  set_bit mx b i s = Ok mx' s' ->
  length mx' = length mx /\ rows_of_width n mx' /\
  (exists r, entry mx' r (Z.to_nat i) = true) /\
  forall r c, entry mx r c = true -> entry mx' r c = true.
Proof.
  intros Hw Hi H. apply set_bit_Ok in H as (_ & r & c & row & Hrow & Hc & ->).
  pose proof (Hw r row Hrow) as Hlen. rewrite Hlen, py_index_nonneg in Hc by exact Hi.
  inversion Hc; subst c. pose proof (lookup_lt_Some _ _ _ Hrow) as Hr.
  split; [now rewrite length_insert|]. split; [|split].
  - intros r' row' H'. destruct (decide (r' = r)) as [->|Hne].
    + rewrite list_lookup_insert_eq in H' by exact Hr. inversion H'; subst.
      now rewrite length_insert.
    + rewrite list_lookup_insert_ne in H' by congruence. eauto.
  - exists r. unfold entry. rewrite list_lookup_insert_eq by exact Hr.
    rewrite list_lookup_insert_eq by lia. reflexivity.
  - intros r' c' H'. unfold entry in *. destruct (decide (r' = r)) as [->|Hne].
    + rewrite list_lookup_insert_eq by exact Hr. rewrite Hrow in H'.
      destruct (decide (c' = Z.to_nat i)) as [->|Hnc].
      * rewrite list_lookup_insert_eq by lia. reflexivity.
      * now rewrite list_lookup_insert_ne by congruence.
    + now rewrite list_lookup_insert_ne by congruence.
Qed.

(** [ldpc k s] has [s] rows of [k] bits and a one in every column. *)
Lemma ldpc_Ok k s mx (st st' : unit) :
  ldpc k s st = Ok mx st' ->
  length mx = Z.to_nat s /\ rows_of_width (Z.to_nat k) mx /\
  forall c, c < Z.to_nat k -> exists r, entry mx r c = true.
Proof.
  unfold ldpc. intros H.
  set (I := fun (done : list Z) (mx : list (list bool)) =>
    length mx = Z.to_nat s /\ rows_of_width (Z.to_nat k) mx /\
    forall i, i ∈ done -> exists r, entry mx r (Z.to_nat i) = true).
  assert (I (xrangeZ 0 k) mx) as (Hlen & Hw & Hcols).
  { eapply (fold_for_prefix_Ok I); [| |exact H].
    - intros done i rest acc acc1 s0 s1 Hxs (Hlen & Hw & Hcols) Hb.
      assert (0 <= i < k)%Z as Hi.
      { apply (elem_of_xrangeZ 0 k). rewrite Hxs. apply elem_of_app. right. constructor. }
      inv_ok.
      repeat match goal with H : set_bit _ _ _ _ = Ok _ _ |- _ =>
        apply (set_bit_entries (Z.to_nat k)) in H as (? & ? & ? & ?); [| assumption | lia] end.
      split; [congruence|]. split; [assumption|].
      intros j [Hj|Hj%list_elem_of_singleton]%elem_of_app.
      + destruct (Hcols j Hj) as [r Hr]. exists r. auto.
      + subst j. assumption.
    - split; [now rewrite length_replicate|]. split.
      + intros r row Hr. apply lookup_replicate in Hr as [-> _]. now rewrite length_replicate.
      + intros i Hi. inversion Hi. }
  split; [exact Hlen|]. split; [exact Hw|]. intros c Hc.
  destruct (Hcols (Z.of_nat c)) as [r Hr]; [apply elem_of_xrangeZ; lia|].
  exists r. now rewrite Nat2Z.id in Hr.
Qed.

Lemma lookup_matrix_identity n j :
  j < n -> matrix_identity n !! j = Some (map (fun c => Nat.eqb j c) (seq 0 n)).
Proof.
  intros H. unfold matrix_identity. rewrite list_lookup_fmap, lookup_seq_lt by exact H.
  reflexivity.
Qed.

Lemma getitem_nat_Ok {St A} (xs : list A) j x (s s' : St) :
  getitem xs (Z.of_nat j) s = Ok x s' -> xs !! j = Some x.
Proof.
  intros H. apply getitem_Ok in H as (_ & i & Hi & Hx).
  destruct (decide (j < length xs)) as [Hlt|Hge].
  - rewrite py_index_nonneg in Hi by lia. inversion Hi; subst. now rewrite Nat2Z.id in Hx.
  - unfold py_index in Hi.
    destruct ((0 <=? Z.of_nat j)%Z && (Z.of_nat j <? Z.of_nat (length xs))%Z) eqn:E1.
    + apply andb_true_iff in E1 as [_ H2%Z.ltb_lt]. lia.
    + destruct ((- Z.of_nat (length xs) <=? Z.of_nat j)%Z && (Z.of_nat j <? 0)%Z) eqn:E2;
        [|discriminate].
      apply andb_true_iff in E2 as [_ H2%Z.ltb_lt]. lia.
Qed.

Lemma entry_app_l (x y : list (list bool)) r c : r < length x -> entry (x ++ y) r c = entry x r c.
Proof. intros H. unfold entry. now rewrite lookup_app_l. Qed.

Lemma entry_app_r (x y : list (list bool)) r c :
  entry (x ++ y) (length x + r) c = entry y r c.
Proof.
  unfold entry. rewrite lookup_app_r by lia. now replace (length x + r - length x) with r by lia.
Qed.

Section MatrixAFacts.
Context {T : Tables} {HT : TablesOk T}.
Variable p : Params.
Variable l' : Z.
Hypothesis Hp : params_ok p.
Hypothesis Hl' : p_l_prime p = Some l'.

Let nk := Z.to_nat (p_k p).
Let ns := Z.to_nat (p_s p).
Let nh := Z.to_nat (p_h p).

Lemma l_of_params : Z.to_nat (p_l p) = nk + ns + nh.
Proof. destruct Hp. unfold nk, ns, nh, MIN_K in *. lia. Qed.

(** The rows of [ldpc_section]: [s] rows of [l] bits; every column before
    [k] has a one, and row [j] has a one in column [k + j]. *)
Lemma ldpc_section_Ok x (st st' : unit) :
  ldpc_section p st = Ok x st' ->
  length x = ns /\ rows_of_width (nk + ns + nh) x /\
  (forall c, c < nk -> exists r, r < ns /\ entry x r c = true) /\
  (forall j, j < ns -> entry x j (nk + j) = true).
Proof.
  unfold ldpc_section. intros H. inv_ok.
  match goal with H : ldpc _ _ _ = Ok ?mx _ |- _ =>
    apply ldpc_Ok in H as (Hlen & Hw & Hcols); rename mx into lm end.
  match goal with H : mapM _ _ _ = Ok _ _ |- _ =>
    apply mapM_Ok in H as (_ & Hlenx & Hall); [|intros; apply inert_unit] end.
  rewrite length_xrangeZ, Z.sub_0_r in Hlenx. fold ns in Hlenx, Hlen. fold nk in Hw, Hcols.
  assert (forall j, j < ns -> exists lrow,
            lm !! j = Some lrow /\
            x !! j = Some (lrow ++ map (fun c => Nat.eqb j c) (seq 0 ns) ++ replicate nh false))
    as Hrows.
  { intros j Hj. destruct (Hall j (Z.of_nat j)) as (y & Hy & Hrun).
    { rewrite lookup_xrangeZ by (rewrite Z.sub_0_r; exact Hj). reflexivity. }
    inv_ok.
    repeat match goal with H : getitem _ (Z.of_nat j) _ = Ok _ _ |- _ =>
      apply getitem_nat_Ok in H end.
    match goal with H : matrix_identity _ !! j = Some _ |- _ =>
      rewrite lookup_matrix_identity in H by exact Hj; inversion H; subst; clear H end.
    match goal with H : matrix_zeros _ _ !! j = Some _ |- _ =>
      apply lookup_replicate in H as [-> _] end.
    eexists. split; [eassumption|]. exact Hy. }
  split; [exact Hlenx|]. split; [|split].
  - intros r row Hr.
    destruct (Hrows r) as (lrow & Hl & Hx); [apply lookup_lt_Some in Hr; lia|].
    rewrite Hr in Hx. inversion Hx; subst.
    rewrite !length_app, length_map, length_seq, length_replicate, (Hw r lrow Hl). lia.
  - intros c Hc. destruct (Hcols c Hc) as [r Hr]. exists r.
    assert (r < ns) as Hrs.
    { destruct (decide (r < ns)) as [|Hn]; [assumption|].
      rewrite entry_out_row in Hr by lia. discriminate. }
    split; [exact Hrs|].
    destruct (Hrows r Hrs) as (lrow & Hl & Hx).
    rewrite (entry_Some _ _ _ _ Hx). rewrite (entry_Some _ _ _ _ Hl) in Hr.
    rewrite lookup_app_l by (rewrite (Hw r lrow Hl); exact Hc). exact Hr.
  - intros j Hj. destruct (Hrows j Hj) as (lrow & Hl & Hx).
    rewrite (entry_Some _ _ _ _ Hx).
    rewrite lookup_app_r by (rewrite (Hw j lrow Hl); lia).
    rewrite (Hw j lrow Hl). replace (nk + j - nk) with j by lia.
    rewrite lookup_app_l by (rewrite length_map, length_seq; exact Hj).
    rewrite list_lookup_fmap, lookup_seq_lt by exact Hj. cbn. now rewrite Nat.eqb_refl.
Qed.

Lemma half_Ok k S H H_HALF mx (st st' : unit) :
  half k S H H_HALF st = Ok mx st' ->
  length mx = Z.to_nat H /\ rows_of_width (Z.to_nat (k + S)) mx.
Proof.
  unfold half. intros Hrun.
  apply mapM_Ok in Hrun as (_ & Hlen & Hall); [|intros; apply inert_unit].
  rewrite length_xrangeZ, Z.sub_0_r in Hlen. split; [exact Hlen|].
  intros r row Hr.
  destruct (lookup_lt_is_Some_2 (xrangeZ 0 H) r) as [h Hh].
  { rewrite length_xrangeZ, Z.sub_0_r, <- Hlen. now apply lookup_lt_Some in Hr. }
  destruct (Hall r h Hh) as (y & Hy & Hfold). rewrite Hr in Hy. inversion Hy; subst y.
  eapply (fold_for_prefix_Ok (fun _ (ba : list bool) => length ba = Z.to_nat (k + S)));
    [| |exact Hfold].
  - intros done j rest acc acc1 s s1 _ Hacc Hb. cbn beta in Hb. inv_ok.
    match goal with H : (if ?b then _ else _) _ = Ok _ _ |- _ => destruct b end.
    + match goal with H : setitem _ _ _ _ = Ok _ _ |- _ =>
        apply setitem_Ok in H as (_ & i & _ & ->) end.
      now rewrite length_insert.
    + inv_ok. exact Hacc.
  - now rewrite length_replicate.
Qed.

(** The rows of [hdpc_section]: [h] rows of [l] bits; row [j] has a one in
    column [k + s + j]. *)
Lemma hdpc_section_Ok y (st st' : unit) :
  hdpc_section p st = Ok y st' ->
  length y = nh /\ rows_of_width (nk + ns + nh) y /\
  (forall j, j < nh -> entry y j (nk + ns + j) = true).
Proof.
  unfold hdpc_section. intros H. inv_ok.
  match goal with H : half _ _ _ _ _ = Ok ?mx _ |- _ =>
    apply half_Ok in H as (Hlen & Hw); rename mx into hm end.
  match goal with H : mapM _ _ _ = Ok _ _ |- _ =>
    apply mapM_Ok in H as (_ & Hleny & Hall); [|intros; apply inert_unit] end.
  rewrite length_xrangeZ, Z.sub_0_r in Hleny. fold nh in Hleny, Hlen.
  assert (Z.to_nat (p_k p + p_s p) = nk + ns) as Hks
    by (destruct Hp; unfold nk, ns, MIN_K in *; lia).
  rewrite Hks in Hw.
  assert (forall j, j < nh -> exists hrow,
            hm !! j = Some hrow /\
            y !! j = Some (hrow ++ map (fun c => Nat.eqb j c) (seq 0 nh)))
    as Hrows.
  { intros j Hj. destruct (Hall j (Z.of_nat j)) as (z & Hz & Hrun).
    { rewrite lookup_xrangeZ by (rewrite Z.sub_0_r; exact Hj). reflexivity. }
    inv_ok.
    repeat match goal with H : getitem _ (Z.of_nat j) _ = Ok _ _ |- _ =>
      apply getitem_nat_Ok in H end.
    match goal with H : matrix_identity _ !! j = Some _ |- _ =>
      rewrite lookup_matrix_identity in H by exact Hj; inversion H; subst; clear H end.
    eexists. split; [eassumption|]. exact Hz. }
  split; [exact Hleny|]. split.
  - intros r row Hr.
    destruct (Hrows r) as (hrow & Hh & Hy); [apply lookup_lt_Some in Hr; lia|].
    rewrite Hr in Hy. inversion Hy; subst.
    rewrite !length_app, length_map, length_seq, (Hw r hrow Hh). lia.
  - intros j Hj. destruct (Hrows j Hj) as (hrow & Hh & Hy).
    rewrite (entry_Some _ _ _ _ Hy).
    rewrite lookup_app_r by (rewrite (Hw j hrow Hh); lia).
    rewrite (Hw j hrow Hh). replace (nk + ns + j - (nk + ns)) with j by lia.
    rewrite list_lookup_fmap, lookup_seq_lt by exact Hj. cbn. now rewrite Nat.eqb_refl.
Qed.

Lemma lt_section_Ok symbols z (st st' : unit) :
  lt_section p symbols st = Ok z st' ->
  length z = length symbols /\ rows_of_width (nk + ns + nh) z.
Proof.
  unfold lt_section. intros H.
  apply mapM_Ok in H as (_ & Hlen & Hall); [|intros; apply inert_unit].
  split; [exact Hlen|]. intros r row Hr.
  destruct (lookup_lt_is_Some_2 symbols r) as [[id sym] Hsym].
  { rewrite <- Hlen. now apply lookup_lt_Some in Hr. }
  destruct (Hall r _ Hsym) as (ba & Hba & Hrun). rewrite Hr in Hba. inversion Hba; subst ba.
  destruct (lt_row_weight p l' Hp Hl' id) as (d & a0 & b0 & ba & _ & _ & Hrow & _ & Hlenba & _).
  destruct st. rewrite Hrow in Hrun. inversion Hrun; subst. now rewrite <- l_of_params.
Qed.

(** The matrix of [a()]: [s + h + len(symbols)] rows of [l] bits, with a
    one in every column. *)
Lemma a_Ok symbols mx (st st' : unit) :
  a p symbols st = Ok mx st' ->
  wf_matrix (Z.to_nat (p_l p)) (ns + nh + length symbols) mx /\
  cols_nonzero (Z.to_nat (p_l p)) mx.
Proof.
  unfold a. intros H. inv_ok.
  match goal with H : ldpc_section _ _ = Ok ?v _ |- _ =>
    apply ldpc_section_Ok in H as (Hlx & Hwx & Hcx & Hix); rename v into x end.
  match goal with H : hdpc_section _ _ = Ok ?v _ |- _ =>
    apply hdpc_section_Ok in H as (Hly & Hwy & Hiy); rename v into y end.
  match goal with H : lt_section _ _ _ = Ok ?v _ |- _ =>
    apply lt_section_Ok in H as (Hlz & Hwz); rename v into z end.
  rewrite l_of_params. split.
  - split; [rewrite !length_app; lia|].
    intros r row [Hr|[_ [Hr|[_ Hr]]%lookup_app_Some]]%lookup_app_Some; eauto.
  - intros c Hc.
    destruct (decide (c < nk)) as [Hk|Hk]; [|destruct (decide (c < nk + ns)) as [Hs|Hs]].
    + destruct (Hcx c Hk) as (r & Hr & Hrc). exists r.
      rewrite entry_app_l by lia. exact Hrc.
    + exists (c - nk). rewrite entry_app_l by lia.
      replace c with (nk + (c - nk)) at 2 by lia. apply Hix. lia.
    + exists (length x + (c - nk - ns)). rewrite entry_app_r, entry_app_l by lia.
      replace c with (nk + ns + (c - nk - ns)) at 2 by lia. apply Hiy. lia.
Qed.
End MatrixAFacts.

(** ** Exceptions that a call does not raise *)

(** The exception of the raise statement in phase I. *)
Definition no_nonzero_row_error : exn :=
  RaptorR10DecodingScheduleException "No nonzero row to choose from v".

(** [m] does not end by raising [e]. *)
Definition never_raises {St A} (e : exn) (m : M St A) : Prop :=
  forall s s', m s <> Raise e s'.

Lemma nr_ret {St A} e (x : A) : never_raises (St := St) e (ret x).
Proof. intros s s'. discriminate. Qed.

Lemma nr_get {St} e : never_raises (St := St) e get.
Proof. intros s s'. discriminate. Qed.

Lemma nr_put {St} e (x : St) : never_raises e (put x).
Proof. intros s s'. discriminate. Qed.

Lemma nr_modify {St} e (f : St -> St) : never_raises e (modify f).
Proof. intros s s'. discriminate. Qed.

Lemma nr_raise {St A} e e' : e' <> e -> never_raises (St := St) (A := A) e (raise e').
Proof. intros Hne s s' H. inversion H. contradiction. Qed.

Lemma nr_lookup_or {St A} e e' (o : option A) :
  e' <> e -> never_raises (St := St) e (lookup_or e' o).
Proof. intros Hne. destruct o; [apply nr_ret | now apply nr_raise]. Qed.

Lemma nr_bind_post {St A B} e (m : M St A) (k : A -> M St B) (Q : A -> Prop) :
  never_raises e m -> (forall s x s', m s = Ok x s' -> Q x) ->
  (forall x, Q x -> never_raises e (k x)) -> never_raises e (bind m k).
Proof.
  intros Hm HQ Hk s s'. unfold bind. destruct (m s) as [x s1|e1 s1|] eqn:E.
  - apply Hk. eapply HQ. exact E.
  - intros H. inversion H; subst. exact (Hm s s' E).
  - discriminate.
Qed.

Lemma nr_bind {St A B} e (m : M St A) (k : A -> M St B) :
  never_raises e m -> (forall x, never_raises e (k x)) -> never_raises e (bind m k).
Proof. intros Hm Hk. apply (nr_bind_post e m k (fun _ => True)); auto. Qed.

Lemma nr_for_each {St X} e (xs : list X) (body : X -> M St unit) :
  (forall x, never_raises e (body x)) -> never_raises e (for_each xs body).
Proof.
  intros Hb. induction xs as [|x xs IH]; cbn [for_each]; [apply nr_ret|].
  apply nr_bind; [apply Hb | intros; exact IH].
Qed.

Lemma nr_fold_for {St X B} e (xs : list X) (body : X -> B -> M St B) acc :
  (forall x acc, never_raises e (body x acc)) -> never_raises e (fold_for xs body acc).
Proof.
  intros Hb. revert acc. induction xs as [|x xs IH]; intros acc; cbn [fold_for];
    [apply nr_ret|].
  apply nr_bind; [apply Hb | intros; apply IH].
Qed.

Lemma nr_mapM {St X B} e (f : X -> M St B) (xs : list X) :
  (forall x, never_raises e (f x)) -> never_raises e (mapM f xs).
Proof.
  intros Hf. induction xs as [|x xs IH]; cbn [mapM]; [apply nr_ret|].
  apply nr_bind; [apply Hf|]. intros y. apply nr_bind; [exact IH|]. intros ys. apply nr_ret.
Qed.

(** The steps of a proof that a composed call does not raise
    [no_nonzero_row_error]. *)
Ltac nr_step :=
  first
    [ apply nr_ret | apply nr_get | apply nr_put | apply nr_modify
    | apply nr_raise; discriminate
    | apply nr_lookup_or; discriminate
    | apply nr_bind; [|intros]
    | apply nr_for_each; intros
    | apply nr_fold_for; intros
    | apply nr_mapM; intros
    | match goal with
      | |- never_raises _ (if ?b then _ else _) => destruct b
      | |- never_raises _ (match ?x with _ => _ end) => destruct x
      end ].

Ltac nr := unfold no_nonzero_row_error; repeat nr_step.

Section NeverNoNonzeroRow.
Context {R : Runtime}.
Variable l : nat.

Let e0 := no_nonzero_row_error.

Lemma nr_row_of r : never_raises e0 (row_of r).
Proof. unfold row_of, e0. nr. Qed.

Lemma nr_bit r c : never_raises e0 (bit r c).
Proof. unfold bit. apply nr_bind; [apply nr_row_of|]. intros. unfold e0. nr. Qed.

Lemma nr_swap_items {St A} (xs : list A) i j : never_raises (St := St) e0 (swap_items xs i j).
Proof. unfold swap_items, e0. nr. Qed.

Lemma nr_xor_row r1 r2 : never_raises e0 (xor_row r1 r2).
Proof.
  unfold xor_row, Schedule_xor, bitarray_xor.
  apply nr_bind; [apply nr_row_of|]. intros. apply nr_bind; [apply nr_row_of|]. intros.
  unfold e0. nr.
Qed.

Lemma nr_exchange_column c1 c2 : never_raises e0 (exchange_column c1 c2).
Proof.
  unfold exchange_column, Schedule_exchange_column.
  apply nr_bind; [apply nr_get|]. intros st.
  apply nr_bind; [apply nr_mapM; intros; apply nr_swap_items|]. intros.
  apply nr_bind; [apply nr_put|]. intros.
  apply nr_bind; [apply nr_get|]. intros.
  apply nr_bind; [apply nr_swap_items|]. intros. apply nr_put.
Qed.

Lemma nr_exchange_row r1 r2 : never_raises e0 (exchange_row r1 r2).
Proof.
  unfold exchange_row, Schedule_exchange_row.
  apply nr_bind; [apply nr_get|]. intros st.
  apply nr_bind; [unfold e0; nr|]. intros.
  apply nr_bind; [unfold e0; nr|]. intros.
  apply nr_bind; [unfold e0; nr|]. intros.
  apply nr_bind; [apply nr_put|]. intros.
  apply nr_bind; [apply nr_get|]. intros.
  apply nr_bind; [apply nr_swap_items|]. intros.
  apply nr_bind; [apply nr_put|]. intros.
  apply nr_bind; [apply nr_get|]. intros.
  apply nr_bind; [apply nr_swap_items|]. intros. apply nr_put.
Qed.

Lemma nr_clear_column lo hi col piv :
  never_raises e0 (for_each (xrange lo hi) (fun row =>
    let* b := bit row col in if b then xor_row row piv else ret tt)).
Proof.
  apply nr_for_each. intros row. apply nr_bind; [apply nr_bit|]. intros [|];
    [apply nr_xor_row | apply nr_ret].
Qed.

Lemma nr_prepass : never_raises e0 prepass.
Proof.
  unfold prepass. apply nr_bind; [apply nr_get|]. intros st.
  apply nr_for_each. intros i. apply nr_for_each. intros j.
  apply nr_bind; [apply nr_row_of|]. intros aj.
  apply nr_bind; [apply nr_row_of|]. intros ai.
  apply nr_bind; [unfold bitarray_xor, e0; nr|]. intros new_row.
  destruct (_ <? _); [apply nr_xor_row | apply nr_ret].
Qed.

Lemma nr_one_columns r cols : never_raises e0 (one_columns r cols).
Proof.
  induction cols as [|c cols IH]; cbn [one_columns]; [apply nr_ret|].
  apply nr_bind; [apply nr_bit|]. intros b.
  apply nr_bind; [exact IH|]. intros. apply nr_ret.
Qed.

Lemma nr_set_remove x ones : never_raises e0 (set_remove x ones).
Proof. unfold set_remove, e0. nr. Qed.

Lemma nr_set_pop_from ones : never_raises e0 (set_pop_from ones).
Proof. unfold set_pop_from, e0. nr. Qed.

Lemma nr_align_right column i : forall ones, never_raises e0 (align_right column i ones).
Proof.
  induction column as [|column IH]; intros ones; cbn [align_right]; [apply nr_ret|].
  destruct (_ && _); [|apply nr_ret].
  apply nr_bind; [apply nr_bit|]. intros b.
  apply nr_bind; [|intros; apply IH].
  destruct (negb b); [|apply nr_set_remove].
  apply nr_bind; [apply nr_set_pop_from|]. intros [x ones'].
  apply nr_bind; [apply nr_exchange_column|]. intros. apply nr_ret.
Qed.

Lemma nr_rows_with_min_r m i u : never_raises e0 (rows_with_min_r l m i u).
Proof.
  unfold rows_with_min_r. apply nr_fold_for. intros x [min_r rows].
  apply nr_bind; [apply nr_row_of|]. intros row. cbn zeta. unfold e0. nr.
Qed.

Lemma nr_min_degree_row m rows : never_raises e0 (min_degree_row m rows).
Proof. unfold min_degree_row, e0. nr. Qed.

Lemma nr_row_from_graph i u rows : never_raises e0 (row_from_graph l i u rows).
Proof.
  unfold row_from_graph. apply nr_bind.
  - apply nr_mapM. intros row. apply nr_bind; [apply nr_one_columns|]. intros vs.
    unfold e0. nr.
  - intros edges. unfold e0. nr.
Qed.

(** [rows_with_min_r] never returns [r = 0]: it skips the rows without a
    one, and [r] stays [None] when it has skipped them all. *)
Lemma rows_with_min_r_not_zero m i u st r rows st' :
  rows_with_min_r l m i u st = Ok (r, rows) st' -> r <> Some 0.
Proof.
  unfold rows_with_min_r. intros H.
  eapply (fold_for_inert_Ok (fun acc : option nat * list nat => acc.1 <> Some 0))
    in H as [_ H]; [exact H | | | discriminate].
  - intros x [min_r rows0]. apply inert_bind; [apply inert_row_of|]. intros row. cbn zeta.
    destruct (count _ =? 0); [apply inert_ret|].
    destruct min_r as [mr|]; [|apply inert_ret].
    destruct (_ <? _); [apply inert_ret|]. destruct (_ =? _); apply inert_ret.
  - intros x [min_r rows0] acc' _ HP Hb. inv_ok.
    match goal with H : context [count ?v =? 0] |- _ =>
      destruct (Nat.eqb_spec (count v) 0) as [E0|E0] end.
    { inv_ok. exact HP. }
    destruct min_r as [mr|].
    + match goal with H : context [?c <? mr] |- _ => destruct (c <? mr) end.
      { inv_ok. cbn. congruence. }
      match goal with H : context [?c =? mr] |- _ => destruct (c =? mr) end;
        inv_ok; exact HP.
    + inv_ok. cbn. congruence.
Qed.

(** The raise statement of phase I is never reached. *)
Lemma nr_phase1_body m i u : never_raises e0 (phase1_body l m i u).
Proof.
  unfold phase1_body.
  apply (nr_bind_post e0 _ _ (fun res : option nat * list nat => res.1 <> Some 0)).
  - apply nr_rows_with_min_r.
  - intros s [r rows] s' H. cbn. eapply rows_with_min_r_not_zero. exact H.
  - intros [r rows] Hr. cbn in Hr.
    apply nr_bind.
    { destruct (bool_decide _); [apply nr_row_from_graph | apply nr_min_degree_row]. }
    intros row. apply nr_bind.
    { rewrite bool_decide_eq_false_2 by exact Hr. apply nr_ret. }
    intros _. apply nr_bind; [apply nr_exchange_row|]. intros _.
    apply nr_bind; [apply nr_one_columns|]. intros ones.
    apply nr_bind; [apply nr_bit|]. intros aii.
    apply nr_bind.
    { destruct (negb aii); [|apply nr_set_remove].
      apply nr_bind; [apply nr_set_pop_from|]. intros [x ones'].
      apply nr_bind; [apply nr_exchange_column|]. intros. apply nr_ret. }
    intros ones'. apply nr_bind; [apply nr_align_right|]. intros _.
    apply nr_bind; [apply nr_clear_column|]. intros _. apply nr_ret.
Qed.

Lemma nr_phase1 fuel m : forall i u, never_raises e0 (phase1 l fuel m i u).
Proof.
  induction fuel as [|fuel IH]; intros i u; cbn [phase1]; destruct (_ <? _);
    try apply nr_ret.
  - intros s s'. discriminate.
  - apply nr_bind; [apply nr_phase1_body|]. intros r.
    apply nr_bind; [destruct r; unfold add_r_minus_one, e0; nr|]. intros u'. apply IH.
Qed.

Lemma nr_find_and_exchange column rows : never_raises e0 (find_and_exchange column rows).
Proof.
  induction rows as [|row rows IH]; cbn [find_and_exchange]; [apply nr_ret|].
  apply nr_bind; [apply nr_bit|]. intros [|]; [apply nr_exchange_row | exact IH].
Qed.

Lemma nr_phase2 m u : never_raises e0 (phase2 l m u).
Proof.
  unfold phase2. apply nr_for_each. intros column.
  apply nr_bind; [apply nr_bit|]. intros b.
  apply nr_bind; [|intros; apply nr_clear_column].
  destruct (negb b); [|apply nr_ret].
  apply nr_bind; [apply nr_find_and_exchange|]. intros _.
  apply nr_bind; [apply nr_bit|]. intros b'.
  destruct (negb b'); [apply nr_raise; discriminate | apply nr_ret].
Qed.

Lemma nr_phase3 i u : never_raises e0 (phase3 l i u).
Proof.
  unfold phase3. apply nr_for_each. intros column. apply nr_for_each. intros row.
  apply nr_bind; [apply nr_bit|]. intros [|]; [apply nr_xor_row | apply nr_ret].
Qed.

Lemma nr_phase4 i u : never_raises e0 (phase4 l i u).
Proof.
  unfold phase4. apply nr_bind; [apply nr_get|]. intros st.
  apply nr_bind; [apply nr_put|]. intros _.
  apply nr_bind; [|intros; apply nr_modify].
  apply nr_for_each. intros row. apply nr_for_each. intros column.
  apply nr_bind; [apply nr_bit|]. intros [|]; [apply nr_xor_row | apply nr_ret].
Qed.

Lemma nr_decoding_schedule use_prepass m :
  never_raises e0 (decoding_schedule l use_prepass m).
Proof.
  unfold decoding_schedule, init_locals.
  apply nr_bind; [apply nr_modify|]. intros _.
  apply nr_bind; [destruct use_prepass; [apply nr_prepass | apply nr_ret]|]. intros _.
  apply nr_bind; [apply nr_phase1|]. intros [i u].
  apply nr_bind; [apply nr_phase2|]. intros _.
  apply nr_bind; [apply nr_phase3|]. intros _.
  apply nr_bind; [apply nr_phase4|]. intros _.
  apply nr_bind; [apply nr_get|]. intros st. apply nr_ret.
Qed.
End NeverNoNonzeroRow.

Lemma nr_call_decoding_schedule {R : Runtime} me mx :
  never_raises no_nonzero_row_error (call_decoding_schedule me mx).
Proof.
  unfold call_decoding_schedule. apply nr_bind; [|intros [sc st]; apply nr_ret].
  intros w w' H. unfold with_locals in H.
  destruct (decoding_schedule _ _ _ _) as [x st|e st|] eqn:E; try discriminate.
  inversion H; subst. exact (nr_decoding_schedule _ _ _ _ _ E).
Qed.

(** ** Phase I on the matrices that [a] assembles *)

(** The loop [while (i + u) < self.l], turn by turn:
    [phase1_turns l m i u st i' u' st'] says that the loop, at its test with
    [i], [u] and the store [st], is at its test again with [i'], [u'] and
    [st'] after some number of turns. *)
Inductive phase1_turns {R : Runtime} (l m : nat) :
    nat -> nat -> Solver -> nat -> nat -> Solver -> Prop :=
| turns_none i u st : phase1_turns l m i u st i u st
| turns_more i u st r st1 u1 st2 i' u' st' :
    i + u < l ->
    phase1_body l m i u st = Ok r st1 ->
    add_r_minus_one u r st1 = Ok u1 st2 ->
    phase1_turns l m (i + 1) u1 st2 i' u' st' ->
    phase1_turns l m i u st i' u' st'.

Lemma cols_nonzero_xor_row l m r1 r2 st st' :
  r1 <> r2 -> wf_matrix l m (sv_a st) -> cols_nonzero l (sv_a st) ->
  xor_row r1 r2 st = Ok tt st' -> cols_nonzero l (sv_a st').
Proof.
  intros Hne Hwf HC H. apply (xor_row_entries l m) in H as (_ & _ & _ & Hent); [|exact Hwf].
  exact (cols_nonzero_xor l _ _ r1 r2 Hne Hent HC).
Qed.

Lemma cols_nonzero_exchange_row l m r1 r2 st st' :
  wf_matrix l m (sv_a st) -> cols_nonzero l (sv_a st) ->
  exchange_row r1 r2 st = Ok tt st' -> cols_nonzero l (sv_a st').
Proof.
  intros Hwf HC H.
  apply (exchange_row_entries l m) in H as (x & _ & _ & _ & _ & Hent); [|exact Hwf].
  exact (cols_nonzero_swap_rows l _ _ r1 x Hent HC).
Qed.

Lemma cols_nonzero_exchange_column l m c1 c2 st st' :
  c1 < l -> c2 < l -> wf_matrix l m (sv_a st) -> cols_nonzero l (sv_a st) ->
  exchange_column c1 c2 st = Ok tt st' -> cols_nonzero l (sv_a st').
Proof.
  intros H1 H2 Hwf HC H.
  apply (exchange_column_entries l m) in H as (_ & Hent); [|exact Hwf].
  exact (cols_nonzero_swap_cols l _ _ c1 c2 H1 H2 Hent HC).
Qed.

Section ColsNonzero.
Context {R : Runtime} {HR : RuntimeOk R}.
Variables l m : nat.

(** The turns of phase I keep the invariant and the one in every column. *)
Lemma phase1_turns_inv i u st i' u' st' :
  phase1_turns l m i u st i' u' st' ->
  phase1_inv l m i u (sv_a st) -> cols_nonzero l (sv_a st) ->
  phase1_inv l m i' u' (sv_a st') /\ cols_nonzero l (sv_a st').
Proof.
  induction 1 as [|i u st r st1 u1 st2 i' u' st' Hiu Hbody Hadd Hturns IH];
    intros Hinv HC; [auto|].
  apply (phase1_body_Ok l m (fun s => cols_nonzero l (sv_a s))
           (cols_nonzero_xor_row l) (cols_nonzero_exchange_row l)
           (cols_nonzero_exchange_column l))
    in Hbody as (rr & -> & _ & _ & _ & Hinv1 & HC1); [| exact Hinv | exact HC | exact Hiu].
  cbn [add_r_minus_one] in Hadd. inv_ok. apply IH; assumption.
Qed.

(** A run of the loop of phase I is a sequence of turns. *)
Lemma phase1_is_turns fuel : forall i u st res st',
  phase1 l fuel m i u st = Ok res st' -> phase1_turns l m i u st res.1 res.2 st'.
Proof.
  induction fuel as [|fuel IH]; intros i u st res st' Hrun; cbn [phase1] in Hrun;
    destruct (Nat.ltb_spec (i + u) l) as [Hlt|Hge]; try discriminate Hrun.
  - inv_ok. constructor.
  - inv_ok. eapply turns_more; eauto.
  - inv_ok. constructor.
Qed.
End ColsNonzero.

Lemma m_of_rows {T : Tables} (me : RaptorR10) :
  params_ok (r_params me) ->
  m_of me = Z.to_nat (p_s (r_params me)) + Z.to_nat (p_h (r_params me)) + length (r_symbols me).
Proof.
  intros []. unfold m_of.
  assert (0 <= p_s (r_params me))%Z by lia.
  assert (0 <= p_h (r_params me))%Z by lia.
  clear - H H0.
  generalize dependent (length (r_symbols me)). intros n.
  generalize dependent (p_s (r_params me)). intros s.
  generalize dependent (p_h (r_params me)). intros h. intros. lia.
Qed.


#[export] Instance example_runtime_ok : RuntimeOk Example.runtime.
Proof.
  constructor.
  - intros [|x ones] H; [contradiction|]. cbn. constructor.
  - intros [|[[v1 v2] row0] edges] row H; [discriminate|].
    cbn in H. inversion H; subst. exists v1, v2. constructor.
Qed.



(** ** The matrix that [decoding_schedule] leaves *)

Lemma entry_take (a : list (list bool)) n r c :
  entry (take n a) r c = if decide (r < n) then entry a r c else false.
Proof.
  unfold entry. case_decide.
  - now rewrite lookup_take_lt.
  - now rewrite lookup_take_ge by lia.
Qed.

Lemma wf_take l m n a : wf_matrix l m a -> n <= m -> wf_matrix l n (take n a).
Proof.
  intros [Hlen Hw] Hn. split; [rewrite length_take; lia|].
  intros r row Hr. apply lookup_take_Some in Hr as [Hr _]. eauto.
Qed.

(** The run of [decoding_schedule] by its phases, for any property [C] of
    the solver state that the three matrix operations keep: a run that
    returns went through states in which the matrix has the shape that
    the phase before left. The matrix at the end is the identity on its
    first [l] rows, followed by the rows that phase IV set aside. *)
Section DecodingSchedule.
Context {R : Runtime} {HR : RuntimeOk R}.
Variables l m : nat.
Variable C : Solver -> Prop.
Hypothesis C_xor : forall m' r1 r2 st st',
  r1 <> r2 -> wf_matrix l m' (sv_a st) -> C st -> xor_row r1 r2 st = Ok tt st' -> C st'.
Hypothesis C_row : forall m' r1 r2 st st',
  wf_matrix l m' (sv_a st) -> C st -> exchange_row r1 r2 st = Ok tt st' -> C st'.
Hypothesis C_col : forall m' c1 c2 st st',
  c1 < l -> c2 < l -> wf_matrix l m' (sv_a st) -> C st ->
  exchange_column c1 c2 st = Ok tt st' -> C st'.
Hypothesis C_take : forall st, C st -> C (set_a (take l (sv_a st)) st).

Lemma decoding_schedule_phases use_prepass st sched st' :
  wf_matrix l m (sv_a st) ->
  C {| sv_a := sv_a st; sv_o_degrees := map count (sv_a st);
       sv_schedule := Schedule_new l m |} ->
  decoding_schedule l use_prepass m st = Ok sched st' ->
  l <= m /\
  exists st4 rest,
    C st4 /\ sv_a st4 = matrix_identity l /\ length rest = m - l /\
    sv_a st' = sv_a st4 ++ rest /\ sv_schedule st' = sv_schedule st4 /\
    sched = sv_schedule st4.
Proof.
  intros Hwf HC Hrun. unfold decoding_schedule, init_locals in Hrun. inv_ok. destruct_units.
  match goal with H : phase1 _ _ _ _ _ _ = Ok ?p _ |- _ => destruct p as [i u] end.
  inv_ok. destruct_units.
  match goal with H : (if use_prepass then _ else _) ?s0 = Ok _ ?s1 |- _ =>
    assert (wf_matrix l m (sv_a s1) /\ C s1) as [Hwf1 HC1];
    [destruct use_prepass;
       [eapply (prepass_Ok l m C C_xor); [| |exact H]; cbn; assumption
       | inv_ok; cbn; auto]
    | clear H; rename s1 into st1] end.
  match goal with H : phase1 _ _ _ _ _ _ = Ok _ ?s |- _ =>
    rename s into st2;
    apply (phase1_Ok l m C C_xor C_row C_col) in H as (Hinv2 & HC2 & Hsum & Hi & _);
      [| split; [exact Hwf1|]; split; intros; lia | exact HC1 | lia | lia] end.
  cbn [fst snd] in *.
  apply (tri_inv_of_phase1 l m i u _ Hsum) in Hinv2.
  match goal with H : phase2 _ _ _ _ = Ok _ ?s |- _ =>
    rename s into st3;
    apply (phase2_Ok l m C C_xor C_row i u _ _ Hsum Hinv2 HC2) in H as (Hinv3 & HC3 & Hlm) end.
  match goal with H : phase3 _ _ _ _ = Ok _ ?s |- _ =>
    rename s into st3';
    apply (phase3_Ok l m C C_xor i u _ _ Hsum Hinv3 HC3) in H as (Hinv4 & HC4 & Hup) end.
  assert (l <= m) as Hle by (destruct (decide (0 < u)); [auto | lia]).
  split; [exact Hle|].
  match goal with H : phase4 _ _ _ _ = Ok _ _ |- _ => unfold phase4 in H end.
  inv_ok. destruct_units.
  match goal with H : for_each _ _ _ = Ok _ _ |- _ => rename H into Hloops end.
  destruct Hinv4 as (Hwf4 & Hu4 & Hd4 & Hl4).
  apply (phase4_loops_Ok l C C_xor i u _ _ Hsum) in Hloops as [Hid HC5].
  - eexists _, (drop l (sv_a st3')). split; [exact HC5|]. split; [exact Hid|].
    split; [rewrite length_drop; destruct Hwf4 as [-> _]; reflexivity|].
    cbn. auto.
  - cbn. exact (wf_take l m l _ Hwf4 Hle).
  - apply C_take. exact HC4.
  - intros r c Hr. cbn. rewrite entry_take, decide_True by lia.
    destruct (Nat.eqb_spec r c) as [<-|Hne]; [apply Hd4; lia|].
    destruct (decide (c < r)); [apply Hl4; lia|].
    destruct (decide (c < l)); [apply Hup; lia|].
    apply (entry_out_col l m); [exact Hwf4 | lia].
  - intros r c Hr Hc. cbn. rewrite entry_take, decide_True by lia.
    destruct (Nat.eqb_spec r c) as [<-|Hne]; [apply Hd4; lia|].
    destruct (decide (c < r)); [apply Hl4; lia | apply Hu4; lia].
Qed.
End DecodingSchedule.

(** The matrix after [decoding_schedule] on a matrix of [m] rows of [l]
    bits: its first [l] rows are the identity. *)
Lemma decoding_schedule_identity {R : Runtime} {HR : RuntimeOk R}
    l m use_prepass st sched st' :
  wf_matrix l m (sv_a st) ->
  decoding_schedule l use_prepass m st = Ok sched st' ->
  l <= m /\ length (sv_a st') = m /\ take l (sv_a st') = matrix_identity l.
Proof.
  intros Hwf Hrun.
  apply (decoding_schedule_phases l m (fun _ => True)) in Hrun
    as (Hle & st4 & rest & _ & Hid & Hrest & Ha & _); auto.
  split; [exact Hle|]. rewrite Ha, Hid.
  assert (length (matrix_identity l) = l) as Hlen by apply wf_identity.
  split.
  - rewrite length_app, Hlen, Hrest. lia.
  - rewrite take_app_length'; [reflexivity | now rewrite Hlen].
Qed.


